(** * The sandbox bundler: transpiled-module graph and compile-request queue

    A shallow embedding of [packages/app/src/sandbox/compile.js] (the
    compile-request queue) and of the [TranspiledModule] class that follows it
    in the same source file (the vertex of the module graph), with the
    properties of the graph's lifecycle proved over it.

    Conventions of the embedding.
    - A JavaScript object is a cell of a store: [heap : gmap ref
      TranspiledModule]. A reference that the store does not hold reads as a
      blank node (no source, no edges), see [node].
    - A JavaScript [Set] is the list of its members in insertion order, without
      repetition ([set_add], [set_delete]); [Array.from] of it is that list.
    - An [await] is a sequence point: the asynchronous walk of [transpile] is
      run one call after the other, in the order in which the source starts the
      calls.
    - Recursion through the (possibly cyclic) graph takes a fuel argument;
      [None] is "the call does not return".
    - The collaborators that are imported by the source file but are not part
      of it (the preset, the path resolver, the transformers, the evaluator,
      the dependency downloader) are the fields of [Collaborators]. *)

From stdpp Require Import gmap strings list fin_maps.

Local Open Scope string_scope.
Local Open Scope list_scope.
Local Open Scope nat_scope.

(** ** Values, modules and errors *)

Definition ref := nat.

(** What a compiled unit can export: a primitive, or an object whose
    properties hold primitives. *)
Inductive JsPrimitive :=
| PUndefined
| PNum (z : Z)
| PStr (s : string).

Inductive JsValue :=
| VPrim (p : JsPrimitive)
| VObj (fields : list (string * JsPrimitive)).

(** [{}] *)
Definition emptyObject : JsValue := VObj [].

(** [obj[key] = v] on a value: a property write on an object; on anything else
    the write is lost. *)
Definition setProperty (key : string) (v : JsPrimitive) (obj : JsValue) : JsValue :=
  match obj with
  | VObj fields => VObj (filter (λ kv, kv.1 ≠ key) fields ++ [(key, v)])
  | other => other
  end.

(** The [Module] of [./entities/module]: [{ path, code, requires? }]. *)
Record ModuleRec := {
  path : string;
  code : string;
  requires : option (list string);
}.

Global Instance ModuleRec_eq_dec : EqDecision ModuleRec.
Proof. solve_decision. Defined.

(** An error object with the two properties the graph code writes on it
    ([fileName], [tModule]) and the three it reads ([type], [isDependency],
    [path]). *)
Record JsError := {
  message : string;
  errType : string;
  isDependency : bool;
  errPath : string;
  fileName : option string;
  tModule : option ref;
}.

Definition Error (msg : string) : JsError :=
  {| message := msg; errType := ""; isDependency := false; errPath := "";
     fileName := None; tModule := None |}.

Definition setFileName (f : string) (e : JsError) : JsError :=
  {| message := message e; errType := errType e; isDependency := isDependency e;
     errPath := errPath e; fileName := Some f; tModule := tModule e |}.

Definition setTModule (t : ref) (e : JsError) : JsError :=
  {| message := message e; errType := errType e; isDependency := isDependency e;
     errPath := errPath e; fileName := fileName e; tModule := Some t |}.

(** [new ModuleError(this, error)] and [new ModuleWarning(this, warning)]:
    the diagnostic together with the node that recorded it. *)
Record ModuleError := { errOwner : ref; errCause : JsError }.

Record WarningStructure := {
  wMessage : string;
  lineNumber : Z;
  columnNumber : Z;
  wSource : string;
}.

Record ModuleWarning := { warnOwner : ref; warnPath : string; warning : WarningStructure }.

(** A thrown [ModuleError] is an error object like any other. *)
Definition thrownModuleError (m : ModuleError) : JsError := errCause m.

(** ** The vertex *)

Record ModuleSource := {
  srcFileName : string;
  compiledCode : string;
  sourceMap : option string;
}.

(** [{ exports, hot: { accept } }]; [accept] is a closure over the node and
    carries no data of its own. *)
Record Compilation := { exports : JsValue }.

(** A callback handed to [module.hot.accept(path, cb)]: its name, and the error
    it raises when called, if any. *)
Record Callback := { cbName : string; cbThrows : option JsError }.

(** [hmrEnabled]: absent, [true], or a callback. *)
Inductive HmrEnabled :=
| HmrUnset
| HmrTrue
| HmrCallback (cb : Callback).

(** [!this.hmrEnabled] *)
Definition hmrOff (h : HmrEnabled) : bool :=
  match h with HmrUnset => true | _ => false end.

(** A promise of a node: settled with a node, settled with an error, or not
    settled. *)
Inductive Promise :=
| Fulfilled (t : ref)
| Rejected (e : JsError)
| Pending.

Record TranspiledModule := {
  module : ModuleRec;
  query : string;
  source : option ModuleSource;
  assets : option (list (string * ModuleSource));
  isEntry : bool;
  childModules : list ref;
  errors : list ModuleError;
  warnings : list ModuleWarning;
  emittedAssets : option (list ModuleSource);
  compilation : option Compilation;
  initiators : list ref;
  dependencies : list ref;
  asyncDependencies : list Promise;
  transpilationDependencies : list ref;
  transpilationInitiators : list ref;
  hmrEnabled : HmrEnabled;
  changed : bool;
}.

(** [new TranspiledModule(module, query)]. The constructor leaves [source],
    [assets], [emittedAssets], [compilation], [hmrEnabled] and [changed]
    undefined: [None], [HmrUnset] and [false] here. *)
Definition newTranspiledModule (m : ModuleRec) (q : string) : TranspiledModule :=
  {| module := m; query := q; source := None; assets := None; isEntry := false;
     childModules := []; errors := []; warnings := []; emittedAssets := None;
     compilation := None; initiators := []; dependencies := [];
     asyncDependencies := []; transpilationDependencies := [];
     transpilationInitiators := []; hmrEnabled := HmrUnset; changed := false |}.

Definition blankModule : ModuleRec := {| path := ""; code := ""; requires := None |}.

Global Instance TranspiledModule_inhabited : Inhabited TranspiledModule :=
  populate (newTranspiledModule blankModule "").

(** [getId()]: [`${this.module.path}:${this.query}`] *)
Definition idOf (m : ModuleRec) (q : string) : string := path m +:+ ":" +:+ q.
Definition getId (t : TranspiledModule) : string := idOf (module t) (query t).

(** ** The store and the manager's state *)

(** The objects of the graph, with the parts of the [Manager] that the node
    code reads and writes ([transpiledModules], [modules], [webpackHMR]), and
    what the node code does to the outside, kept as logs: the transformers
    invoked, the units run by the evaluator, the page reloads requested, the
    warnings sent to the diagnostics sink, the accept callbacks called. *)
Record World := {
  heap : gmap ref TranspiledModule;
  transpiledModules : gmap string ref;
  modules : list ModuleRec;
  webpackHMR : bool;
  transpilerCalls : list (ref * string);
  evaluatorCalls : list ref;
  reloads : list ref;
  shownWarnings : list ModuleWarning;
  callbackCalls : list (ref * string);
}.

Definition emptyWorld : World :=
  {| heap := ∅; transpiledModules := ∅; modules := []; webpackHMR := false;
     transpilerCalls := []; evaluatorCalls := []; reloads := [];
     shownWarnings := []; callbackCalls := [] |}.

(** The object a reference points to. *)
Definition node (w : World) (r : ref) : TranspiledModule := heap w !!! r.

Definition setHeap (h : gmap ref TranspiledModule) (w : World) : World :=
  {| heap := h; transpiledModules := transpiledModules w; modules := modules w;
     webpackHMR := webpackHMR w; transpilerCalls := transpilerCalls w;
     evaluatorCalls := evaluatorCalls w; reloads := reloads w;
     shownWarnings := shownWarnings w; callbackCalls := callbackCalls w |}.

(** A write to the fields of the object at [r]. *)
Definition upd (r : ref) (f : TranspiledModule → TranspiledModule) (w : World) : World :=
  setHeap (<[r := f (node w r)]> (heap w)) w.

Definition setTable (t : gmap string ref) (w : World) : World :=
  {| heap := heap w; transpiledModules := t; modules := modules w;
     webpackHMR := webpackHMR w; transpilerCalls := transpilerCalls w;
     evaluatorCalls := evaluatorCalls w; reloads := reloads w;
     shownWarnings := shownWarnings w; callbackCalls := callbackCalls w |}.

Definition setWebpackHMR (b : bool) (w : World) : World :=
  {| heap := heap w; transpiledModules := transpiledModules w; modules := modules w;
     webpackHMR := b; transpilerCalls := transpilerCalls w;
     evaluatorCalls := evaluatorCalls w; reloads := reloads w;
     shownWarnings := shownWarnings w; callbackCalls := callbackCalls w |}.

Definition logTranspiler (r : ref) (name : string) (w : World) : World :=
  {| heap := heap w; transpiledModules := transpiledModules w; modules := modules w;
     webpackHMR := webpackHMR w; transpilerCalls := transpilerCalls w ++ [(r, name)];
     evaluatorCalls := evaluatorCalls w; reloads := reloads w;
     shownWarnings := shownWarnings w; callbackCalls := callbackCalls w |}.

Definition logEvaluator (r : ref) (w : World) : World :=
  {| heap := heap w; transpiledModules := transpiledModules w; modules := modules w;
     webpackHMR := webpackHMR w; transpilerCalls := transpilerCalls w;
     evaluatorCalls := evaluatorCalls w ++ [r]; reloads := reloads w;
     shownWarnings := shownWarnings w; callbackCalls := callbackCalls w |}.

Definition logReload (r : ref) (w : World) : World :=
  {| heap := heap w; transpiledModules := transpiledModules w; modules := modules w;
     webpackHMR := webpackHMR w; transpilerCalls := transpilerCalls w;
     evaluatorCalls := evaluatorCalls w; reloads := reloads w ++ [r];
     shownWarnings := shownWarnings w; callbackCalls := callbackCalls w |}.

Definition logWarnings (ws : list ModuleWarning) (w : World) : World :=
  {| heap := heap w; transpiledModules := transpiledModules w; modules := modules w;
     webpackHMR := webpackHMR w; transpilerCalls := transpilerCalls w;
     evaluatorCalls := evaluatorCalls w; reloads := reloads w;
     shownWarnings := shownWarnings w ++ ws; callbackCalls := callbackCalls w |}.

Definition logCallback (r : ref) (name : string) (w : World) : World :=
  {| heap := heap w; transpiledModules := transpiledModules w; modules := modules w;
     webpackHMR := webpackHMR w; transpilerCalls := transpilerCalls w;
     evaluatorCalls := evaluatorCalls w; reloads := reloads w;
     shownWarnings := shownWarnings w; callbackCalls := callbackCalls w ++ [(r, name)] |}.

(** ** JavaScript sets of nodes *)

(** [s.add(x)] *)
Definition set_add (x : ref) (s : list ref) : list ref :=
  if decide (x ∈ s) then s else s ++ [x].

(** [s.delete(x)] *)
Definition set_delete (x : ref) (s : list ref) : list ref :=
  filter (λ y, y ≠ x) s.

(** ** Field writes on a node *)

Definition setModule (v : ModuleRec) (t : TranspiledModule) : TranspiledModule :=
  {| module := v; query := query t; source := source t; assets := assets t;
     isEntry := isEntry t; childModules := childModules t; errors := errors t;
     warnings := warnings t; emittedAssets := emittedAssets t;
     compilation := compilation t; initiators := initiators t;
     dependencies := dependencies t; asyncDependencies := asyncDependencies t;
     transpilationDependencies := transpilationDependencies t;
     transpilationInitiators := transpilationInitiators t;
     hmrEnabled := hmrEnabled t; changed := changed t |}.

Definition setQuery (v : string) (t : TranspiledModule) : TranspiledModule :=
  {| module := module t; query := v; source := source t; assets := assets t;
     isEntry := isEntry t; childModules := childModules t; errors := errors t;
     warnings := warnings t; emittedAssets := emittedAssets t;
     compilation := compilation t; initiators := initiators t;
     dependencies := dependencies t; asyncDependencies := asyncDependencies t;
     transpilationDependencies := transpilationDependencies t;
     transpilationInitiators := transpilationInitiators t;
     hmrEnabled := hmrEnabled t; changed := changed t |}.

Definition setSource (v : option ModuleSource) (t : TranspiledModule) : TranspiledModule :=
  {| module := module t; query := query t; source := v; assets := assets t;
     isEntry := isEntry t; childModules := childModules t; errors := errors t;
     warnings := warnings t; emittedAssets := emittedAssets t;
     compilation := compilation t; initiators := initiators t;
     dependencies := dependencies t; asyncDependencies := asyncDependencies t;
     transpilationDependencies := transpilationDependencies t;
     transpilationInitiators := transpilationInitiators t;
     hmrEnabled := hmrEnabled t; changed := changed t |}.

Definition setAssets (v : option (list (string * ModuleSource))) (t : TranspiledModule)
  : TranspiledModule :=
  {| module := module t; query := query t; source := source t; assets := v;
     isEntry := isEntry t; childModules := childModules t; errors := errors t;
     warnings := warnings t; emittedAssets := emittedAssets t;
     compilation := compilation t; initiators := initiators t;
     dependencies := dependencies t; asyncDependencies := asyncDependencies t;
     transpilationDependencies := transpilationDependencies t;
     transpilationInitiators := transpilationInitiators t;
     hmrEnabled := hmrEnabled t; changed := changed t |}.

(** [setIsEntry(isEntry)] *)
Definition setIsEntry (v : bool) (t : TranspiledModule) : TranspiledModule :=
  {| module := module t; query := query t; source := source t; assets := assets t;
     isEntry := v; childModules := childModules t; errors := errors t;
     warnings := warnings t; emittedAssets := emittedAssets t;
     compilation := compilation t; initiators := initiators t;
     dependencies := dependencies t; asyncDependencies := asyncDependencies t;
     transpilationDependencies := transpilationDependencies t;
     transpilationInitiators := transpilationInitiators t;
     hmrEnabled := hmrEnabled t; changed := changed t |}.

Definition setChildModules (v : list ref) (t : TranspiledModule) : TranspiledModule :=
  {| module := module t; query := query t; source := source t; assets := assets t;
     isEntry := isEntry t; childModules := v; errors := errors t;
     warnings := warnings t; emittedAssets := emittedAssets t;
     compilation := compilation t; initiators := initiators t;
     dependencies := dependencies t; asyncDependencies := asyncDependencies t;
     transpilationDependencies := transpilationDependencies t;
     transpilationInitiators := transpilationInitiators t;
     hmrEnabled := hmrEnabled t; changed := changed t |}.

Definition setErrors (v : list ModuleError) (t : TranspiledModule) : TranspiledModule :=
  {| module := module t; query := query t; source := source t; assets := assets t;
     isEntry := isEntry t; childModules := childModules t; errors := v;
     warnings := warnings t; emittedAssets := emittedAssets t;
     compilation := compilation t; initiators := initiators t;
     dependencies := dependencies t; asyncDependencies := asyncDependencies t;
     transpilationDependencies := transpilationDependencies t;
     transpilationInitiators := transpilationInitiators t;
     hmrEnabled := hmrEnabled t; changed := changed t |}.

Definition setWarnings (v : list ModuleWarning) (t : TranspiledModule) : TranspiledModule :=
  {| module := module t; query := query t; source := source t; assets := assets t;
     isEntry := isEntry t; childModules := childModules t; errors := errors t;
     warnings := v; emittedAssets := emittedAssets t;
     compilation := compilation t; initiators := initiators t;
     dependencies := dependencies t; asyncDependencies := asyncDependencies t;
     transpilationDependencies := transpilationDependencies t;
     transpilationInitiators := transpilationInitiators t;
     hmrEnabled := hmrEnabled t; changed := changed t |}.

Definition setEmittedAssets (v : option (list ModuleSource)) (t : TranspiledModule)
  : TranspiledModule :=
  {| module := module t; query := query t; source := source t; assets := assets t;
     isEntry := isEntry t; childModules := childModules t; errors := errors t;
     warnings := warnings t; emittedAssets := v;
     compilation := compilation t; initiators := initiators t;
     dependencies := dependencies t; asyncDependencies := asyncDependencies t;
     transpilationDependencies := transpilationDependencies t;
     transpilationInitiators := transpilationInitiators t;
     hmrEnabled := hmrEnabled t; changed := changed t |}.

Definition setCompilation (v : option Compilation) (t : TranspiledModule) : TranspiledModule :=
  {| module := module t; query := query t; source := source t; assets := assets t;
     isEntry := isEntry t; childModules := childModules t; errors := errors t;
     warnings := warnings t; emittedAssets := emittedAssets t;
     compilation := v; initiators := initiators t;
     dependencies := dependencies t; asyncDependencies := asyncDependencies t;
     transpilationDependencies := transpilationDependencies t;
     transpilationInitiators := transpilationInitiators t;
     hmrEnabled := hmrEnabled t; changed := changed t |}.

Definition setInitiators (v : list ref) (t : TranspiledModule) : TranspiledModule :=
  {| module := module t; query := query t; source := source t; assets := assets t;
     isEntry := isEntry t; childModules := childModules t; errors := errors t;
     warnings := warnings t; emittedAssets := emittedAssets t;
     compilation := compilation t; initiators := v;
     dependencies := dependencies t; asyncDependencies := asyncDependencies t;
     transpilationDependencies := transpilationDependencies t;
     transpilationInitiators := transpilationInitiators t;
     hmrEnabled := hmrEnabled t; changed := changed t |}.

Definition setDependencies (v : list ref) (t : TranspiledModule) : TranspiledModule :=
  {| module := module t; query := query t; source := source t; assets := assets t;
     isEntry := isEntry t; childModules := childModules t; errors := errors t;
     warnings := warnings t; emittedAssets := emittedAssets t;
     compilation := compilation t; initiators := initiators t;
     dependencies := v; asyncDependencies := asyncDependencies t;
     transpilationDependencies := transpilationDependencies t;
     transpilationInitiators := transpilationInitiators t;
     hmrEnabled := hmrEnabled t; changed := changed t |}.

Definition setAsyncDependencies (v : list Promise) (t : TranspiledModule) : TranspiledModule :=
  {| module := module t; query := query t; source := source t; assets := assets t;
     isEntry := isEntry t; childModules := childModules t; errors := errors t;
     warnings := warnings t; emittedAssets := emittedAssets t;
     compilation := compilation t; initiators := initiators t;
     dependencies := dependencies t; asyncDependencies := v;
     transpilationDependencies := transpilationDependencies t;
     transpilationInitiators := transpilationInitiators t;
     hmrEnabled := hmrEnabled t; changed := changed t |}.

Definition setTranspilationDependencies (v : list ref) (t : TranspiledModule)
  : TranspiledModule :=
  {| module := module t; query := query t; source := source t; assets := assets t;
     isEntry := isEntry t; childModules := childModules t; errors := errors t;
     warnings := warnings t; emittedAssets := emittedAssets t;
     compilation := compilation t; initiators := initiators t;
     dependencies := dependencies t; asyncDependencies := asyncDependencies t;
     transpilationDependencies := v;
     transpilationInitiators := transpilationInitiators t;
     hmrEnabled := hmrEnabled t; changed := changed t |}.

Definition setTranspilationInitiators (v : list ref) (t : TranspiledModule)
  : TranspiledModule :=
  {| module := module t; query := query t; source := source t; assets := assets t;
     isEntry := isEntry t; childModules := childModules t; errors := errors t;
     warnings := warnings t; emittedAssets := emittedAssets t;
     compilation := compilation t; initiators := initiators t;
     dependencies := dependencies t; asyncDependencies := asyncDependencies t;
     transpilationDependencies := transpilationDependencies t;
     transpilationInitiators := v;
     hmrEnabled := hmrEnabled t; changed := changed t |}.

Definition setHmrEnabled (v : HmrEnabled) (t : TranspiledModule) : TranspiledModule :=
  {| module := module t; query := query t; source := source t; assets := assets t;
     isEntry := isEntry t; childModules := childModules t; errors := errors t;
     warnings := warnings t; emittedAssets := emittedAssets t;
     compilation := compilation t; initiators := initiators t;
     dependencies := dependencies t; asyncDependencies := asyncDependencies t;
     transpilationDependencies := transpilationDependencies t;
     transpilationInitiators := transpilationInitiators t;
     hmrEnabled := v; changed := changed t |}.

Definition setChanged (v : bool) (t : TranspiledModule) : TranspiledModule :=
  {| module := module t; query := query t; source := source t; assets := assets t;
     isEntry := isEntry t; childModules := childModules t; errors := errors t;
     warnings := warnings t; emittedAssets := emittedAssets t;
     compilation := compilation t; initiators := initiators t;
     dependencies := dependencies t; asyncDependencies := asyncDependencies t;
     transpilationDependencies := transpilationDependencies t;
     transpilationInitiators := transpilationInitiators t;
     hmrEnabled := hmrEnabled t; changed := v |}.

(** ** Calls that may throw, calls that may not return *)

Inductive Outcome (A : Type) :=
| Returned (a : A)
| Threw (e : JsError).
Arguments Returned {A} a.
Arguments Threw {A} e.

(** [l.forEach(x => f(x))] for a callback that may fail to return. *)
Fixpoint forEachM {A : Type} (f : A → World → option World) (l : list A) (w : World)
  : option World :=
  match l with
  | [] => Some w
  | x :: rest =>
      match f x w with
      | Some w' => forEachM f rest w'
      | None => None
      end
  end.

(** [t => t.source] and [t => t.compilation], as filters over a set of nodes. *)
Definition hasSource (w : World) (t : ref) : bool :=
  match source (node w t) with Some _ => true | None => false end.

Definition hasCompilation (w : World) (t : ref) : bool :=
  match compilation (node w t) with Some _ => true | None => false end.

Definition keep (p : ref → bool) (l : list ref) : list ref :=
  filter (λ t, p t = true) l.

(** ** Invalidation: [resetTranspilation], [resetCompilation], [reset], [update] *)

(** [deps.forEach(t => { t.initiators.delete(n); })] *)
Definition unlinkAll (n : ref) (deps : list ref) (w : World) : World :=
  foldl (λ acc t, upd t (λ d, setInitiators (set_delete n (initiators d)) d) acc) w deps.

(** [resetTranspilation()]. The recursive calls on the transpilation
    initiators come before [this.source = null]. *)
Fixpoint resetTranspilation (fuel : nat) (n : ref) (w : World) : option World :=
  match fuel with
  | 0 => None
  | S f =>
      match
        (if hmrOff (hmrEnabled (node w n)) then
           forEachM (resetTranspilation f)
             (keep (hasSource w) (transpilationInitiators (node w n))) w
         else Some w)
      with
      | None => None
      | Some w1 =>
          let w2 := upd n (λ t, setWarnings [] (setErrors [] (setSource None t))) w1 in
          let w3 :=
            if hmrOff (hmrEnabled (node w2 n)) then
              unlinkAll n (dependencies (node w2 n)) w2
            else w2 in
          Some (upd n (λ t, setAsyncDependencies [] (setDependencies [] t)) w3)
      end
  end.

(** [resetCompilation()]. The [try ... catch] of the source only logs; nothing
    in its block throws here. *)
Fixpoint resetCompilation (fuel : nat) (n : ref) (w : World) : option World :=
  match fuel with
  | 0 => None
  | S f =>
      match
        (match compilation (node w n) with
         | Some _ =>
             if hmrOff (hmrEnabled (node w n)) then
               let w' := upd n (setCompilation None) w in
               forEachM (resetCompilation f)
                 (keep (hasCompilation w') (initiators (node w' n))) w'
             else Some (upd n (setChanged true) w)
         | None => Some w
         end)
      with
      | None => None
      | Some w1 =>
          if hmrOff (hmrEnabled (node w1 n)) then
            forEachM (resetCompilation f)
              (keep (hasCompilation w1) (transpilationInitiators (node w1 n))) w1
          else Some w1
      end
  end.

(** [reset()] *)
Fixpoint reset (fuel : nat) (n : ref) (w : World) : option World :=
  match fuel with
  | 0 => None
  | S f =>
      match forEachM (reset f) (childModules (node w n)) w with
      | None => None
      | Some w1 =>
          let w2 := upd n (setChildModules []) w1 in
          let w3 := upd n (setEmittedAssets (Some [])) w2 in
          match resetCompilation f n w3 with
          | None => None
          | Some w4 =>
              match resetTranspilation f n w4 with
              | None => None
              | Some w5 => Some (upd n (setIsEntry false) w5)
              end
          end
      end
  end.

(** [dispose()] *)
Definition dispose (fuel : nat) (n : ref) (w : World) : option World := reset fuel n w.

(** [update(module)]; the node returned is [n] itself. *)
Definition update (fuel : nat) (n : ref) (m : ModuleRec) (w : World) : option World :=
  reset fuel n (upd n (setModule m) w).

(** ** Strings as the source reads them *)

Fixpoint includesChar (c : Ascii.ascii) (s : string) : bool :=
  match s with
  | EmptyString => false
  | String c' rest => if Ascii.eqb c c' then true else includesChar c rest
  end.

(** [s.split(sep)] for a one-character separator. *)
Fixpoint splitOn (sep : Ascii.ascii) (s : string) : list string :=
  match s with
  | EmptyString => [""]
  | String c rest =>
      if Ascii.eqb c sep then "" :: splitOn sep rest
      else match splitOn sep rest with
           | hd :: tl => String c hd :: tl
           | [] => [String c ""]
           end
  end.

Definition bang : Ascii.ascii := Ascii.ascii_of_nat 33.

(** [\w] of a regular expression: a letter, a digit or the underscore. *)
Definition isWordChar (c : Ascii.ascii) : bool :=
  let k := Ascii.nat_of_ascii c in
  ((48 <=? k) && (k <=? 57)) || ((65 <=? k) && (k <=? 90))
  || ((97 <=? k) && (k <=? 122)) || (k =? 95).

(** [/^(\w|@\w)/.test(s)] *)
Definition startsLikePackage (s : string) : bool :=
  match s with
  | String c rest =>
      if isWordChar c then true
      else if Ascii.eqb c (Ascii.ascii_of_nat 64) then
        match rest with
        | String c' _ => isWordChar c'
        | EmptyString => false
        end
      else false
  | EmptyString => false
  end.

(** [depPath.startsWith('babel-runtime') || depPath.startsWith('codesandbox-api')] *)
Definition isSpecialDependency (depPath : string) : bool :=
  String.prefix "babel-runtime" depPath || String.prefix "codesandbox-api" depPath.

(** ** The collaborators *)

(** What a transformer does with its loader context before its promise
    settles: the calls it makes, each continued with what the call returned to
    it, ending in [{ transpiledCode, sourceMap }] or in an error. *)
Inductive LoaderRun :=
| Resolve (transpiledCode : string) (sourceMap : option string)
| Reject (e : JsError)
| CallEmitWarning (wr : WarningStructure) (k : LoaderRun)
| CallEmitError (e : JsError) (k : LoaderRun)
| CallEmitModule (p c : string) (directoryPath : option string) (k : ref → LoaderRun)
| CallEmitFile (name content : string) (sm : option string) (k : option JsError → LoaderRun)
| CallAddTranspilationDependency (depPath : string) (isAbsolute : bool)
    (k : Outcome ref → LoaderRun)
| CallAddDependency (depPath : string) (isAbsolute : bool) (k : option ref → LoaderRun)
| CallAddDependenciesInDirectory (folderPath : string) (isAbsolute : bool)
    (k : list ref → LoaderRun)
| CallGetModules (k : list ModuleRec → LoaderRun).

(** [{ transpiler, options, cacheable }] of the preset; [transpilerRun code path]
    is [transpiler.transpile(code, loaderContext)] for a context whose [path]
    is [path]. *)
Record TranspilerConfig := {
  transpilerName : string;
  transpilerRun : string → string → LoaderRun;
  cacheable : bool;
}.

(** What a compiled unit does when the evaluator runs it: its writes to
    [module.exports], its calls of [require] and of [module.hot.accept], each
    continued with what the call returned or threw, until it ends or throws. *)
Inductive UnitRun :=
| Finish
| Raise (e : JsError)
| SetExport (key : string) (v : JsPrimitive) (k : UnitRun)
| AssignExports (v : JsValue) (k : UnitRun)
| Require (p : string) (k : Outcome JsValue → UnitRun)
| HotAccept (p : option string) (cb : option Callback) (k : option JsError → UnitRun).

(** The outcome of the path resolver: a source module and the loader query split
    off the specifier, or the error it throws. *)
Inductive Resolution :=
| ResolvedTo (m : ModuleRec) (q : string)
| ResolveFails (e : JsError).

Record Collaborators := {
  (** [manager.preset.getLoaders(module, query)] *)
  getLoaders : ModuleRec → string → list TranspilerConfig;
  (** [manager.preset.getAliasedPath(path)] *)
  getAliasedPath : string → string;
  (** the path resolver behind [manager.resolveTranspiledModule(path, from)] *)
  resolveModule : World → string → string → Resolution;
  (** whether a module path lies under a folder, seen from a path *)
  inDirectory : string → string → string → bool;
  (** [manager.downloadDependency(path, from)] *)
  downloadDependency : string → string → Promise;
  (** [resolveDependency(path, manager.externals)] *)
  resolveDependency : string → Outcome JsValue;
  (** the behaviour of compiled code under the evaluator *)
  unitOf : string → UnitRun;
  (** [pathUtils.dirname], [pathUtils.join], [location.origin] *)
  dirname : string → string;
  join : string → string → string;
  origin : string;
}.

(** ** The manager's node table *)

(** Modelled from the spec: [manager.addTranspiledModule(module, query)] of
    [./eval/manager], which the source file imports: "create or look up a node
    by (path, query)". A node that is created is a new object, registered under
    its id. *)
Definition addTranspiledModule (m : ModuleRec) (q : string) (w : World) : ref * World :=
  match transpiledModules w !! idOf m q with
  | Some r => (r, w)
  | None =>
      let r := fresh (dom (heap w)) in
      (r, setTable (<[idOf m q := r]> (transpiledModules w))
            (setHeap (<[r := newTranspiledModule m q]> (heap w)) w))
  end.

(** Modelled from the spec: [manager.resolveTranspiledModule(path, from)] of
    [./eval/manager]: the path resolver picks the source module and the query,
    and the node of that pair is looked up or created; a failed resolution
    throws. *)
Definition resolveTranspiledModule (C : Collaborators) (p from : string) (w : World)
  : Outcome ref * World :=
  match resolveModule C w p from with
  | ResolvedTo m q => let '(t, w1) := addTranspiledModule m q w in (Returned t, w1)
  | ResolveFails e => (Threw e, w)
  end.

(** Modelled from the spec: [manager.resolveTranspiledModulesInDirectory(dir,
    from)] of [./eval/manager]: "all nodes whose path lies under dir". *)
Definition resolveTranspiledModulesInDirectory (C : Collaborators) (dir from : string)
  (w : World) : list ref :=
  filter (λ r, inDirectory C dir from (path (module (node w r))) = true)
    (map_to_list (transpiledModules w)).*2.

(** ** The loader context: [getLoaderContext(manager, transpilerOptions)] *)

(** [a.dependencies.add(b); b.initiators.add(a)] *)
Definition linkDependency (a b : ref) (w : World) : World :=
  upd b (λ t, setInitiators (set_add a (initiators t)) t)
    (upd a (λ t, setDependencies (set_add b (dependencies t)) t) w).

(** [a.transpilationDependencies.add(b); b.transpilationInitiators.add(a)] *)
Definition linkTranspilationDependency (a b : ref) (w : World) : World :=
  upd b (λ t, setTranspilationInitiators (set_add a (transpilationInitiators t)) t)
    (upd a (λ t, setTranspilationDependencies (set_add b (transpilationDependencies t)) t) w).

(** [emitWarning(warning)] *)
Definition emitWarning (n : ref) (wr : WarningStructure) (w : World) : World :=
  upd n (λ t, setWarnings
    (warnings t ++ [{| warnOwner := n; warnPath := path (module t); warning := wr |}]) t) w.

(** [emitError(error)] *)
Definition emitError (n : ref) (e : JsError) (w : World) : World :=
  upd n (λ t, setErrors (errors t ++ [{| errOwner := n; errCause := e |}]) t) w.

(** [emitModule(path, code, directoryPath = dirname(this.module.path))]: the
    last [!]-separated part of [path] is the module path, what stands before
    it is the query of the child. *)
Definition emitModule (C : Collaborators) (n : ref) (p c : string)
  (directoryPath : option string) (w : World) : ref * World :=
  let this := node w n in
  let dir := default (dirname C (path (module this))) directoryPath in
  let queryPath := splitOn bang p in
  let modulePath := List.last queryPath "" in
  let moduleCopy :=
    {| path := join C dir modulePath; code := c; requires := requires (module this) |} in
  let '(t, w1) :=
    addTranspiledModule moduleCopy (String.concat "!" (removelast queryPath)) w in
  let w2 := upd n (λ x, setChildModules (childModules x ++ [t]) x) w1 in
  (t, linkDependency n t w2).

(** [emitFile(name, content, sourceMap)]: [this.assets[name] = ...], which
    raises a [TypeError] while [assets] is undefined. *)
Definition emitFile (n : ref) (name content : string) (sm : option string) (w : World)
  : option JsError * World :=
  match assets (node w n) with
  | None => (Some (Error "Cannot set properties of undefined"), w)
  | Some a =>
      let entry := {| srcFileName := name; compiledCode := content; sourceMap := sm |} in
      (None, upd n (setAssets (Some (filter (λ kv, kv.1 ≠ name) a ++ [(name, entry)]))) w)
  end.

(** [options && options.isAbsolute ? '/' : this.module.path] *)
Definition fromPath (isAbsolute : bool) (w : World) (n : ref) : string :=
  if isAbsolute then "/" else path (module (node w n)).

(** [addTranspilationDependency(depPath, options)]; a failed resolution is not
    caught here. *)
Definition addTranspilationDependency (C : Collaborators) (n : ref) (depPath : string)
  (isAbsolute : bool) (w : World) : Outcome ref * World :=
  match resolveTranspiledModule C depPath (fromPath isAbsolute w n) w with
  | (Returned t, w1) => (Returned t, linkTranspilationDependency n t w1)
  | (Threw e, w1) => (Threw e, w1)
  end.

(** [addDependency(depPath, options)] *)
Definition addDependency (C : Collaborators) (n : ref) (depPath : string)
  (isAbsolute : bool) (w : World) : option ref * World :=
  if isSpecialDependency depPath then (None, w)
  else
    match resolveTranspiledModule C depPath (fromPath isAbsolute w n) w with
    | (Returned t, w1) => (Some t, linkDependency n t w1)
    | (Threw e, w1) =>
        if String.eqb (errType e) "module-not-found" && isDependency e then
          (None, upd n (λ t, setAsyncDependencies
                   (asyncDependencies t
                      ++ [downloadDependency C (errPath e) (path (module t))]) t) w1)
        else (None, w1)
    end.

(** [addDependenciesInDirectory(folderPath, options)] *)
Definition addDependenciesInDirectory (C : Collaborators) (n : ref) (folderPath : string)
  (isAbsolute : bool) (w : World) : list ref * World :=
  let tModules :=
    resolveTranspiledModulesInDirectory C folderPath (fromPath isAbsolute w n) w in
  (tModules, foldl (λ acc t, linkDependency n t acc) w tModules).

(** A transformer at work on the loader context of node [n]. *)
Fixpoint runLoader (C : Collaborators) (n : ref) (r : LoaderRun) (w : World)
  : Outcome (string * option string) * World :=
  match r with
  | Resolve c sm => (Returned (c, sm), w)
  | Reject e => (Threw e, w)
  | CallEmitWarning wr k => runLoader C n k (emitWarning n wr w)
  | CallEmitError e k => runLoader C n k (emitError n e w)
  | CallEmitModule p c d k =>
      let '(t, w1) := emitModule C n p c d w in runLoader C n (k t) w1
  | CallEmitFile name content sm k =>
      let '(r, w1) := emitFile n name content sm w in runLoader C n (k r) w1
  | CallAddTranspilationDependency depPath abs k =>
      let '(r, w1) := addTranspilationDependency C n depPath abs w in
      runLoader C n (k r) w1
  | CallAddDependency depPath abs k =>
      let '(r, w1) := addDependency C n depPath abs w in runLoader C n (k r) w1
  | CallAddDependenciesInDirectory folder abs k =>
      let '(r, w1) := addDependenciesInDirectory C n folder abs w in
      runLoader C n (k r) w1
  | CallGetModules k => runLoader C n (k (modules w)) w
  end.

(** ** [transpile(manager)] *)

(** The [try] block of one turn of the [for] loop over the transformers: the
    awaited [transpiler.transpile(code, loaderContext)], the warnings sent to
    the diagnostics sink, and [throw this.errors[0]] when an error was
    recorded. *)
Definition tryTranspiler (C : Collaborators) (n : ref) (transpilerConfig : TranspilerConfig)
  (c : string) (w : World) : Outcome (string * option string) * World :=
  let ctxPath := path (module (node w n)) in
  let '(res, w1) :=
    runLoader C n (transpilerRun transpilerConfig c ctxPath)
      (logTranspiler n (transpilerName transpilerConfig) w) in
  match res with
  | Returned (transpiledCode, sm) =>
      let w2 :=
        match warnings (node w1 n) with
        | [] => w1
        | ws => logWarnings ws w1
        end in
      match errors (node w2 n) with
      | first :: _ => (Threw (thrownModuleError first), w2)
      | [] => (Returned (transpiledCode, sm), w2)
      end
  | Threw e => (Threw e, w1)
  end.

(** The [for] loop over the transformers. [loaderContext.path] is read when
    the context of a turn is built. The [catch] block tags the error, resets
    the node's transpilation and throws again. *)
Fixpoint runLoaders (C : Collaborators) (fuel : nat) (n : ref)
  (transpilers : list TranspilerConfig) (c : string) (finalSourceMap : option string)
  (w : World) : option (Outcome (string * option string) * World) :=
  match transpilers with
  | [] => Some (Returned (c, finalSourceMap), w)
  | transpilerConfig :: rest =>
      let ctxPath := path (module (node w n)) in
      match tryTranspiler C n transpilerConfig c w with
      | (Returned (transpiledCode, sm), w2) =>
          runLoaders C fuel n rest transpiledCode sm w2
      | (Threw e, w2) =>
          match resetTranspilation fuel n w2 with
          | Some w3 => Some (Threw (setTModule n (setFileName ctxPath e)), w3)
          | None => None
          end
      end
  end.

(** The awaited [asyncDependencies]: a fulfilled one is linked, a rejected one
    is left for the evaluation, one that never settles keeps the walk waiting. *)
Fixpoint awaitAsyncDependencies (n : ref) (ps : list Promise) (w : World) : option World :=
  match ps with
  | [] => Some w
  | Fulfilled t :: rest => awaitAsyncDependencies n rest (linkDependency n t w)
  | Rejected _ :: rest => awaitAsyncDependencies n rest w
  | Pending :: _ => None
  end.

(** The fan-out [Promise.all(ts.map(t => t.transpile(manager)))], one member
    after the other; the first rejection is the rejection of the whole. *)
Fixpoint transpileAll (f : ref → World → option (Outcome unit * World)) (ts : list ref)
  (w : World) : option (Outcome unit * World) :=
  match ts with
  | [] => Some (Returned tt, w)
  | t :: rest =>
      match f t w with
      | Some (Returned _, w1) => transpileAll f rest w1
      | other => other
      end
  end.

Definition sourceURL (C : Collaborators) (c p : string) : string :=
  c +:+ String (Ascii.ascii_of_nat 10) "//# sourceURL=" +:+ origin C +:+ p.

(** The start of [transpile]: [n] leaves the initiators of its old
    dependencies, and its dependencies and diagnostics are emptied. *)
Definition clearForTranspile (n : ref) (w : World) : World :=
  upd n (λ t, setWarnings [] (setErrors [] (setDependencies [] t)))
    (unlinkAll n (dependencies (node w n)) w).

Fixpoint transpile (C : Collaborators) (fuel : nat) (n : ref) (w : World)
  : option (Outcome unit * World) :=
  match fuel with
  | 0 => None
  | S f =>
      match source (node w n) with
      | Some _ => Some (Returned tt, w)
      | None =>
          let w2 := clearForTranspile n w in
          let m := module (node w2 n) in
          match
            (match requires m with
             | Some reqs =>
                 Some (Returned (code m, None),
                       foldl (λ acc dep, (addDependency C n dep false acc).2) w2 reqs)
             | None => runLoaders C f n (getLoaders C m (query (node w2 n))) (code m) None w2
             end)
          with
          | None => None
          | Some (Threw e, w3) => Some (Threw e, w3)
          | Some (Returned (c, sm), w3) =>
              let this := node w3 n in
              let src :=
                {| srcFileName := path (module this);
                   compiledCode := sourceURL C c (path (module this));
                   sourceMap := sm |} in
              let w4 := upd n (setSource (Some src)) w3 in
              match awaitAsyncDependencies n (asyncDependencies (node w4 n)) w4 with
              | None => None
              | Some w5 =>
                  let w6 := upd n (setAsyncDependencies []) w5 in
                  match
                    transpileAll (transpile C f) (transpilationInitiators (node w6 n)) w6
                  with
                  | Some (Returned _, w7) =>
                      transpileAll (transpile C f) (dependencies (node w7 n)) w7
                  | other => other
                  end
              end
          end
      end
  end.

(** ** [evaluate(manager, parentModules)] *)

(** [e.tModule = e.tModule || transpiledModule] *)
Definition tagTModule (n : ref) (e : JsError) : JsError :=
  match tModule e with
  | Some _ => e
  | None => setTModule n e
  end.

(** [module.hot.accept(path, cb)] of the compilation of node [n]. A [path]
    that is absent or empty is falsy; an absent [cb] leaves the target's
    [hmrEnabled] undefined. *)
Definition accept (C : Collaborators) (n : ref) (p : option string) (cb : option Callback)
  (w : World) : option JsError * World :=
  match p with
  | Some (String a rest) =>
      match resolveTranspiledModule C (String a rest) (path (module (node w n))) w with
      | (Returned t, w1) =>
          let h := match cb with Some f => HmrCallback f | None => HmrUnset end in
          (None, setWebpackHMR true (upd t (setHmrEnabled h) w1))
      | (Threw e, w1) => (Some e, w1)
      end
  | _ => (None, setWebpackHMR true (upd n (setHmrEnabled HmrTrue) w))
  end.

(** The [require(path)] closure of node [n]; [evalRec] is
    [manager.evaluateTranspiledModule]. *)
Definition require (C : Collaborators)
  (evalRec : ref → list ref → World → option (Outcome JsValue * World))
  (n : ref) (localModule : ModuleRec) (parentModules : list ref) (p : string) (w : World)
  : option (Outcome JsValue * World) :=
  let aliasedPath := getAliasedPath C p in
  if startsLikePackage aliasedPath && negb (includesChar bang aliasedPath)
     && isSpecialDependency aliasedPath
  then Some (resolveDependency C aliasedPath, w)
  else
    match resolveTranspiledModule C aliasedPath (path localModule) w with
    | (Threw e, w1) => Some (Threw e, w1)
    | (Returned t, w1) =>
        if decide (localModule = module (node w1 t)) then
          Some (Threw (Error (path localModule +:+ " is importing itself")), w1)
        else evalRec t (parentModules ++ [n]) w1
    end.

Definition writeExports (f : JsValue → JsValue) (t : TranspiledModule) : TranspiledModule :=
  match compilation t with
  | Some c => setCompilation (Some {| exports := f (exports c) |}) t
  | None => t
  end.

(** Modelled from the spec: the evaluator [evaluate(compiledCode, require,
    compilation, envVariables)] of [./loaders/eval], which the source file
    imports: it runs the unit with the injected [require] and with
    [compilation] as its [module]; "after successful invocation,
    compilation.exports reflects any assignments the unit made to
    module.exports or to exports. Exceptions propagate." *)
Fixpoint runUnit (C : Collaborators)
  (evalRec : ref → list ref → World → option (Outcome JsValue * World))
  (n : ref) (localModule : ModuleRec) (parentModules : list ref) (u : UnitRun) (w : World)
  : option (Outcome unit * World) :=
  match u with
  | Finish => Some (Returned tt, w)
  | Raise e => Some (Threw e, w)
  | SetExport key v k =>
      runUnit C evalRec n localModule parentModules k
        (upd n (writeExports (setProperty key v)) w)
  | AssignExports v k =>
      runUnit C evalRec n localModule parentModules k (upd n (writeExports (λ _, v)) w)
  | Require p k =>
      match require C evalRec n localModule parentModules p w with
      | None => None
      | Some (r, w1) => runUnit C evalRec n localModule parentModules (k r) w1
      end
  | HotAccept p cb k =>
      let '(r, w1) := accept C n p cb w in
      runUnit C evalRec n localModule parentModules (k r) w1
  end.

(** [this.compilation = this.compilation || { exports: {}, hot }] *)
Definition initCompilation (t : TranspiledModule) : TranspiledModule :=
  setCompilation (Some (default {| exports := emptyObject |} (compilation t))) t.

Definition exportsOf (t : TranspiledModule) : JsValue :=
  match compilation t with
  | Some c => exports c
  | None => VPrim PUndefined
  end.

(** The part of [evaluate] that runs the unit: from the initialisation of
    [this.compilation] to the end of the [try ... catch]. *)
Definition evaluateUnit (C : Collaborators)
  (evalRec : ref → list ref → World → option (Outcome JsValue * World))
  (n : ref) (src : ModuleSource) (localModule : ModuleRec) (parentModules : list ref)
  (w : World) : option (Outcome JsValue * World) :=
  let w1 := upd n initCompilation w in
  match
    runUnit C evalRec n localModule parentModules (unitOf C (compiledCode src))
      (logEvaluator n w1)
  with
  | None => None
  | Some (Threw e, w2) => Some (Threw (tagTModule n e), w2)
  | Some (Returned _, w2) =>
      match hmrEnabled (node w2 n) with
      | HmrCallback cb =>
          let w3 := logCallback n (cbName cb) w2 in
          match cbThrows cb with
          | Some e => Some (Threw (tagTModule n e), w3)
          | None => Some (Returned (exportsOf (node w2 n)), w3)
          end
      | _ => Some (Returned (exportsOf (node w2 n)), w2)
      end
  end.

(** [if (!this.compilation && this.isEntry && !this.hmrEnabled)] under
    [if (manager.webpackHMR)] *)
Definition mustReload (w : World) (n : ref) : bool :=
  webpackHMR w && negb (hasCompilation w n) && isEntry (node w n)
  && hmrOff (hmrEnabled (node w n)).

(** [evaluate(manager, parentModules)]. [manager.evaluateTranspiledModule(t,
    parents)] is taken to be [t.evaluate(manager, parents)]. *)
Fixpoint evaluate (C : Collaborators) (fuel : nat) (n : ref) (parentModules : list ref)
  (w : World) : option (Outcome JsValue * World) :=
  match fuel with
  | 0 => None
  | S f =>
      let this := node w n in
      match source this with
      | None =>
          Some (Threw (Error (path (module this) +:+ " hasn't been transpiled yet.")), w)
      | Some src =>
          let localModule := module this in
          if mustReload w n then Some (Returned emptyObject, logReload n w)
          else
            match compilation this, changed this with
            | Some c, false => Some (Returned (exports c), w)
            | _, _ => evaluateUnit C (evaluate C f) n src localModule parentModules w
            end
      end
  end.

(** ** [serialize()] and [load(data, state)] *)

Record SerializedTranspiledModule := {
  s_module : ModuleRec;
  s_query : string;
  s_source : option ModuleSource;
  s_assets : option (list (string * ModuleSource));
  s_isEntry : bool;
  s_childModules : list string;
  s_emittedAssets : option (list ModuleSource);
  s_initiators : list string;
  s_dependencies : list string;
  s_asyncDependencies : list string;
  s_transpilationDependencies : list string;
  s_transpilationInitiators : list string;
}.

(** A reaction registered with [promise.then(x => ...)] and queued for a later
    turn of the job queue: it never runs inside the call that registers it. *)
Inductive Microtask :=
| PushIdOf (x : ref).

Definition idsOf (w : World) (ts : list ref) : list string := (λ t, getId (node w t)) <$> ts.

(** The reactions that [serialize] registers: one per promise that is
    fulfilled; a rejected or unsettled promise never runs its reaction. *)
Definition thenReactions (ps : list Promise) : list Microtask :=
  omap (λ p, match p with Fulfilled x => Some (PushIdOf x) | _ => None end) ps.

(** [serialize()]: the record as it is when the call returns, and the
    reactions it has left in the job queue. The reactions write to the
    [asyncDependencies] array of that same record. *)
Definition serialize (w : World) (n : ref) : SerializedTranspiledModule * list Microtask :=
  let this := node w n in
  ({| s_module := module this;
      s_query := query this;
      s_source := source this;
      s_assets := assets this;
      s_isEntry := isEntry this;
      s_childModules := idsOf w (childModules this);
      s_emittedAssets := emittedAssets this;
      s_initiators := idsOf w (initiators this);
      s_dependencies := idsOf w (dependencies this);
      s_asyncDependencies := [];
      s_transpilationDependencies := idsOf w (transpilationDependencies this);
      s_transpilationInitiators := idsOf w (transpilationInitiators this) |},
   thenReactions (asyncDependencies this)).

(** [serializableObject.asyncDependencies.push(x.getId())], run from the job
    queue on the record that [serialize] returned. *)
Definition runMicrotask (w : World) (job : Microtask) (o : SerializedTranspiledModule)
  : SerializedTranspiledModule :=
  match job with
  | PushIdOf x =>
      {| s_module := s_module o; s_query := s_query o; s_source := s_source o;
         s_assets := s_assets o; s_isEntry := s_isEntry o;
         s_childModules := s_childModules o; s_emittedAssets := s_emittedAssets o;
         s_initiators := s_initiators o; s_dependencies := s_dependencies o;
         s_asyncDependencies := s_asyncDependencies o ++ [getId (node w x)];
         s_transpilationDependencies := s_transpilationDependencies o;
         s_transpilationInitiators := s_transpilationInitiators o |}
  end.

Definition drainMicrotasks (w : World) (jobs : list Microtask)
  (o : SerializedTranspiledModule) : SerializedTranspiledModule :=
  foldl (λ acc job, runMicrotask w job acc) o jobs.

(** [state[depId]] for every id of a list. The source puts [undefined] in the
    set when an id is unknown, and every later walk over that set dereferences
    it; the embedding has no such member, and [load] is defined on the data
    whose ids are all known. *)
Definition lookupAll (state : gmap string ref) (ids : list string) : option (list ref) :=
  mapM (λ i, state !! i) ids.

(** [load(data, state)]. *)
Definition load (n : ref) (data : SerializedTranspiledModule) (state : gmap string ref)
  (w : World) : option World :=
  let w1 :=
    upd n (λ t, setSource (s_source data) (setIsEntry (s_isEntry data)
             (setEmittedAssets (s_emittedAssets data) (setModule (s_module data)
                (setAssets (s_assets data) (setQuery (s_query data) t)))))) w in
  match lookupAll state (s_dependencies data), lookupAll state (s_childModules data),
        lookupAll state (s_initiators data),
        lookupAll state (s_transpilationDependencies data),
        lookupAll state (s_asyncDependencies data) with
  | Some deps, Some children, Some inits, Some tdeps, Some adeps =>
      Some (upd n (λ t,
        setAsyncDependencies (asyncDependencies t ++ (Fulfilled <$> adeps))
          (setTranspilationDependencies (foldl (λ s x, set_add x s) (transpilationDependencies t) tdeps)
            (setInitiators (foldl (λ s x, set_add x s) (initiators t) inits)
              (setChildModules (childModules t ++ children)
                (setDependencies (foldl (λ s x, set_add x s) (dependencies t) deps) t))))) w1)
  | _, _, _, _, _ => None
  end.

(** ** The serialized graph *)

(** Modelled from the spec: [serialize(graph)] of [./eval/manager]:
    "[{ byId: { [id]: serializedNode } }]", each node of the manager's table
    serialized by [serialize()], the record taken as the call returns it. *)
Definition serializeGraph (w : World) : gmap string SerializedTranspiledModule :=
  (λ r, (serialize w r).1) <$> transpiledModules w.

(** Modelled from the spec: the first pass of [deserialize(blob, graph)] of
    [./eval/manager]: "create empty nodes for every id". *)
Definition createNode (acc : World) (entry : string * SerializedTranspiledModule) : World :=
  let r := fresh (dom (heap acc)) in
  setTable (<[entry.1 := r]> (transpiledModules acc))
    (setHeap (<[r := newTranspiledModule (s_module entry.2) (s_query entry.2)]> (heap acc)) acc).

(** Modelled from the spec: [deserialize(blob, graph)] of [./eval/manager]:
    "create empty nodes for every id, then populate edges by id lookup", the
    second pass being [load(data, state)] on every node with the table of the
    first pass as [state]. *)
Definition deserialize (blob : gmap string SerializedTranspiledModule) (w : World)
  : option World :=
  let entries := map_to_list blob in
  let w1 := foldl createNode w entries in
  forEachM
    (λ entry acc,
       match transpiledModules w1 !! entry.1 with
       | Some r => load r entry.2 (transpiledModules w1) acc
       | None => None
       end)
    entries w1.

(** ** The compile-request queue of [compile.js] *)

(** The [Arguments] of a compile request. *)
Record Arguments := {
  sandboxId : string;
  argModules : list ModuleRec;
  entry : string;
  externalResources : list string;
  argDependencies : list (string * string);
  hasActions : bool;
  template : string;
}.

(** The module-level state, [tasks] and [runningTask], with the calls of
    [compile] that have been started and have not settled ([compiling]) and
    every task handed to [compile] so far ([started]). *)
Record Queue := {
  tasks : list Arguments;
  runningTask : bool;
  compiling : list Arguments;
  started : list Arguments;
}.

Definition initialQueue : Queue :=
  {| tasks := []; runningTask := false; compiling := []; started := [] |}.

(** [executeTaskIfAvailable()] up to its [await compile(task)]: [tasks.pop()]
    takes the last element. *)
Definition executeTaskIfAvailable (q : Queue) : Queue :=
  match rev (tasks q) with
  | [] => q
  | task :: before =>
      {| tasks := rev before; runningTask := true;
         compiling := compiling q ++ [task]; started := started q ++ [task] |}
  end.

(** [tasks[0] = data]: an assignment past the end of an array extends it. *)
Definition assignFirst (data : Arguments) (ts : list Arguments) : list Arguments :=
  match ts with
  | [] => [data]
  | _ :: rest => data :: rest
  end.

(** [queueTask(data)] *)
Definition queueTask (data : Arguments) (q : Queue) : Queue :=
  let q1 :=
    {| tasks := assignFirst data (tasks q); runningTask := runningTask q;
       compiling := compiling q; started := started q |} in
  if runningTask q1 then q1 else executeTaskIfAvailable q1.

(** What happens to the queue: a request arrives, or the awaited [compile]
    settles (it resolves, or it rejects). *)
Inductive Event :=
| Queued (data : Arguments)
| CompileResolved
| CompileRejected.

(** The rest of [executeTaskIfAvailable()] after its [await]: on a resolved
    [compile], [runningTask = false] and the next call of
    [executeTaskIfAvailable()]; on a rejected one the function is left at the
    [await]. [None]: no call of [compile] is awaited. *)
Definition step (ev : Event) (q : Queue) : option Queue :=
  match ev with
  | Queued data => Some (queueTask data q)
  | CompileResolved =>
      match compiling q with
      | [] => None
      | _ :: others =>
          Some (executeTaskIfAvailable
                  {| tasks := tasks q; runningTask := false;
                     compiling := others; started := started q |})
      end
  | CompileRejected =>
      match compiling q with
      | [] => None
      | _ :: others =>
          Some {| tasks := tasks q; runningTask := runningTask q;
                  compiling := others; started := started q |}
      end
  end.

Fixpoint run (evs : list Event) (q : Queue) : option Queue :=
  match evs with
  | [] => Some q
  | ev :: rest =>
      match step ev q with
      | Some q1 => run rest q1
      | None => None
      end
  end.

(** The states the queue can be in. *)
Definition reachable (q : Queue) : Prop := ∃ evs, run evs initialQueue = Some q.

(** The queue holds at most one pending task and awaits at most one
    [compile]; while [runningTask] is unset nothing is pending or awaited. *)
Definition oneSlot (q : Queue) : Prop :=
  length (tasks q) ≤ 1 ∧ length (compiling q) ≤ 1
  ∧ (runningTask q = false → tasks q = [] ∧ compiling q = []).

(** Three requests for the examples. *)
Definition request (e : string) : Arguments :=
  {| sandboxId := "sandbox"; argModules := []; entry := e; externalResources := [];
     argDependencies := []; hasActions := false; template := "create-react-app" |}.

(** ** The invariants of the data model *)



(** No node of the graph accepts hot updates. *)
Definition hmrFree (w : World) : Prop := ∀ r, hmrEnabled (node w r) = HmrUnset.

(** A field that a call leaves as it was, on every node. *)
Definition keeps {A : Type} (π : TranspiledModule → A) (w w' : World) : Prop :=
  ∀ r, π (node w' r) = π (node w r).

(** ** The public operations on a node, as one type *)

Inductive Operation :=
| OpTranspile (n : ref)
| OpEvaluate (n : ref) (parentModules : list ref)
| OpReset (n : ref)
| OpResetTranspilation (n : ref)
| OpResetCompilation (n : ref)
| OpUpdate (n : ref) (m : ModuleRec)
| OpEmitModule (n : ref) (p c : string) (directoryPath : option string)
| OpAddDependency (n : ref) (depPath : string) (isAbsolute : bool)
| OpAddTranspilationDependency (n : ref) (depPath : string) (isAbsolute : bool)
| OpAddDependenciesInDirectory (n : ref) (folderPath : string) (isAbsolute : bool).

Definition completed (r : option World) : option (Outcome unit * World) :=
  match r with
  | Some w => Some (Returned tt, w)
  | None => None
  end.

Definition forget {A : Type} (r : option (Outcome A * World)) : option (Outcome unit * World) :=
  match r with
  | Some (Returned _, w) => Some (Returned tt, w)
  | Some (Threw e, w) => Some (Threw e, w)
  | None => None
  end.

(** The graph after the call has returned or thrown, with how it ended. *)
Definition perform (C : Collaborators) (fuel : nat) (op : Operation) (w : World)
  : option (Outcome unit * World) :=
  match op with
  | OpTranspile n => transpile C fuel n w
  | OpEvaluate n parentModules => forget (evaluate C fuel n parentModules w)
  | OpReset n => completed (reset fuel n w)
  | OpResetTranspilation n => completed (resetTranspilation fuel n w)
  | OpResetCompilation n => completed (resetCompilation fuel n w)
  | OpUpdate n m => completed (update fuel n m w)
  | OpEmitModule n p c d => Some (Returned tt, (emitModule C n p c d w).2)
  | OpAddDependency n depPath abs => Some (Returned tt, (addDependency C n depPath abs w).2)
  | OpAddTranspilationDependency n depPath abs =>
      forget (Some (addTranspilationDependency C n depPath abs w))
  | OpAddDependenciesInDirectory n folder abs =>
      Some (Returned tt, (addDependenciesInDirectory C n folder abs w).2)
  end.


(** The writes that a transpile walk makes to the graph, one at a time, the
    reset of its [catch] block apart. *)
Inductive transpileStep (C : Collaborators) : World → World → Prop :=
| step_clear n w : transpileStep C w (clearForTranspile n w)
| step_logTranspiler n name w : transpileStep C w (logTranspiler n name w)
| step_logWarnings ws w : transpileStep C w (logWarnings ws w)
| step_emitWarning n wr w : transpileStep C w (emitWarning n wr w)
| step_emitError n e w : transpileStep C w (emitError n e w)
| step_emitModule n p c d w : transpileStep C w (emitModule C n p c d w).2
| step_emitFile n name content sm w : transpileStep C w (emitFile n name content sm w).2
| step_addTranspilationDependency n depPath abs w :
    transpileStep C w (addTranspilationDependency C n depPath abs w).2
| step_addDependency n depPath abs w :
    transpileStep C w (addDependency C n depPath abs w).2
| step_addDependenciesInDirectory n folder abs w :
    transpileStep C w (addDependenciesInDirectory C n folder abs w).2
| step_setSource n src w : transpileStep C w (upd n (setSource (Some src)) w)
| step_linkAsync n t w : transpileStep C w (linkDependency n t w)
| step_clearAsync n w : transpileStep C w (upd n (setAsyncDependencies []) w).

(** How a transpile walk ends: after a number of writes, or after a number of
    writes and one reset of a node's transpilation. *)
Definition transpileTrace {A : Type} (C : Collaborators) (w : World) (o : Outcome A)
  (w' : World) : Prop :=
  match o with
  | Returned _ => rtc (transpileStep C) w w'
  | Threw _ =>
      ∃ w1 fuel m, rtc (transpileStep C) w w1 ∧ resetTranspilation fuel m w1 = Some w'
  end.

(** Fields that the prologue of [transpile] and the loader context do not
    write, and that a node created by the manager holds as a blank node does. *)
Definition notLinkState {A : Type} (π : TranspiledModule → A) : Prop :=
  (∀ v t, π (setWarnings v t) = π t) ∧ (∀ v t, π (setErrors v t) = π t)
  ∧ (∀ v t, π (setDependencies v t) = π t) ∧ (∀ v t, π (setInitiators v t) = π t)
  ∧ (∀ v t, π (setChildModules v t) = π t) ∧ (∀ v t, π (setAssets v t) = π t)
  ∧ (∀ v t, π (setTranspilationDependencies v t) = π t)
  ∧ (∀ v t, π (setTranspilationInitiators v t) = π t)
  ∧ (∀ v t, π (setAsyncDependencies v t) = π t)
  ∧ (∀ m q, π (newTranspiledModule m q) = π (newTranspiledModule blankModule "")).

(** Fields that no write of a transpile walk touches. *)
Definition notTranspileState {A : Type} (π : TranspiledModule → A) : Prop :=
  notLinkState π ∧ (∀ v t, π (setSource v t) = π t).

(** A source, once stored, stays. *)
Definition sourcesStay (w w' : World) : Prop :=
  ∀ r, source (node w r) ≠ None → source (node w' r) ≠ None.

(** The writes that an evaluation makes, one at a time. A page reload is
    requested for a node without compilation only; a compilation is
    initialised on a transpiled node only. *)
Inductive evaluateStep (C : Collaborators) : World → World → Prop :=
| estep_reload n w : compilation (node w n) = None → evaluateStep C w (logReload n w)
| estep_initCompilation n w :
    source (node w n) ≠ None → evaluateStep C w (upd n initCompilation w)
| estep_logEvaluator n w : evaluateStep C w (logEvaluator n w)
| estep_writeExports n f w : evaluateStep C w (upd n (writeExports f) w)
| estep_resolve p from w : evaluateStep C w (resolveTranspiledModule C p from w).2
| estep_accept n p cb w : evaluateStep C w (accept C n p cb w).2
| estep_logCallback n name w : evaluateStep C w (logCallback n name w).

(** Fields that an evaluation does not write, and that a node created by the
    manager holds as a blank node does. *)
Definition notEvaluationState {A : Type} (π : TranspiledModule → A) : Prop :=
  (∀ v t, π (setCompilation v t) = π t) ∧ (∀ v t, π (setHmrEnabled v t) = π t)
  ∧ (∀ m q, π (newTranspiledModule m q) = π (newTranspiledModule blankModule "")).

(** A compilation, once set, stays. *)
Definition compilationsStay (w w' : World) : Prop :=
  ∀ r, compilation (node w r) ≠ None → compilation (node w' r) ≠ None.

(** The nodes of [l] that are transpiled and not yet compiled: what an
    evaluation may still have to run. *)
Definition pending (l : list ref) (w : World) : nat :=
  length (filter (λ r, hasSource w r = true ∧ hasCompilation w r = false) l).

(** A graph in which no node is marked [changed] and every transpiled node is
    one of [l]. *)
Definition settled (l : list ref) (w : World) : Prop :=
  (∀ r, changed (node w r) = false) ∧ (∀ r, source (node w r) ≠ None → r ∈ l).

(** Fields that [reset] does not write. *)
Definition notResetState {A : Type} (π : TranspiledModule → A) : Prop :=
  (∀ v t, π (setChildModules v t) = π t) ∧ (∀ v t, π (setEmittedAssets v t) = π t)
  ∧ (∀ v t, π (setIsEntry v t) = π t) ∧ (∀ v t, π (setCompilation v t) = π t)
  ∧ (∀ v t, π (setChanged v t) = π t) ∧ (∀ v t, π (setSource v t) = π t)
  ∧ (∀ v t, π (setErrors v t) = π t) ∧ (∀ v t, π (setWarnings v t) = π t)
  ∧ (∀ v t, π (setInitiators v t) = π t) ∧ (∀ v t, π (setDependencies v t) = π t)
  ∧ (∀ v t, π (setAsyncDependencies v t) = π t).



(** Fields that [resetTranspilation] does not write. *)
Definition notTranspilationState {A : Type} (π : TranspiledModule → A) : Prop :=
  (∀ v t, π (setSource v t) = π t) ∧ (∀ v t, π (setErrors v t) = π t)
  ∧ (∀ v t, π (setWarnings v t) = π t) ∧ (∀ v t, π (setInitiators v t) = π t)
  ∧ (∀ v t, π (setDependencies v t) = π t)
  ∧ (∀ v t, π (setAsyncDependencies v t) = π t).

(** Fields that [resetCompilation] does not write. *)
Definition notCompilationState {A : Type} (π : TranspiledModule → A) : Prop :=
  (∀ v t, π (setCompilation v t) = π t) ∧ (∀ v t, π (setChanged v t) = π t).

Arguments node : simpl never.
Arguments upd : simpl never.
Arguments unlinkAll : simpl never.
Arguments clearForTranspile : simpl never.

(** ** Example graphs *)

(** A store holding the given nodes, registered in the manager's table under
    their ids. *)
Definition worldOf (nodes : list (ref * TranspiledModule)) : World :=
  {| heap := list_to_map nodes;
     transpiledModules := list_to_map ((λ rt, (getId rt.2, rt.1)) <$> nodes);
     modules := (λ rt, module rt.2) <$> nodes;
     webpackHMR := false; transpilerCalls := []; evaluatorCalls := []; reloads := [];
     shownWarnings := []; callbackCalls := [] |}.

(** Two files that require each other (scenario S3 of the specification),
    and a file that does not parse. *)
Definition fileA : ModuleRec :=
  {| path := "/a.js"; code := "exports.a=1; exports.b=require('./b').b"; requires := None |}.
Definition fileB : ModuleRec :=
  {| path := "/b.js"; code := "exports.b=2; exports.a=require('./a').a"; requires := None |}.
Definition fileBroken : ModuleRec :=
  {| path := "/broken.js"; code := "exports.x = ("; requires := None |}.

Definition fileThrows : ModuleRec :=
  {| path := "/c.js"; code := "exports.x=1; throw new Error('boom')"; requires := None |}.

Definition notFound (p : string) : JsError :=
  {| message := "Cannot find module " +:+ p; errType := "module-not-found";
     isDependency := false; errPath := p; fileName := None; tModule := None |}.

Definition syntaxError : JsError := Error "Unexpected token".

(** A transformer that leaves the code as it is and registers what the code
    requires; it rejects the file that does not parse. *)
Definition demoTranspiler : TranspilerConfig :=
  {| transpilerName := "babel";
     transpilerRun := λ c _,
       if String.eqb c (code fileA) then CallAddDependency "./b" false (λ _, Resolve c None)
       else if String.eqb c (code fileB) then
         CallAddDependency "./a" false (λ _, Resolve c None)
       else if String.eqb c (code fileBroken) then Reject syntaxError
       else Resolve c None;
     cacheable := true |}.

Definition propertyOf (key : string) (v : JsValue) : JsPrimitive :=
  match v with
  | VObj fields => default PUndefined (snd <$> List.find (λ kv, String.eqb kv.1 key) fields)
  | VPrim _ => PUndefined
  end.

(** [exports.k1 = v; exports.k2 = require(dep).k2] *)
Definition demoUnit (k1 : string) (v : Z) (dep k2 : string) : UnitRun :=
  SetExport k1 (PNum v)
    (Require dep (λ r,
       match r with
       | Returned e => SetExport k2 (propertyOf k2 e) Finish
       | Threw err => Raise err
       end)).

Definition demo : Collaborators :=
  {| getLoaders := λ _ _, [demoTranspiler];
     getAliasedPath := λ p, p;
     resolveModule := λ _ p _,
       if String.eqb p "./a" then ResolvedTo fileA ""
       else if String.eqb p "./b" then ResolvedTo fileB ""
       else if String.eqb p "./c" then ResolvedTo fileThrows ""
       else ResolveFails (notFound p);
     inDirectory := λ _ _ _, false;
     downloadDependency := λ _ _, Pending;
     resolveDependency := λ p, Threw (notFound p);
     unitOf := λ c,
       if String.prefix (code fileA) c then demoUnit "a" 1 "./b" "b"
       else if String.prefix (code fileB) c then demoUnit "b" 2 "./a" "a"
       else if String.prefix (code fileThrows) c then
         SetExport "x" (PNum 1) (Raise (Error "boom"))
       else Finish;
     dirname := λ _, "/";
     join := λ d p, d +:+ p;
     origin := "https://sandbox.test" |}.

(** The manager after [updateData] on the two files: node 0 for [/a.js], node
    1 for [/b.js], nothing transpiled yet. *)
Definition freshGraph : World :=
  worldOf [(0, newTranspiledModule fileA ""); (1, newTranspiledModule fileB "")].

(** The same graph once [/a.js] has been transpiled with its dependencies. *)
Definition transpiledGraph : World :=
  match transpile demo 3 0 freshGraph with
  | Some (_, w) => w
  | None => freshGraph
  end.

(** ... and evaluated. *)
Definition evaluatedGraph : World :=
  match evaluate demo 3 0 [] transpiledGraph with
  | Some (_, w) => w
  | None => transpiledGraph
  end.

(** The evaluated graph after [resetTranspilation()] on node 0: its source is
    gone, its compilation is not. *)
Definition staleGraph : World :=
  match resetTranspilation 2 0 evaluatedGraph with
  | Some w => w
  | None => evaluatedGraph
  end.

(** The fresh graph with node 0 marked as entry, in a manager whose HMR flag
    is set. *)
Definition hmrFreshGraph : World :=
  setWebpackHMR true (upd 0 (setIsEntry true) freshGraph).

(** The transpiled graph with node 0 marked as entry, in a manager whose HMR
    flag is set. *)
Definition hmrTranspiledGraph : World :=
  setWebpackHMR true (upd 0 (setIsEntry true) transpiledGraph).


(** A graph of one file that does not parse. *)
Definition brokenGraph : World := worldOf [(0, newTranspiledModule fileBroken "")].

(** The evaluated graph after [/a.js] has called [module.hot.accept()]. *)
Definition acceptingGraph : World :=
  setWebpackHMR true (upd 0 (setHmrEnabled HmrTrue) evaluatedGraph).




(** The fresh graph after the loader context of [/a.js] has added [/b.js] as
    a transpilation dependency, its serialized form, and the graph that a new
    manager restores from it. *)
Definition linkedGraph : World :=
  (addTranspilationDependency demo 0 "./b" false freshGraph).2.

Definition restoredGraph : World :=
  match deserialize (serializeGraph linkedGraph) emptyWorld with
  | Some w => w
  | None => emptyWorld
  end.

(** The node that a graph's table holds under an id. *)
Definition nodeById (w : World) (id : string) : TranspiledModule :=
  node w (default 0 (transpiledModules w !! id)).

(** The transpiled graph with three downloads registered on [/a.js]: one that
    has resolved to [/b.js], one that was rejected, one that is not settled. *)
Definition downloadingGraph : World :=
  upd 0 (setAsyncDependencies [Fulfilled 1; Rejected (notFound "left-pad"); Pending])
    transpiledGraph.

(** The graph of the file that does not parse, after the failed transpile. *)
Definition afterBrokenTranspile : World :=
  match transpile demo 2 0 brokenGraph with
  | Some (_, w) => w
  | None => brokenGraph
  end.

(** A ranking of the nodes under which every transpiled transpilation
    initiator ranks below the node it depends on: the walk of
    [resetTranspilation] then goes down the ranks. *)
Definition rankedInitiators (rank : ref → nat) (w : World) : Prop :=
  ∀ a b, b ∈ transpilationInitiators (node w a) → source (node w b) ≠ None →
         rank b < rank a.
(** ** More of the source: definitions *)

(** The requests among the events of the queue, in order of arrival. *)
Definition requestsOf (evs : list Event) : list Arguments :=
  omap (λ ev, match ev with Queued data => Some data | _ => None end) evs.

(** A set [S] of nodes that are transpiled, do not accept hot updates, and
    each have a transpilation initiator in [S]: the nodes of a cycle of
    transpilation dependencies (two files that include each other), or any
    node from which such a cycle is reached. *)
Definition initiatorCycle (S : ref → Prop) (w : World) : Prop :=
  ∀ s, S s →
    hmrEnabled (node w s) = HmrUnset ∧ source (node w s) ≠ None
    ∧ ∃ s', S s' ∧ s' ∈ transpilationInitiators (node w s).

(** The nodes whose transpiled code was made from the content of [n]: [n]
    itself, its transpilation initiators, and the transpilation initiators of
    every transpiled node among these. *)
Inductive transpiledFrom (w : World) (n : ref) : ref → Prop :=
| transpiledFrom_self : transpiledFrom w n n
| transpiledFrom_step x y :
    transpiledFrom w n x → x = n ∨ source (node w x) ≠ None →
    y ∈ transpilationInitiators (node w x) → transpiledFrom w n y.

(** The source that [transpile] stores for a module that the transformers
    leave as it is. *)
Definition plainSource (m : ModuleRec) : ModuleSource :=
  {| srcFileName := path m; compiledCode := sourceURL demo (code m) (path m);
     sourceMap := None |}.

(** [/a.js] and [/b.js], both transpiled, where the loader of [/a.js] has
    included the content of [/b.js]
    ([addTranspilationDependency('./b')]). *)
Definition includingGraph : World :=
  worldOf
    [(0, setTranspilationDependencies [1]
           (setSource (Some (plainSource fileA)) (newTranspiledModule fileA "")));
     (1, setTranspilationInitiators [0]
           (setSource (Some (plainSource fileB)) (newTranspiledModule fileB "")))].

(** The same, with [/b.js] including [/a.js] as well. *)
Definition mutualGraph : World :=
  worldOf
    [(0, setTranspilationInitiators [1] (setTranspilationDependencies [1]
           (setSource (Some (plainSource fileA)) (newTranspiledModule fileA ""))));
     (1, setTranspilationInitiators [0] (setTranspilationDependencies [0]
           (setSource (Some (plainSource fileB)) (newTranspiledModule fileB ""))))].

(** The including graph after [resetTranspilation()] of [/b.js]. *)
Definition afterIncludedReset : World :=
  match resetTranspilation 2 1 includingGraph with
  | Some w => w
  | None => includingGraph
  end.

(** How many nodes of [l] hold a cached evaluation. *)
Definition compiledAmong (l : list ref) (w : World) : nat :=
  length (filter (λ r, hasCompilation w r = true) l).

(** The nodes whose cached evaluation was made with the exports of [n]: [n]
    itself, its transpilation initiators, and the initiators and
    transpilation initiators of every evaluated node among these. *)
Inductive evaluatedFrom (w : World) (n : ref) : ref → Prop :=
| evaluatedFrom_self : evaluatedFrom w n n
| evaluatedFrom_included y :
    y ∈ transpilationInitiators (node w n) → evaluatedFrom w n y
| evaluatedFrom_step x y :
    evaluatedFrom w n x → compilation (node w x) ≠ None →
    y ∈ initiators (node w x) ∨ y ∈ transpilationInitiators (node w x) →
    evaluatedFrom w n y.

(** The evaluated graph of the two files after [resetCompilation()] of
    [/b.js]. *)
Definition afterCacheReset : World :=
  match resetCompilation 4 1 evaluatedGraph with
  | Some w => w
  | None => evaluatedGraph
  end.

(** The nodes emitted by the loaders of [n], and by the loaders of the nodes
    they emitted: [n] and its descendants along [childModules]. *)
Inductive emittedFrom (w : World) (n : ref) : ref → Prop :=
| emittedFrom_self : emittedFrom w n n
| emittedFrom_step x y :
    emittedFrom w n x → y ∈ childModules (node w x) → emittedFrom w n y.

(** What [reset] leaves of a node: no source, no children, no emitted assets,
    not an entry and, unless the node accepts hot updates, no cached
    evaluation. *)
Definition resetState (t : TranspiledModule) : Prop :=
  source t = None ∧ childModules t = [] ∧ emittedAssets t = Some []
  ∧ isEntry t = false ∧ (hmrEnabled t = HmrUnset → compilation t = None).

(** What the walk of [reset] does to a node, at most: it removes what
    [resetState] lists and restores none of it. *)
Definition towardsReset (t t' : TranspiledModule) : Prop :=
  (source t = None → source t' = None)
  ∧ (childModules t' = childModules t ∨ childModules t' = [])
  ∧ (emittedAssets t = Some [] → emittedAssets t' = Some [])
  ∧ (isEntry t = false → isEntry t' = false)
  ∧ (compilation t = None → compilation t' = None)
  ∧ hmrEnabled t' = hmrEnabled t.

(** The fresh graph after the loader of [/a.js] has emitted a style sheet
    ([emitModule('css-loader!./a.css', code)]), and that graph after
    [reset()] of [/a.js]. *)
Definition emittingGraph : World :=
  (emitModule demo 0 "css-loader!./a.css" "body { margin: 0 }" None freshGraph).2.

Definition afterEmitterReset : World :=
  match reset 3 0 emittingGraph with
  | Some w => w
  | None => emittingGraph
  end.

(** A ranking of the nodes under which every emitted node ranks below the
    node whose loader emitted it: [childModules] has no cycle. *)
Definition rankedChildren (rank : ref → nat) (w : World) : Prop :=
  ∀ x y, y ∈ childModules (node w x) → rank y < rank x.

(** The accepting graph after [resetCompilation()] of [/a.js], which marks
    the accepting node as changed, and that graph after [/a.js] has been
    evaluated again. *)
Definition changedGraph : World :=
  match resetCompilation 2 0 acceptingGraph with
  | Some w => w
  | None => acceptingGraph
  end.

Definition reevaluatedGraph : World :=
  match evaluate demo 3 0 [] changedGraph with
  | Some (_, w) => w
  | None => changedGraph
  end.

(** The nodes that the fulfilled promises of a list hold. *)
Definition settledTargets (ps : list Promise) : list ref :=
  omap (λ p, match p with Fulfilled x => Some x | _ => None end) ps.

(** The record that [serialize()] has returned, read after the job queue has
    run the reactions that the call left. *)
Definition savedRecord (w : World) (n : ref) : SerializedTranspiledModule :=
  drainMicrotasks w (serialize w n).2 (serialize w n).1.

(** The nodes that the record of a node names by id. *)
Definition namedBy (t : TranspiledModule) : list ref :=
  dependencies t ++ childModules t ++ initiators t ++ transpilationDependencies t
  ++ settledTargets (asyncDependencies t).

(** Three style sheets: [/a.scss] imports [/b.scss] and [/broken.scss],
    [/b.scss] imports [/a.scss], and [/broken.scss] does not parse. *)
Definition styleA : ModuleRec :=
  {| path := "/a.scss"; code := "@import './b'; @import './broken';"; requires := None |}.
Definition styleB : ModuleRec :=
  {| path := "/b.scss"; code := "@import './a';"; requires := None |}.
Definition styleBroken : ModuleRec :=
  {| path := "/broken.scss"; code := ".x {"; requires := None |}.

(** A transformer that includes the content of what a style sheet imports,
    and so registers each import with [addTranspilationDependency]; it
    rejects the style sheet that does not parse. *)
Definition includeTranspiler : TranspilerConfig :=
  {| transpilerName := "sass";
     transpilerRun := λ c _,
       if String.eqb c (code styleA) then
         CallAddTranspilationDependency "./b" false (λ _,
           CallAddTranspilationDependency "./broken" false (λ _, Resolve c None))
       else if String.eqb c (code styleB) then
         CallAddTranspilationDependency "./a" false (λ _, Resolve c None)
       else if String.eqb c (code styleBroken) then Reject syntaxError
       else Resolve c None;
     cacheable := true |}.

Definition includeDemo : Collaborators :=
  {| getLoaders := λ _ _, [includeTranspiler];
     getAliasedPath := λ p, p;
     resolveModule := λ _ p _,
       if String.eqb p "./a" then ResolvedTo styleA ""
       else if String.eqb p "./b" then ResolvedTo styleB ""
       else if String.eqb p "./broken" then ResolvedTo styleBroken ""
       else ResolveFails (notFound p);
     inDirectory := λ _ _ _, false;
     downloadDependency := λ _ _, Pending;
     resolveDependency := λ p, Threw (notFound p);
     unitOf := λ _, Finish;
     dirname := λ _, "/";
     join := λ d p, d +:+ p;
     origin := "https://sandbox.test" |}.

(** The manager after [updateData] on the three style sheets (nodes 0, 1 and
    2), that graph after [transpile] of [/a.scss], and then of [/b.scss]. *)
Definition importGraph : World :=
  worldOf [(0, newTranspiledModule styleA ""); (1, newTranspiledModule styleB "");
           (2, newTranspiledModule styleBroken "")].

Definition afterFirstImport : World :=
  match transpile includeDemo 2 0 importGraph with
  | Some (_, w) => w
  | None => importGraph
  end.

Definition cyclicImportGraph : World :=
  match transpile includeDemo 2 1 afterFirstImport with
  | Some (_, w) => w
  | None => afterFirstImport
  end.

(** The graph in which the [catch] block of [transpile] of [/broken.scss]
    starts: the transformer has been invoked and has rejected. *)
Definition failedImport : World :=
  (tryTranspiler includeDemo 2 includeTranspiler (code styleBroken)
     (clearForTranspile 2 cyclicImportGraph)).2.


(** * The store *)

Section StoreFacts.

Implicit Types (w : World) (r n : ref) (f : TranspiledModule → TranspiledModule).

Lemma node_upd r f w r' :
  node (upd r f w) r' = if decide (r = r') then f (node w r) else node w r'.
Proof.
  unfold node, upd, setHeap; simpl. case_decide as Heq.
  - subst. apply lookup_total_insert_eq.
  - by apply lookup_total_insert_ne.
Qed.

Lemma node_upd_eq r f w : node (upd r f w) r = f (node w r).
Proof. rewrite node_upd. by case_decide. Qed.

Lemma node_upd_ne r r' f w : r ≠ r' → node (upd r f w) r' = node w r'.
Proof. intros. rewrite node_upd. by case_decide. Qed.

Lemma node_setTable tb w r : node (setTable tb w) r = node w r.
Proof. reflexivity. Qed.
Lemma node_setWebpackHMR b w r : node (setWebpackHMR b w) r = node w r.
Proof. reflexivity. Qed.
Lemma node_logEvaluator n w r : node (logEvaluator n w) r = node w r.
Proof. reflexivity. Qed.
Lemma node_logReload n w r : node (logReload n w) r = node w r.
Proof. reflexivity. Qed.
Lemma node_logWarnings ws w r : node (logWarnings ws w) r = node w r.
Proof. reflexivity. Qed.
Lemma node_logCallback n s w r : node (logCallback n s w) r = node w r.
Proof. reflexivity. Qed.

(** A reference outside the store reads as a blank node. *)
Lemma node_fresh w : node w (fresh (dom (heap w))) = newTranspiledModule blankModule "".
Proof.
  unfold node. rewrite lookup_total_alt.
  rewrite (not_elem_of_dom_1 (heap w)) by apply is_fresh. reflexivity.
Qed.



Lemma keeps_refl {A} (π : TranspiledModule → A) w : keeps π w w.
Proof. by intros r. Qed.

Lemma keeps_trans {A} (π : TranspiledModule → A) w1 w2 w3 :
  keeps π w1 w2 → keeps π w2 w3 → keeps π w1 w3.
Proof. intros H1 H2 r. by rewrite H2, H1. Qed.

Lemma keeps_upd {A} (π : TranspiledModule → A) r f w :
  (∀ t, π (f t) = π t) → keeps π w (upd r f w).
Proof. intros Hf r'. rewrite node_upd. case_decide; [subst; apply Hf | reflexivity]. Qed.

Lemma keeps_foldl_upd {A B} (π : TranspiledModule → A) (g : B → ref)
  (f : B → TranspiledModule → TranspiledModule) (l : list B) w :
  (∀ b t, π (f b t) = π t) →
  keeps π w (foldl (λ acc b, upd (g b) (f b) acc) w l).
Proof.
  intros Hf. revert w. induction l as [|b l IH]; intros w; simpl.
  - apply keeps_refl.
  - eapply keeps_trans; [|apply IH]. by apply keeps_upd.
Qed.

Lemma keeps_forEachM {A B} (π : TranspiledModule → A)
  (g : B → World → option World) (l : list B) w w' :
  (∀ b w1 w2, g b w1 = Some w2 → keeps π w1 w2) →
  forEachM g l w = Some w' → keeps π w w'.
Proof.
  intros Hg. revert w. induction l as [|b l IH]; intros w; simpl.
  - intros [= <-]. apply keeps_refl.
  - destruct (g b w) as [w1|] eqn:Hb; [|discriminate].
    intros Hrest. eapply keeps_trans; eauto.
Qed.

(** Allocation by the manager changes no field of any node that the graph
    properties read. *)
Lemma addTranspiledModule_keeps {A} (π : TranspiledModule → A) m q w :
  π (newTranspiledModule m q) = π (newTranspiledModule blankModule "") →
  keeps π w (addTranspiledModule m q w).2.
Proof.
  intros Hπ r. unfold addTranspiledModule.
  destruct (transpiledModules w !! idOf m q); simpl; [reflexivity|].
  rewrite node_setTable. unfold node at 1, setHeap; simpl.
  destruct (decide (fresh (dom (heap w)) = r)) as [<-|Hne].
  - rewrite lookup_total_insert_eq, node_fresh. exact Hπ.
  - by rewrite lookup_total_insert_ne.
Qed.

End StoreFacts.

(** * Invalidation *)

Section ResetFacts.

Implicit Types (w : World) (r n a b : ref).

Lemma unlinkAll_keeps {A} (π : TranspiledModule → A) n l w :
  (∀ v t, π (setInitiators v t) = π t) → keeps π w (unlinkAll n l w).
Proof.
  intros Hπ. unfold unlinkAll.
  apply (keeps_foldl_upd π (λ t, t) (λ _ d, setInitiators (set_delete n (initiators d)) d)).
  intros _ t. apply Hπ.
Qed.



Lemma resetTranspilation_keeps {A} (π : TranspiledModule → A) fuel n w w' :
  notTranspilationState π → resetTranspilation fuel n w = Some w' → keeps π w w'.
Proof.
  intros (Hs & He & Hw & Hi & Hd & Ha). revert n w w'.
  induction fuel as [|f IH]; intros n w w' Hrun; [discriminate|].
  simpl in Hrun.
  destruct (if hmrOff (hmrEnabled (node w n))
            then forEachM (resetTranspilation f)
                   (keep (hasSource w) (transpilationInitiators (node w n))) w
            else Some w) as [w1|] eqn:Hrec; [|discriminate].
  injection Hrun as <-.
  assert (keeps π w w1) as K1.
  { destruct (hmrOff (hmrEnabled (node w n))).
    - eapply keeps_forEachM; [|exact Hrec]. intros b wa wb. apply IH.
    - injection Hrec as <-. apply keeps_refl. }
  eapply keeps_trans; [exact K1|].
  eapply keeps_trans; [|apply keeps_upd; intros; by rewrite Ha, Hd].
  set (w2 := upd n (λ t, setWarnings [] (setErrors [] (setSource None t))) w1).
  apply (keeps_trans _ _ w2).
  { apply keeps_upd. intros. by rewrite Hw, He, Hs. }
  destruct (hmrOff (hmrEnabled (node w2 n))); [|apply keeps_refl].
  apply unlinkAll_keeps, Hi.
Qed.

Lemma hmrFree_keeps w w' : keeps hmrEnabled w w' → hmrFree w → hmrFree w'.
Proof. intros K H r. rewrite K. apply H. Qed.


Lemma forEachM_invariant {B} (P : World → Prop) (g : B → World → option World) l w w' :
  (∀ x w1 w2, P w1 → g x w1 = Some w2 → P w2) →
  P w → forEachM g l w = Some w' → P w'.
Proof.
  intros Hg. revert w. induction l as [|x l IH]; intros w Hw; simpl.
  - by intros [= <-].
  - destruct (g x w) as [w1|] eqn:Hb; [|discriminate]. eauto.
Qed.


(** What [resetTranspilation] leaves on the node it is called on. *)
Lemma resetTranspilation_cleared fuel n w w' :
  resetTranspilation fuel n w = Some w' →
  source (node w' n) = None ∧ errors (node w' n) = [] ∧ warnings (node w' n) = []
  ∧ dependencies (node w' n) = [] ∧ asyncDependencies (node w' n) = [].
Proof.
  destruct fuel as [|f]; [discriminate|]. simpl.
  destruct (if hmrOff (hmrEnabled (node w n)) then _ else _) as [w1|]; [|discriminate].
  intros [= <-]. rewrite node_upd_eq. simpl.
  set (w2 := upd n _ w1).
  assert (∀ w3, (∀ r, source (node w3 r) = source (node w2 r)
                       ∧ errors (node w3 r) = errors (node w2 r)
                       ∧ warnings (node w3 r) = warnings (node w2 r)) →
            source (node w3 n) = None ∧ errors (node w3 n) = []
            ∧ warnings (node w3 n) = [] ∧ @nil ref = [] ∧ @nil Promise = []) as Hgen.
  { intros w3 H3. destruct (H3 n) as (-> & -> & ->). unfold w2. rewrite node_upd_eq.
    by split_and!. }
  apply Hgen. intros r. destruct (hmrOff _); [|done].
  split_and!; by apply unlinkAll_keeps.
Qed.

Lemma resetCompilation_keeps {A} (π : TranspiledModule → A) fuel n w w' :
  notCompilationState π → resetCompilation fuel n w = Some w' → keeps π w w'.
Proof.
  intros (Hc & Hch). revert n w w'.
  induction fuel as [|f IH]; intros n w w' Hrun; [discriminate|].
  simpl in Hrun.
  destruct (match compilation (node w n) with Some _ => _ | None => _ end)
    as [w1|] eqn:Hfirst; [|discriminate].
  assert (keeps π w w1) as K1.
  { destruct (compilation (node w n)); [|injection Hfirst as <-; apply keeps_refl].
    destruct (hmrOff (hmrEnabled (node w n))).
    - eapply keeps_trans; [apply keeps_upd, Hc|].
      eapply keeps_forEachM; [|exact Hfirst]. intros b wa wb. apply IH.
    - injection Hfirst as <-. apply keeps_upd, Hch. }
  eapply keeps_trans; [exact K1|].
  destruct (hmrOff (hmrEnabled (node w1 n))).
  - eapply keeps_forEachM; [|exact Hrun]. intros b wa wb. apply IH.
  - injection Hrun as <-. apply keeps_refl.
Qed.

(** [resetCompilation] never creates a compilation. *)
Lemma resetCompilation_no_new fuel n w w' r :
  resetCompilation fuel n w = Some w' →
  compilation (node w r) = None → compilation (node w' r) = None.
Proof.
  revert n w w'. induction fuel as [|f IH]; intros n w w' Hrun Hnone; [discriminate|].
  simpl in Hrun.
  assert (∀ l wa wb, compilation (node wa r) = None →
            forEachM (resetCompilation f) l wa = Some wb → compilation (node wb r) = None)
    as Hloop.
  { intros l wa wb Ha Hl.
    eapply (forEachM_invariant (λ x, compilation (node x r) = None)); [|exact Ha|exact Hl].
    intros b w1 w2 H1 H2. eapply IH; eauto. }
  destruct (match compilation (node w n) with Some _ => _ | None => _ end)
    as [w1|] eqn:Hfirst; [|discriminate].
  assert (compilation (node w1 r) = None) as H1.
  { destruct (compilation (node w n)); [|by injection Hfirst as <-].
    destruct (hmrOff (hmrEnabled (node w n))).
    - eapply Hloop; [|exact Hfirst]. rewrite node_upd. by case_decide.
    - injection Hfirst as <-. rewrite node_upd.
      case_decide; [subst; simpl|]; exact Hnone. }
  destruct (hmrOff (hmrEnabled (node w1 n))).
  - eapply Hloop; eauto.
  - by injection Hrun as <-.
Qed.

(** On a node that is not HMR-accepting [resetCompilation] clears the
    compilation. *)
Lemma resetCompilation_cleared fuel n w w' :
  hmrEnabled (node w n) = HmrUnset → resetCompilation fuel n w = Some w' →
  compilation (node w' n) = None.
Proof.
  intros Hoff Hrun. destruct fuel as [|f]; [discriminate|]. simpl in Hrun.
  rewrite Hoff in Hrun. simpl in Hrun.
  assert (∀ l wa wb, compilation (node wa n) = None →
            forEachM (resetCompilation f) l wa = Some wb → compilation (node wb n) = None)
    as Hloop.
  { intros l wa wb Ha Hl.
    eapply (forEachM_invariant (λ x, compilation (node x n) = None)); [|exact Ha|exact Hl].
    intros b w1 w2 H1 H2. eapply resetCompilation_no_new; eauto. }
  destruct (match compilation (node w n) with Some _ => _ | None => _ end)
    as [w1|] eqn:Hfirst; [|discriminate].
  assert (compilation (node w1 n) = None) as H1.
  { destruct (compilation (node w n)) eqn:Hc; [|by injection Hfirst as <-].
    eapply Hloop; [|exact Hfirst]. by rewrite node_upd_eq. }
  destruct (hmrOff (hmrEnabled (node w1 n))).
  - eapply Hloop; eauto.
  - by injection Hrun as <-.
Qed.

End ResetFacts.

(** * Linking *)

Section LinkFacts.

Implicit Types (w : World) (r n a b x y : ref).



Lemma linkDependency_keeps {A} (π : TranspiledModule → A) a b w :
  (∀ v t, π (setDependencies v t) = π t) → (∀ v t, π (setInitiators v t) = π t) →
  keeps π w (linkDependency a b w).
Proof.
  intros Hd Hi. unfold linkDependency.
  eapply keeps_trans; apply keeps_upd; intros; [apply Hd | apply Hi].
Qed.


Lemma linkTranspilationDependency_keeps {A} (π : TranspiledModule → A) a b w :
  (∀ v t, π (setTranspilationDependencies v t) = π t) →
  (∀ v t, π (setTranspilationInitiators v t) = π t) →
  keeps π w (linkTranspilationDependency a b w).
Proof.
  intros Hd Hi. unfold linkTranspilationDependency.
  eapply keeps_trans; apply keeps_upd; intros; [apply Hd | apply Hi].
Qed.



Lemma foldl_linkDependency_keeps {A} (π : TranspiledModule → A) n l w :
  (∀ v t, π (setDependencies v t) = π t) → (∀ v t, π (setInitiators v t) = π t) →
  keeps π w (foldl (λ acc t, linkDependency n t acc) w l).
Proof.
  intros Hd Hi. revert w. induction l as [|t l IH]; intros w; simpl; [apply keeps_refl|].
  eapply keeps_trans; [|apply IH]. by apply linkDependency_keeps.
Qed.


Lemma resolveTranspiledModule_keeps {A} (π : TranspiledModule → A) C p from w :
  (∀ m q, π (newTranspiledModule m q) = π (newTranspiledModule blankModule "")) →
  keeps π w (resolveTranspiledModule C p from w).2.
Proof.
  intros Hπ. unfold resolveTranspiledModule.
  destruct (resolveModule C w p from) as [m q|e]; [|apply keeps_refl].
  pose proof (addTranspiledModule_keeps π m q w (Hπ m q)) as K.
  by destruct (addTranspiledModule m q w).
Qed.


(** Every write of a transpile walk either stores a source or keeps the
    fields that are not link state. *)
Lemma transpileStep_keeps_or_source {A} (π : TranspiledModule → A) C w w' :
  notLinkState π → transpileStep C w w' →
  keeps π w w' ∨ ∃ n src, w' = upd n (setSource (Some src)) w.
Proof.
  intros (Hw & He & Hd & Hi & Hc & Has & Htd & Hti & Hasync & Hnew) Hstep.
  destruct Hstep; [left..|right; eauto|left|left].
  - unfold clearForTranspile. eapply keeps_trans; [apply unlinkAll_keeps, Hi|].
    apply keeps_upd. intros. by rewrite Hw, He, Hd.
  - by intros r.
  - by intros r.
  - apply keeps_upd. intros. apply Hw.
  - apply keeps_upd. intros. apply He.
  - unfold emitModule.
    pose proof (addTranspiledModule_keeps π
      {| path := join C (default (dirname C (path (module (node w n)))) d)
                   (List.last (splitOn bang p) "");
         code := c; requires := requires (module (node w n)) |}
      (String.concat "!" (removelast (splitOn bang p))) w (Hnew _ _)) as K.
    destruct (addTranspiledModule _ _ w) as [t w1]. simpl in *.
    eapply keeps_trans; [exact K|].
    eapply keeps_trans; [apply keeps_upd; intros; apply Hc|].
    by apply linkDependency_keeps.
  - unfold emitFile. destruct (assets (node w n)); simpl; [|apply keeps_refl].
    apply keeps_upd. intros. apply Has.
  - unfold addTranspilationDependency.
    pose proof (resolveTranspiledModule_keeps π C depPath (fromPath abs w n) w Hnew) as K.
    destruct (resolveTranspiledModule C depPath (fromPath abs w n) w) as [[t|e] w1];
      simpl in *; [|exact K].
    eapply keeps_trans; [exact K|]. by apply linkTranspilationDependency_keeps.
  - unfold addDependency. destruct (isSpecialDependency depPath); [apply keeps_refl|].
    pose proof (resolveTranspiledModule_keeps π C depPath (fromPath abs w n) w Hnew) as K.
    destruct (resolveTranspiledModule C depPath (fromPath abs w n) w) as [[t|e] w1];
      simpl in *.
    + eapply keeps_trans; [exact K|]. by apply linkDependency_keeps.
    + destruct (_ && _); simpl; [|exact K].
      eapply keeps_trans; [exact K|]. apply keeps_upd. intros. apply Hasync.
  - unfold addDependenciesInDirectory. simpl. by apply foldl_linkDependency_keeps.
  - by apply linkDependency_keeps.
  - apply keeps_upd. intros. apply Hasync.
Qed.

Lemma transpileStep_keeps {A} (π : TranspiledModule → A) C w w' :
  notTranspileState π → transpileStep C w w' → keeps π w w'.
Proof.
  intros [Hlink Hs] Hstep.
  destruct (transpileStep_keeps_or_source π C w w' Hlink Hstep) as [K|(n & src & ->)];
    [exact K|]. apply keeps_upd. intros. apply Hs.
Qed.

Lemma rtc_transpileStep_keeps {A} (π : TranspiledModule → A) C w w' :
  notTranspileState π → rtc (transpileStep C) w w' → keeps π w w'.
Proof.
  intros Hπ Hrtc. induction Hrtc as [|w1 w2 w3 Hstep _ IH]; [apply keeps_refl|].
  eapply keeps_trans; [|exact IH]. by eapply transpileStep_keeps.
Qed.



(** No write of a transpile walk removes a source. *)
Lemma transpileStep_sourcesStay C w w' : transpileStep C w w' → sourcesStay w w'.
Proof.
  intros Hstep r Hr.
  destruct (transpileStep_keeps_or_source source C w w') as [K|(n & src & ->)];
    [by split_and! | exact Hstep | by rewrite K |].
  rewrite node_upd. by case_decide.
Qed.

Lemma rtc_transpileStep_sourcesStay C w w' :
  rtc (transpileStep C) w w' → sourcesStay w w'.
Proof.
  intros Hrtc. induction Hrtc as [|w1 w2 w3 Hstep _ IH]; [by intros r|].
  intros r Hr. apply IH. by eapply transpileStep_sourcesStay.
Qed.

End LinkFacts.

(** * The transpile walk as a sequence of writes *)

Section TranspileTrace.

Variable C : Collaborators.

Implicit Types (w : World) (n : ref).

Lemma transpileTrace_prefix {A} w w1 (o : Outcome A) w' :
  rtc (transpileStep C) w w1 → transpileTrace C w1 o w' → transpileTrace C w o w'.
Proof.
  intros Hpre. destruct o as [a|e]; simpl.
  - intros Hrest. by etrans.
  - intros (w2 & f & m & Hrest & Hreset). exists w2, f, m. split; [by etrans | done].
Qed.

Lemma runLoader_steps n r w : rtc (transpileStep C) w (runLoader C n r w).2.
Proof.
  revert w. induction r as [c sm|e|wr k IH|e k IH|p c d k IH|name content sm k IH
                            |depPath abs k IH|depPath abs k IH|folder abs k IH|k IH];
    intros w; simpl; try reflexivity.
  - eapply rtc_l; [apply step_emitWarning | apply IH].
  - eapply rtc_l; [apply step_emitError | apply IH].
  - pose proof (step_emitModule C n p c d w) as Hs.
    destruct (emitModule C n p c d w) as [t w1]. simpl in Hs.
    eapply rtc_l; [exact Hs | apply IH].
  - pose proof (step_emitFile C n name content sm w) as Hs.
    destruct (emitFile n name content sm w) as [x w1]. simpl in Hs.
    eapply rtc_l; [exact Hs | apply IH].
  - pose proof (step_addTranspilationDependency C n depPath abs w) as Hs.
    destruct (addTranspilationDependency C n depPath abs w) as [x w1]. simpl in Hs.
    eapply rtc_l; [exact Hs | apply IH].
  - pose proof (step_addDependency C n depPath abs w) as Hs.
    destruct (addDependency C n depPath abs w) as [x w1]. simpl in Hs.
    eapply rtc_l; [exact Hs | apply IH].
  - eapply (rtc_l _ _ (addDependenciesInDirectory C n folder abs w).2);
      [apply step_addDependenciesInDirectory | apply IH].
  - apply IH.
Qed.

Lemma tryTranspiler_steps n cfg c w :
  rtc (transpileStep C) w (tryTranspiler C n cfg c w).2.
Proof.
  unfold tryTranspiler.
  pose proof (runLoader_steps n (transpilerRun cfg c (path (module (node w n))))
                (logTranspiler n (transpilerName cfg) w)) as Hrun.
  destruct (runLoader C n _ (logTranspiler n (transpilerName cfg) w)) as [res w1].
  simpl in Hrun.
  assert (rtc (transpileStep C) w w1) as Hw1.
  { eapply rtc_l; [apply step_logTranspiler | exact Hrun]. }
  destruct res as [[tc tsm]|e]; [|exact Hw1].
  set (w2 := match warnings (node w1 n) with [] => w1 | ws => logWarnings ws w1 end).
  assert (rtc (transpileStep C) w w2) as Hw2.
  { unfold w2. destruct (warnings (node w1 n)); [exact Hw1|].
    eapply rtc_r; [exact Hw1 | apply step_logWarnings]. }
  by destruct (errors (node w2 n)).
Qed.

Lemma runLoaders_trace fuel n chain c sm w o w' :
  runLoaders C fuel n chain c sm w = Some (o, w') →
  match o with
  | Returned _ => rtc (transpileStep C) w w'
  | Threw _ => ∃ w1, rtc (transpileStep C) w w1 ∧ resetTranspilation fuel n w1 = Some w'
  end.
Proof.
  revert c sm w. induction chain as [|cfg rest IH]; intros c sm w; simpl.
  - intros [= <- <-]. reflexivity.
  - pose proof (tryTranspiler_steps n cfg c w) as Htry.
    destruct (tryTranspiler C n cfg c w) as [[[tc tsm]|e] w2]; simpl in Htry.
    + intros Hrest. apply IH in Hrest. destruct o.
      * by etrans.
      * destruct Hrest as (w3 & Hrest & Hreset). exists w3. split; [by etrans | done].
    + destruct (resetTranspilation fuel n w2) as [w3|] eqn:Hreset; [|discriminate].
      intros [= <- <-]. eauto.
Qed.

Lemma awaitAsyncDependencies_steps n ps w w' :
  awaitAsyncDependencies n ps w = Some w' → rtc (transpileStep C) w w'.
Proof.
  revert w. induction ps as [|[t|e|] ps IH]; intros w; simpl.
  - by intros [= <-].
  - intros Hrest. eapply rtc_l; [apply step_linkAsync | by apply IH].
  - apply IH.
  - discriminate.
Qed.

Lemma transpileAll_trace (f : ref → World → option (Outcome unit * World)) ts w o w' :
  (∀ t w1 o1 w2, f t w1 = Some (o1, w2) → transpileTrace C w1 o1 w2) →
  transpileAll f ts w = Some (o, w') → transpileTrace C w o w'.
Proof.
  intros Hf. revert w. induction ts as [|t ts IH]; intros w; simpl.
  - intros [= <- <-]. simpl. reflexivity.
  - destruct (f t w) as [[[u|e] w1]|] eqn:Ht; [|by intros [= <- <-]; eauto|discriminate].
    intros Hrest. apply Hf in Ht. simpl in Ht.
    eapply transpileTrace_prefix; [exact Ht | by apply IH].
Qed.

Lemma foldl_addDependency_steps n reqs w :
  rtc (transpileStep C) w (foldl (λ acc dep, (addDependency C n dep false acc).2) w reqs).
Proof.
  revert w. induction reqs as [|dep reqs IH]; intros w; simpl; [reflexivity|].
  eapply rtc_l; [apply step_addDependency | apply IH].
Qed.

(** A transpile walk is a sequence of writes, ended by one reset when it
    throws. *)
Lemma transpile_trace fuel n w o w' :
  transpile C fuel n w = Some (o, w') → transpileTrace C w o w'.
Proof.
  revert n w o w'. induction fuel as [|f IH]; intros n w o w'; [discriminate|].
  simpl. destruct (source (node w n)) as [src|].
  { intros [= <- <-]. simpl. reflexivity. }
  set (w2 := clearForTranspile n w).
  assert (rtc (transpileStep C) w w2) as H2 by (apply rtc_once, step_clear).
  destruct (match requires (module (node w2 n)) with Some _ => _ | None => _ end)
    as [[[[c sm]|e] w3]|] eqn:Hchain; [| |discriminate].
  - assert (rtc (transpileStep C) w w3) as H3.
    { destruct (requires (module (node w2 n))) as [reqs|].
      - injection Hchain as _ _ <-. etrans; [exact H2|]. apply foldl_addDependency_steps.
      - apply runLoaders_trace in Hchain. by etrans. }
    set (w4 := upd n (setSource _) w3).
    assert (rtc (transpileStep C) w w4) as H4.
    { eapply rtc_r; [exact H3 | apply step_setSource]. }
    destruct (awaitAsyncDependencies n (asyncDependencies (node w4 n)) w4) as [w5|] eqn:Ha;
      [|discriminate].
    apply awaitAsyncDependencies_steps in Ha.
    set (w6 := upd n (setAsyncDependencies []) w5).
    assert (rtc (transpileStep C) w w6) as H6.
    { eapply rtc_r; [by etrans | apply step_clearAsync]. }
    destruct (transpileAll (transpile C f) (transpilationInitiators (node w6 n)) w6)
      as [[[u|e] w7]|] eqn:Hti; [| |discriminate].
    + intros Hdeps. apply transpileAll_trace in Hti; [|apply IH].
      apply transpileAll_trace in Hdeps; [|apply IH].
      eapply transpileTrace_prefix; [|exact Hdeps]. simpl in Hti. by etrans.
    + intros [= <- <-]. apply transpileAll_trace in Hti; [|apply IH].
      eapply transpileTrace_prefix; [exact H6 | exact Hti].
  - intros [= <- <-].
    destruct (requires (module (node w2 n))) as [reqs|]; [discriminate|].
    apply runLoaders_trace in Hchain. destruct Hchain as (w1 & Hsteps & Hreset).
    exists w1, f, n. split; [by etrans | done].
Qed.

End TranspileTrace.

(** * The evaluation as a sequence of writes *)

Section EvaluateTrace.

Variable C : Collaborators.

Implicit Types (w : World) (n : ref).

Local Abbreviation evaluator := (ref → list ref → World → option (Outcome JsValue * World)).

Lemma require_steps (evalRec : evaluator) n localModule ps p w o w' :
  (∀ t ps1 w1 o1 w2, evalRec t ps1 w1 = Some (o1, w2) → rtc (evaluateStep C) w1 w2) →
  require C evalRec n localModule ps p w = Some (o, w') → rtc (evaluateStep C) w w'.
Proof.
  intros Hrec. unfold require.
  destruct (_ && _ && _); [by intros [= _ <-]|].
  pose proof (estep_resolve C (getAliasedPath C p) (path localModule) w) as Hs.
  destruct (resolveTranspiledModule C (getAliasedPath C p) (path localModule) w)
    as [[t|e] w1]; simpl in Hs.
  - case_decide.
    + intros [= _ <-]. by apply rtc_once.
    + intros Hr. apply Hrec in Hr. by eapply rtc_l.
  - intros [= _ <-]. by apply rtc_once.
Qed.

Lemma runUnit_steps (evalRec : evaluator) n localModule ps u w o w' :
  (∀ t ps1 w1 o1 w2, evalRec t ps1 w1 = Some (o1, w2) → rtc (evaluateStep C) w1 w2) →
  runUnit C evalRec n localModule ps u w = Some (o, w') → rtc (evaluateStep C) w w'.
Proof.
  intros Hrec. revert w.
  induction u as [|e|key v k IH|v k IH|p k IH|p cb k IH]; intros w; simpl.
  - by intros [= _ <-].
  - by intros [= _ <-].
  - intros Hr. eapply rtc_l; [apply estep_writeExports | by apply IH].
  - intros Hr. eapply rtc_l; [apply estep_writeExports | by apply IH].
  - destruct (require C evalRec n localModule ps p w) as [[r w1]|] eqn:Hreq; [|discriminate].
    intros Hr. etrans; [by eapply require_steps | by eapply IH].
  - pose proof (estep_accept C n p cb w) as Hs.
    destruct (accept C n p cb w) as [r w1]. simpl in Hs.
    intros Hr. eapply rtc_l; [exact Hs | by eapply IH].
Qed.

Lemma evaluateUnit_steps (evalRec : evaluator) n src localModule ps w o w' :
  (∀ t ps1 w1 o1 w2, evalRec t ps1 w1 = Some (o1, w2) → rtc (evaluateStep C) w1 w2) →
  source (node w n) ≠ None →
  evaluateUnit C evalRec n src localModule ps w = Some (o, w') →
  rtc (evaluateStep C) (logEvaluator n (upd n initCompilation w)) w'.
Proof.
  intros Hrec Hsrc. unfold evaluateUnit.
  destruct (runUnit _ _ _ _ _ _ _) as [[r w2]|] eqn:Hunit; [|discriminate].
  apply runUnit_steps in Hunit; [|exact Hrec].
  destruct r as [u|e]; [|by intros [= _ <-]].
  destruct (hmrEnabled (node w2 n)) as [| |cb]; try by intros [= _ <-].
  assert (rtc (evaluateStep C) (logEvaluator n (upd n initCompilation w))
            (logCallback n (cbName cb) w2)).
  { eapply rtc_r; [exact Hunit | apply estep_logCallback]. }
  destruct (cbThrows cb); by intros [= _ <-].
Qed.

Lemma mustReload_no_compilation w n : mustReload w n = true → compilation (node w n) = None.
Proof.
  unfold mustReload, hasCompilation. destruct (compilation (node w n)); [|done].
  by rewrite andb_false_r.
Qed.

(** An evaluation is a sequence of writes. *)
Lemma evaluate_steps fuel n ps w o w' :
  evaluate C fuel n ps w = Some (o, w') → rtc (evaluateStep C) w w'.
Proof.
  revert n ps w o w'. induction fuel as [|f IH]; intros n ps w o w'; [discriminate|].
  simpl. destruct (source (node w n)) as [src|] eqn:Hsrc; [|by intros [= _ <-]].
  destruct (mustReload w n) eqn:Hreload.
  { intros [= _ <-]. by apply rtc_once, estep_reload, mustReload_no_compilation. }
  assert (evaluateUnit C (evaluate C f) n src (module (node w n)) ps w = Some (o, w') →
          rtc (evaluateStep C) w w') as Hrun.
  { intros Hu. apply evaluateUnit_steps in Hu; [|intros; by eapply IH|by rewrite Hsrc].
    eapply rtc_l; [apply estep_initCompilation; by rewrite Hsrc|].
    eapply rtc_l; [apply estep_logEvaluator | exact Hu]. }
  destruct (compilation (node w n)) as [c|]; [destruct (changed (node w n))|].
  - apply Hrun.
  - by intros [= _ <-].
  - apply Hrun.
Qed.

(** A write of an evaluation initialises the compilation of a transpiled
    node, writes to the exports of a node, or keeps every field that is
    neither [compilation] nor [hmrEnabled]. *)
Lemma evaluateStep_cases {A} (π : TranspiledModule → A) w w' :
  (∀ v t, π (setHmrEnabled v t) = π t) →
  (∀ m q, π (newTranspiledModule m q) = π (newTranspiledModule blankModule "")) →
  evaluateStep C w w' →
  keeps π w w'
  ∨ ∃ n, (source (node w n) ≠ None ∧ w' = upd n initCompilation w)
         ∨ ∃ f, w' = upd n (writeExports f) w.
Proof.
  intros Hh Hnew Hstep. destruct Hstep; [left|right; eauto|left|right; eauto|left..].
  - by intros r.
  - by intros r.
  - by apply resolveTranspiledModule_keeps.
  - unfold accept. destruct p as [[|a rest]|].
    + simpl. intros r. rewrite node_setWebpackHMR. revert r. apply keeps_upd. intros; apply Hh.
    + pose proof (resolveTranspiledModule_keeps π C (String a rest)
                    (path (module (node w n))) w Hnew) as K.
      destruct (resolveTranspiledModule C _ _ w) as [[t|e] w1]; simpl in *; [|exact K].
      intros r. rewrite node_setWebpackHMR. revert r.
      eapply keeps_trans; [exact K|]. apply keeps_upd. intros; apply Hh.
    + simpl. intros r. rewrite node_setWebpackHMR. revert r. apply keeps_upd. intros; apply Hh.
  - by intros r.
Qed.

(** The writes of an evaluation keep every field that is not evaluation
    state. *)
Lemma evaluateStep_keeps {A} (π : TranspiledModule → A) w w' :
  notEvaluationState π → evaluateStep C w w' → keeps π w w'.
Proof.
  intros (Hc & Hh & Hnew) Hstep.
  destruct (evaluateStep_cases π w w' Hh Hnew Hstep) as [K|(n & [[_ ->]|[f ->]])];
    [exact K| |].
  - apply keeps_upd. intros. apply Hc.
  - apply keeps_upd. intros t. unfold writeExports. destruct (compilation t); [apply Hc|done].
Qed.

Lemma rtc_evaluateStep_keeps {A} (π : TranspiledModule → A) w w' :
  notEvaluationState π → rtc (evaluateStep C) w w' → keeps π w w'.
Proof.
  intros Hπ Hrtc. induction Hrtc as [|w1 w2 w3 Hstep _ IH]; [apply keeps_refl|].
  eapply keeps_trans; [|exact IH]. by eapply evaluateStep_keeps.
Qed.

(** A write of an evaluation removes no compilation, and gives one to
    transpiled nodes only. *)
Lemma evaluateStep_compilation w w' r :
  evaluateStep C w w' →
  (compilation (node w r) ≠ None → compilation (node w' r) ≠ None)
  ∧ (compilation (node w r) = None → compilation (node w' r) ≠ None →
     source (node w r) ≠ None).
Proof.
  intros Hstep.
  destruct (evaluateStep_cases compilation w w') as [K|(n & [[Hsrc ->]|[f ->]])];
    [done | done | exact Hstep | rewrite K; by split | |].
  - rewrite node_upd. case_decide; [subst r|by split]. by split.
  - rewrite node_upd. case_decide; [subst r|by split].
    unfold writeExports. destruct (compilation (node w n)) eqn:Hc; simpl.
    + by split.
    + rewrite Hc. by split.
Qed.

Lemma rtc_evaluateStep_compilationsStay w w' :
  rtc (evaluateStep C) w w' → compilationsStay w w'.
Proof.
  intros Hrtc. induction Hrtc as [|w1 w2 w3 Hstep _ IH]; [by intros r|].
  intros r Hr. apply IH. by apply (evaluateStep_compilation w1 w2 r Hstep).
Qed.



(** While a node has a compilation no write of an evaluation requests a page
    reload for it. *)
Lemma evaluateStep_reloads w w' n :
  evaluateStep C w w' → compilation (node w n) ≠ None →
  filter (λ x, x = n) (reloads w') = filter (λ x, x = n) (reloads w).
Proof.
  intros Hstep Hc. destruct Hstep; try reflexivity.
  - simpl. rewrite filter_app, filter_cons_False, filter_nil, app_nil_r; [done|].
    intros ->. contradiction.
  - unfold resolveTranspiledModule. destruct (resolveModule C w p from); [|done].
    unfold addTranspiledModule. by destruct (transpiledModules w !! idOf m q).
  - unfold accept. destruct p as [[|a rest]|]; try reflexivity.
    unfold resolveTranspiledModule.
    destruct (resolveModule C w (String a rest) (path (module (node w n0)))); [|done].
    unfold addTranspiledModule. by destruct (transpiledModules w !! idOf m q).
Qed.

Lemma rtc_evaluateStep_reloads w w' n :
  rtc (evaluateStep C) w w' → compilation (node w n) ≠ None →
  filter (λ x, x = n) (reloads w') = filter (λ x, x = n) (reloads w).
Proof.
  intros Hrtc. induction Hrtc as [|w1 w2 w3 Hstep _ IH]; [done|].
  intros Hc. rewrite IH; [by eapply evaluateStep_reloads|].
  by apply (evaluateStep_compilation w1 w2 n Hstep).
Qed.

End EvaluateTrace.

(** * Termination of the evaluation *)

Section EvaluateTermination.

Variable C : Collaborators.

Implicit Types (w : World) (n : ref) (l : list ref).

Local Abbreviation evaluator := (ref → list ref → World → option (Outcome JsValue * World)).

Lemma length_filter_le (P Q : ref → Prop) `{!∀ x, Decision (P x)} `{!∀ x, Decision (Q x)} l :
  (∀ x, P x → Q x) → length (filter P l) ≤ length (filter Q l).
Proof.
  intros HPQ. induction l as [|x l IH]; simpl; [done|].
  rewrite !filter_cons. destruct (decide (P x)) as [HP|HP].
  - rewrite decide_True by auto. simpl. lia.
  - destruct (decide (Q x)); simpl; lia.
Qed.

Lemma length_filter_lt (P Q : ref → Prop) `{!∀ x, Decision (P x)} `{!∀ x, Decision (Q x)}
  l n :
  (∀ x, P x → Q x) → n ∈ l → Q n → ¬ P n → length (filter P l) < length (filter Q l).
Proof.
  intros HPQ Hin HQ HP. induction l as [|x l IH]; [by apply elem_of_nil in Hin|].
  rewrite !filter_cons. apply elem_of_cons in Hin as [<-|Hin].
  - rewrite decide_False, decide_True by done. simpl.
    pose proof (length_filter_le P Q l HPQ). lia.
  - specialize (IH Hin). destruct (decide (P x)) as [HPx|HPx].
    + rewrite decide_True by auto. simpl. lia.
    + destruct (decide (Q x)); simpl; lia.
Qed.

Lemma hasSource_true w r : hasSource w r = true ↔ source (node w r) ≠ None.
Proof. unfold hasSource. by destruct (source (node w r)). Qed.

Lemma hasCompilation_false w r : hasCompilation w r = false ↔ compilation (node w r) = None.
Proof. unfold hasCompilation. by destruct (compilation (node w r)). Qed.

Lemma pending_steps l w w' : rtc (evaluateStep C) w w' → pending l w' ≤ pending l w.
Proof.
  intros Hrtc. unfold pending. apply length_filter_le. intros r [Hs Hc].
  pose proof (rtc_evaluateStep_keeps C source w w') as Ks.
  pose proof (rtc_evaluateStep_compilationsStay C w w' Hrtc r) as Kc.
  apply hasSource_true in Hs. apply hasCompilation_false in Hc.
  rewrite hasSource_true, hasCompilation_false. split.
  - rewrite <-Ks; [done | by split_and! | done].
  - destruct (compilation (node w r)) eqn:Hw; [|done].
    exfalso. by apply Kc.
Qed.

Lemma settled_steps l w w' : rtc (evaluateStep C) w w' → settled l w → settled l w'.
Proof.
  intros Hrtc [Hch Hsrc]. split; intros r.
  - rewrite (rtc_evaluateStep_keeps C changed w w'); [done | by split_and! | done].
  - rewrite (rtc_evaluateStep_keeps C source w w'); [apply Hsrc | by split_and! | done].
Qed.

Lemma pending_initCompilation l w n :
  n ∈ l → source (node w n) ≠ None → compilation (node w n) = None →
  pending l (logEvaluator n (upd n initCompilation w)) < pending l w.
Proof.
  intros Hin Hs Hc. unfold pending. apply (length_filter_lt _ _ l n); [|done|..].
  - intros r. rewrite !hasSource_true, !hasCompilation_false, node_logEvaluator, node_upd.
    case_decide; [subst r|done]. by intros [_ ?].
  - by rewrite hasSource_true, hasCompilation_false.
  - rewrite hasCompilation_false, node_logEvaluator, node_upd_eq. by intros [_ ?].
Qed.

Lemma runUnit_total (evalRec : evaluator) l bound n localModule ps u w :
  (∀ t ps1 w1 o1 w2, evalRec t ps1 w1 = Some (o1, w2) → rtc (evaluateStep C) w1 w2) →
  (∀ t ps1 w1, settled l w1 → pending l w1 < bound → ∃ o1 w2, evalRec t ps1 w1 = Some (o1, w2)) →
  settled l w → pending l w < bound →
  ∃ o w', runUnit C evalRec n localModule ps u w = Some (o, w').
Proof.
  intros Hsteps Htotal. revert w.
  induction u as [|e|key v k IH|v k IH|p k IH|p cb k IH]; intros w Hgood Hlt; simpl.
  - eauto.
  - eauto.
  - assert (rtc (evaluateStep C) w (upd n (writeExports (setProperty key v)) w)) as Hs
      by apply rtc_once, estep_writeExports.
    apply IH; [by eapply settled_steps | pose proof (pending_steps l _ _ Hs); lia].
  - assert (rtc (evaluateStep C) w (upd n (writeExports (λ _, v)) w)) as Hs
      by apply rtc_once, estep_writeExports.
    apply IH; [by eapply settled_steps | pose proof (pending_steps l _ _ Hs); lia].
  - assert (∃ r w1, require C evalRec n localModule ps p w = Some (r, w1)) as (r & w1 & Hreq).
    { unfold require. destruct (_ && _ && _); [eauto|].
      pose proof (estep_resolve C (getAliasedPath C p) (path localModule) w) as Hs.
      destruct (resolveTranspiledModule C (getAliasedPath C p) (path localModule) w)
        as [[t|e] w1]; simpl in Hs; [|eauto].
      case_decide; [eauto|].
      apply rtc_once in Hs.
      apply Htotal; [by eapply settled_steps | pose proof (pending_steps l _ _ Hs); lia]. }
    rewrite Hreq.
    pose proof (require_steps C evalRec n localModule ps p w r w1 Hsteps Hreq) as Hs.
    apply IH; [by eapply settled_steps | pose proof (pending_steps l _ _ Hs); lia].
  - pose proof (estep_accept C n p cb w) as Hs.
    destruct (accept C n p cb w) as [r w1]. simpl in Hs. apply rtc_once in Hs.
    apply IH; [by eapply settled_steps | pose proof (pending_steps l _ _ Hs); lia].
Qed.

(** With more fuel than there are nodes left to run, the evaluation of a graph
    in which no node is marked [changed] returns or throws. *)
Lemma evaluate_total l fuel n ps w :
  settled l w → pending l w < fuel → ∃ o w', evaluate C fuel n ps w = Some (o, w').
Proof.
  revert n ps w. induction fuel as [|f IH]; intros n ps w Hgood Hlt; [lia|].
  simpl. destruct (source (node w n)) as [src|] eqn:Hsrc; [|eauto].
  destruct (mustReload w n); [eauto|].
  destruct Hgood as [Hch Hin]. rewrite Hch.
  destruct (compilation (node w n)) as [c|] eqn:Hc; [eauto|].
  unfold evaluateUnit.
  assert (pending l (logEvaluator n (upd n initCompilation w)) < pending l w) as Hdec.
  { apply pending_initCompilation; [apply Hin|..]; by rewrite ?Hsrc. }
  assert (rtc (evaluateStep C) w (logEvaluator n (upd n initCompilation w))) as Hs.
  { eapply rtc_l; [apply estep_initCompilation; by rewrite Hsrc|].
    apply rtc_once, estep_logEvaluator. }
  destruct (runUnit_total (evaluate C f) l f n (module (node w n)) ps
              (unitOf C (compiledCode src)) (logEvaluator n (upd n initCompilation w)))
    as (o & w2 & ->).
  - intros. by eapply evaluate_steps.
  - intros. by apply IH.
  - by eapply settled_steps.
  - lia.
  - destruct o as [u|e]; [|eauto].
    destruct (hmrEnabled (node w2 n)) as [| |cb]; eauto.
    destruct (cbThrows cb); eauto.
Qed.

(** Every transpiled node is a cell of the store. *)
Lemma sourced_in_store w r : source (node w r) ≠ None → r ∈ (map_to_list (heap w)).*1.
Proof.
  intros Hs. destruct (heap w !! r) as [t|] eqn:Hr.
  - apply list_elem_of_fmap. exists (r, t). split; [done|]. by apply elem_of_map_to_list.
  - exfalso. apply Hs. unfold node. rewrite lookup_total_alt, Hr. reflexivity.
Qed.

End EvaluateTermination.

(** * The operations, one by one *)

Section OperationFacts.

Variable C : Collaborators.

Implicit Types (w : World) (n r : ref).

Lemma reset_keeps {A} (π : TranspiledModule → A) fuel n w w' :
  notResetState π → reset fuel n w = Some w' → keeps π w w'.
Proof.
  intros (Hch & Hea & Hie & Hc & Hcg & Hs & He & Hw & Hi & Hd & Ha).
  revert n w w'. induction fuel as [|f IH]; intros n w w' Hrun; [discriminate|].
  simpl in Hrun.
  destruct (forEachM (reset f) (childModules (node w n)) w) as [w1|] eqn:Hkids;
    [|discriminate].
  destruct (resetCompilation f n _) as [w4|] eqn:Hrc; [|discriminate].
  destruct (resetTranspilation f n w4) as [w5|] eqn:Hrt; [|discriminate].
  injection Hrun as <-.
  eapply keeps_trans; [eapply keeps_forEachM; [|exact Hkids]; intros x wa wb; apply IH|].
  eapply keeps_trans; [apply keeps_upd; intros; apply Hch|].
  eapply keeps_trans; [apply keeps_upd; intros; apply Hea|].
  eapply keeps_trans; [eapply resetCompilation_keeps; [by split|exact Hrc]|].
  eapply keeps_trans; [eapply resetTranspilation_keeps; [by split_and!|exact Hrt]|].
  apply keeps_upd. intros; apply Hie.
Qed.







End OperationFacts.

(** * Termination of [resetTranspilation] *)

Section ResetTermination.

Implicit Types (w : World) (n r : ref).

(** [resetTranspilation] stores no source. *)
Lemma resetTranspilation_no_new_source fuel n w w' r :
  resetTranspilation fuel n w = Some w' →
  source (node w r) = None → source (node w' r) = None.
Proof.
  revert n w w'. induction fuel as [|f IH]; intros n w w' Hrun Hnone; [discriminate|].
  simpl in Hrun.
  destruct (if hmrOff (hmrEnabled (node w n))
            then forEachM (resetTranspilation f)
                   (keep (hasSource w) (transpilationInitiators (node w n))) w
            else Some w) as [w1|] eqn:Hrec; [|discriminate].
  injection Hrun as <-.
  assert (source (node w1 r) = None) as H1.
  { destruct (hmrOff (hmrEnabled (node w n))); [|by injection Hrec as <-].
    eapply (forEachM_invariant (λ x, source (node x r) = None)); [|exact Hnone|exact Hrec].
    intros x wa wb Ha Hb. eapply IH; eauto. }
  set (w2 := upd n (λ t, setWarnings [] (setErrors [] (setSource None t))) w1).
  assert (source (node w2 r) = None) as H2.
  { unfold w2. rewrite node_upd. by case_decide. }
  rewrite (keeps_upd source n (λ t, setAsyncDependencies [] (setDependencies [] t)) _
             (λ _, eq_refl)).
  destruct (hmrOff (hmrEnabled (node w2 n))); [|exact H2].
  by rewrite (unlinkAll_keeps source n _ w2 (λ _ _, eq_refl)).
Qed.

Lemma resetTranspilation_ranked rank fuel n w w' :
  resetTranspilation fuel n w = Some w' → rankedInitiators rank w → rankedInitiators rank w'.
Proof.
  intros Hrun Hrank a b Hb Hs.
  rewrite (resetTranspilation_keeps transpilationInitiators fuel n w w') in Hb;
    [|by split_and!|done].
  apply Hrank; [exact Hb|]. intros Hnone. apply Hs.
  by eapply resetTranspilation_no_new_source.
Qed.

(** With more fuel than the rank of the node, [resetTranspilation] returns. *)
Lemma resetTranspilation_total rank fuel n w :
  rankedInitiators rank w → rank n < fuel → ∃ w', resetTranspilation fuel n w = Some w'.
Proof.
  revert n w. induction fuel as [|f IH]; intros n w Hrank Hlt; [lia|].
  simpl.
  assert (∀ l wa, rankedInitiators rank wa → (∀ x, x ∈ l → rank x < f) →
            ∃ wb, forEachM (resetTranspilation f) l wa = Some wb) as Hloop.
  { induction l as [|x l IHl]; intros wa Ha Hl; simpl; [eauto|].
    destruct (IH x wa Ha) as [wx Hx]; [apply Hl; by left|].
    rewrite Hx. apply IHl.
    - by eapply resetTranspilation_ranked.
    - intros y Hy. apply Hl. by right. }
  destruct (hmrOff (hmrEnabled (node w n))); [|eauto].
  destruct (Hloop (keep (hasSource w) (transpilationInitiators (node w n))) w Hrank)
    as [w1 ->]; [|eauto].
  intros x Hx. unfold keep in Hx. apply list_elem_of_filter in Hx as [Hsrc Hin].
  assert (rank x < rank n); [|lia].
  apply (Hrank n x Hin). unfold hasSource in Hsrc. by destruct (source (node w x)).
Qed.

End ResetTermination.

(** * The claims about [transpile] and [evaluate] *)

Section TranspileClaims.

Variable C : Collaborators.

(** A transpile that returns has stored the node's source. *)
Lemma transpile_returned_source fuel n w u w' :
  transpile C fuel n w = Some (Returned u, w') → source (node w' n) ≠ None.
Proof.
  destruct fuel as [|f]; [discriminate|]. simpl.
  destruct (source (node w n)) as [src|] eqn:Hsrc.
  { intros [= _ <-]. by rewrite Hsrc. }
  destruct (match requires (module (node (clearForTranspile n w) n)) with
            | Some _ => _ | None => _ end) as [[[[c sm]|e] w3]|]; [| |discriminate].
  - set (w4 := upd n (setSource _) w3).
    assert (source (node w4 n) ≠ None) as H4 by (unfold w4; by rewrite node_upd_eq).
    destruct (awaitAsyncDependencies n (asyncDependencies (node w4 n)) w4) as [w5|] eqn:Ha;
      [|discriminate].
    apply awaitAsyncDependencies_steps with (C := C) in Ha.
    set (w6 := upd n (setAsyncDependencies []) w5).
    assert (rtc (transpileStep C) w4 w6) as H6.
    { eapply rtc_r; [exact Ha | apply step_clearAsync]. }
    destruct (transpileAll (transpile C f) (transpilationInitiators (node w6 n)) w6)
      as [[[u1|e] w7]|] eqn:Hti; [| |discriminate].
    + intros Hdeps.
      apply transpileAll_trace with (C := C) in Hti; [|intros; by eapply transpile_trace].
      apply transpileAll_trace with (C := C) in Hdeps; [|intros; by eapply transpile_trace].
      simpl in Hti, Hdeps.
      apply (rtc_transpileStep_sourcesStay C w4 w'); [|exact H4].
      etrans; [exact H6|]. by etrans.
    + discriminate.
  - discriminate.
Qed.

End TranspileClaims.

(** C4. [transpile] is idempotent while [source] is set: on a node whose
    source is non-null the call returns at once, invokes no transformer and
    leaves the whole graph as it was; and a second call, straight after a call
    that returned, is such a call. *)
Theorem transpile_idempotent (C : Collaborators) (fuel : nat) (n : ref) (w : World) :
  (∀ src, source (node w n) = Some src →
     transpile C (S fuel) n w = Some (Returned tt, w))
  ∧ (∀ w', transpile C (S fuel) n w = Some (Returned tt, w') →
       transpile C (S fuel) n w' = Some (Returned tt, w')).
Proof.
  split.
  - intros src Hsrc. simpl. by rewrite Hsrc.
  - intros w' Hfirst. apply transpile_returned_source in Hfirst.
    simpl. by destruct (source (node w' n)).
Qed.

(** The transpiled example graph: a second [transpile] of [/a.js] changes
    nothing, and the two transformer runs of the first walk stay the only
    ones. *)
Lemma transpile_idempotent_witness :
  transpile demo 3 0 transpiledGraph = Some (Returned tt, transpiledGraph)
  ∧ transpilerCalls transpiledGraph = [(0, "babel"); (1, "babel")].
Proof.
  split; [|by vm_compute].
  apply (proj1 (transpile_idempotent demo 2 0 transpiledGraph)
           {| srcFileName := "/a.js";
              compiledCode := sourceURL demo (code fileA) "/a.js";
              sourceMap := None |}).
  by vm_compute.
Defined.

Section EvaluateClaims.

Variable C : Collaborators.

Lemma evaluate_cached fuel n ps w src c :
  source (node w n) = Some src → compilation (node w n) = Some c →
  changed (node w n) = false →
  evaluate C (S fuel) n ps w = Some (Returned (exports c), w).
Proof.
  intros Hs Hc Hch. simpl. rewrite Hs.
  assert (mustReload w n = false) as ->.
  { unfold mustReload, hasCompilation. rewrite Hc. simpl. by rewrite andb_false_r. }
  by rewrite Hc, Hch.
Qed.



End EvaluateClaims.

(** C5 (as amended). On a node whose source is non-null, whose compilation is
    non-null and whose [changed] is false, [evaluate] returns the exports of
    that compilation and leaves everything as it was: the evaluator is not
    invoked and nothing is required. A node that is entered again while its
    unit runs is such a node, and so the evaluation of a graph, cyclic or not,
    in which no node is marked [changed] comes to an end. *)
Theorem evaluate_returns_cached_exports (C : Collaborators) (n : ref)
  (parentModules : list ref) (w : World) :
  (∀ fuel src c,
     source (node w n) = Some src → compilation (node w n) = Some c →
     changed (node w n) = false →
     evaluate C (S fuel) n parentModules w = Some (Returned (exports c), w))
  ∧ ((∀ r, changed (node w r) = false) →
     ∃ fuel o w', evaluate C fuel n parentModules w = Some (o, w')).
Proof.
  split.
  - intros fuel src c. apply evaluate_cached.
  - intros Hch. exists (S (pending (map_to_list (heap w)).*1 w)).
    apply (evaluate_total C (map_to_list (heap w)).*1); [|lia].
    split; [exact Hch|]. intros r. apply sourced_in_store.
Qed.

(** The two files that require each other: the evaluation of [/a.js] ends with
    [a.b = 2], and a further [evaluate] of the evaluated node returns the
    cached exports. *)
Lemma evaluate_returns_cached_exports_witness :
  fst <$> evaluate demo 3 0 [] transpiledGraph
    = Some (Returned (VObj [("a", PNum 1); ("b", PNum 2)]))
  ∧ evaluate demo 1 0 [] evaluatedGraph
    = Some (Returned (VObj [("a", PNum 1); ("b", PNum 2)]), evaluatedGraph).
Proof.
  split; [by vm_compute|].
  apply (proj1 (evaluate_returns_cached_exports demo 0 [] evaluatedGraph) 0
           {| srcFileName := "/a.js";
              compiledCode := sourceURL demo (code fileA) "/a.js";
              sourceMap := None |}
           {| exports := VObj [("a", PNum 1); ("b", PNum 2)] |});
    by vm_compute.
Defined.

(** C5 as stated fails on a node without source: after [resetTranspilation()]
    the evaluated node 0 has its compilation, [changed] is false, and
    [evaluate] throws instead of returning the cached exports. *)
Lemma evaluate_cached_needs_source :
  ∃ c, compilation (node staleGraph 0) = Some c
       ∧ changed (node staleGraph 0) = false
       ∧ evaluate demo 1 0 [] staleGraph
         = Some (Threw (Error "/a.js hasn't been transpiled yet."), staleGraph).
Proof.
  exists {| exports := VObj [("a", PNum 1); ("b", PNum 2)] |}.
  split_and!; by vm_compute.
Qed.

(** C7 (as amended). Under HMR, [evaluate] on a node that has a source, is an
    entry, has no compilation and has [hmrEnabled] unset requests a page
    reload and returns an empty export record; in every other case the call
    adds no reload request for the node. *)
Theorem evaluate_reloads_unaccepted_entry (C : Collaborators) (fuel : nat) (n : ref)
  (parentModules : list ref) (w : World) :
  webpackHMR w = true →
  (source (node w n) ≠ None → isEntry (node w n) = true →
   compilation (node w n) = None → hmrEnabled (node w n) = HmrUnset →
   evaluate C (S fuel) n parentModules w = Some (Returned emptyObject, logReload n w))
  ∧ (¬ (source (node w n) ≠ None ∧ isEntry (node w n) = true
        ∧ compilation (node w n) = None ∧ hmrEnabled (node w n) = HmrUnset) →
     ∀ o w', evaluate C (S fuel) n parentModules w = Some (o, w') →
       filter (λ x, x = n) (reloads w') = filter (λ x, x = n) (reloads w)).
Proof.
  intros Hhmr. split.
  - intros Hs He Hc Hh. simpl. destruct (source (node w n)); [|done].
    unfold mustReload, hasCompilation. by rewrite Hhmr, Hc, He, Hh.
  - intros Hnot o w'. simpl.
    destruct (source (node w n)) as [src|] eqn:Hsrc; [|by intros [= _ <-]].
    destruct (mustReload w n) eqn:Hreload.
    { exfalso. apply Hnot. pose proof (mustReload_no_compilation _ _ Hreload).
      unfold mustReload in Hreload.
      apply andb_prop in Hreload as [Hreload Hoff].
      apply andb_prop in Hreload as [_ Hentry].
      split_and!; try done. by destruct (hmrEnabled (node w n)). }
    assert (evaluateUnit C (evaluate C fuel) n src (module (node w n)) parentModules w
            = Some (o, w') →
            filter (λ x, x = n) (reloads w') = filter (λ x, x = n) (reloads w)) as Hrun.
    { intros Hu.
      apply evaluateUnit_steps in Hu; [|intros; by eapply evaluate_steps|by rewrite Hsrc].
      apply (rtc_evaluateStep_reloads C _ _ n) in Hu; [exact Hu|].
      by rewrite node_logEvaluator, node_upd_eq. }
    destruct (compilation (node w n)) as [c|]; [destruct (changed (node w n))|].
    + exact Hrun.
    + by intros [= _ <-].
    + exact Hrun.
Qed.

(** The transpiled entry [/a.js] under HMR, not yet evaluated: a reload is
    requested. *)
Lemma evaluate_reloads_unaccepted_entry_witness :
  evaluate demo 1 0 [] hmrTranspiledGraph
  = Some (Returned emptyObject, logReload 0 hmrTranspiledGraph).
Proof.
  apply (proj1 (evaluate_reloads_unaccepted_entry demo 0 0 [] hmrTranspiledGraph eq_refl));
    by vm_compute.
Defined.

(** C7 as stated fails on an entry that has not been transpiled: under HMR,
    with no compilation and [hmrEnabled] unset, [evaluate] throws; it requests
    no reload and returns no export record. *)
Lemma evaluate_reload_needs_source :
  webpackHMR hmrFreshGraph = true
  ∧ isEntry (node hmrFreshGraph 0) = true
  ∧ compilation (node hmrFreshGraph 0) = None
  ∧ hmrEnabled (node hmrFreshGraph 0) = HmrUnset
  ∧ evaluate demo 1 0 [] hmrFreshGraph
    = Some (Threw (Error "/a.js hasn't been transpiled yet."), hmrFreshGraph)
  ∧ reloads hmrFreshGraph = [].
Proof. split_and!; by vm_compute. Qed.



(** * The invariants of the graph *)

Section ExampleGraphs.

Implicit Types (w : World) (n : ref).











End ExampleGraphs.







(** * Errors of the loader chain *)

Section LoaderErrors.

Variable C : Collaborators.

Implicit Types (w : World) (n : ref).


Lemma clearForTranspile_keeps {A} (π : TranspiledModule → A) n w :
  (∀ v t, π (setWarnings v t) = π t) → (∀ v t, π (setErrors v t) = π t) →
  (∀ v t, π (setDependencies v t) = π t) → (∀ v t, π (setInitiators v t) = π t) →
  keeps π w (clearForTranspile n w).
Proof.
  intros Hw He Hd Hi. unfold clearForTranspile.
  eapply keeps_trans; [by apply unlinkAll_keeps|].
  apply keeps_upd. intros. by rewrite Hw, He, Hd.
Qed.

(** The two ways in which the [try] block of a transformer ends in a throw:
    the transformer's promise is rejected, or it is fulfilled and
    [this.errors] is not empty, in which case the first recorded error is
    thrown. *)
Lemma tryTranspiler_threw n cfg c w e wf :
  tryTranspiler C n cfg c w = (Threw e, wf) →
  runLoader C n (transpilerRun cfg c (path (module (node w n))))
    (logTranspiler n (transpilerName cfg) w) = (Threw e, wf)
  ∨ ∃ first others, errors (node wf n) = first :: others ∧ e = thrownModuleError first.
Proof.
  unfold tryTranspiler.
  destruct (runLoader C n _ _) as [[[tc tsm]|e0] w1]; [|intros [= <- <-]; by left].
  set (w2 := match warnings (node w1 n) with [] => w1 | ws => logWarnings ws w1 end).
  destruct (errors (node w2 n)) as [|first others] eqn:He; [discriminate|].
  intros [= <- <-]. right. eauto.
Qed.

End LoaderErrors.

(** * Serialization *)

Section SerializationFacts.

Implicit Types (w : World) (n : ref).

(** [load] writes every edge set but [transpilationInitiators]. *)
Lemma load_keeps_transpilationInitiators n data state w w' :
  load n data state w = Some w' → keeps transpilationInitiators w w'.
Proof.
  unfold load.
  destruct (lookupAll state (s_dependencies data)); [|discriminate].
  destruct (lookupAll state (s_childModules data)); [|discriminate].
  destruct (lookupAll state (s_initiators data)); [|discriminate].
  destruct (lookupAll state (s_transpilationDependencies data)); [|discriminate].
  destruct (lookupAll state (s_asyncDependencies data)); [|discriminate].
  intros [= <-]. eapply keeps_trans; by apply keeps_upd.
Qed.

(** The reactions that [serialize] leaves in the job queue, once run, push the
    ids of the fulfilled promises, in their order, and nothing else. *)
Lemma drainMicrotasks_asyncDependencies w jobs o :
  s_asyncDependencies (drainMicrotasks w jobs o)
  = s_asyncDependencies o ++ ((λ job, match job with PushIdOf x => getId (node w x) end) <$> jobs).
Proof.
  revert o. induction jobs as [|[x] jobs IH]; intros o; simpl.
  - by rewrite app_nil_r.
  - unfold drainMicrotasks in *. simpl. rewrite IH. simpl. by rewrite <-app_assoc.
Qed.

End SerializationFacts.

(** C3, at the failing input. [/a.js] has [/b.js] as a transpilation
    dependency and [/b.js] has [/a.js] as a transpilation initiator; the graph
    is serialized and restored by a new manager. The restored [/a.js] has its
    transpilation dependency; the restored [/b.js] has no transpilation
    initiator. *)
Lemma roundtrip_drops_transpilationInitiators :
  idsOf linkedGraph (transpilationInitiators (nodeById linkedGraph "/b.js:")) = ["/a.js:"]
  ∧ deserialize (serializeGraph linkedGraph) emptyWorld = Some restoredGraph
  ∧ idsOf restoredGraph (transpilationDependencies (nodeById restoredGraph "/a.js:"))
    = ["/b.js:"]
  ∧ idsOf restoredGraph (transpilationInitiators (nodeById restoredGraph "/b.js:")) = [].
Proof. split_and!; vm_compute; reflexivity. Qed.

(** C8, at the failing input. Of the three downloads registered on [/a.js]
    one has resolved to [/b.js]. The record that [serialize] returns has an
    empty [asyncDependencies]; the id of [/b.js] is in that array only after
    the reactions left in the job queue have run. *)
Lemma serialize_returns_empty_asyncDependencies :
  asyncDependencies (node downloadingGraph 0)
  = [Fulfilled 1; Rejected (notFound "left-pad"); Pending]
  ∧ s_asyncDependencies (serialize downloadingGraph 0).1 = []
  ∧ s_asyncDependencies
      (drainMicrotasks downloadingGraph (serialize downloadingGraph 0).2
         (serialize downloadingGraph 0).1) = ["/b.js:"].
Proof. split_and!; vm_compute; reflexivity. Qed.

(** * The compile-request queue *)

Section QueueFacts.

Implicit Types (q : Queue) (data : Arguments).

Lemma assignFirst_short data ts :
  length ts ≤ 1 → assignFirst data ts = [data].
Proof. destruct ts as [|x [|y ts]]; simpl; intros; try reflexivity; lia. Qed.

Lemma executeTaskIfAvailable_oneSlot q :
  length (tasks q) ≤ 1 → compiling q = [] → oneSlot (executeTaskIfAvailable q).
Proof.
  intros Hlen Hc. unfold executeTaskIfAvailable, oneSlot.
  destruct (tasks q) as [|t [|t' ts]] eqn:Ht; simpl in *; try lia.
  - rewrite Ht, Hc. split_and!; simpl; auto.
  - rewrite Hc. split_and!; simpl; auto. discriminate.
Qed.

Lemma step_oneSlot ev q q' : oneSlot q → step ev q = Some q' → oneSlot q'.
Proof.
  intros (Ht & Hc & Hidle) Hstep. destruct ev as [data| |]; simpl in Hstep.
  - injection Hstep as <-. unfold queueTask; simpl.
    destruct (runningTask q) eqn:Hr.
    + unfold oneSlot; simpl. rewrite assignFirst_short by assumption.
      split_and!; simpl; auto. discriminate.
    + destruct Hidle as [Hts Hcs]; [reflexivity|].
      apply executeTaskIfAvailable_oneSlot; simpl.
      * rewrite Hts. simpl. lia.
      * assumption.
  - destruct (compiling q) as [|c others] eqn:Hcq; [discriminate|].
    injection Hstep as <-. simpl in Hc.
    apply executeTaskIfAvailable_oneSlot; simpl; [assumption|].
    destruct others; [reflexivity | simpl in Hc; lia].
  - destruct (compiling q) as [|c others] eqn:Hcq; [discriminate|].
    injection Hstep as <-. simpl in Hc.
    assert (others = []) as -> by (destruct others; [reflexivity | simpl in Hc; lia]).
    unfold oneSlot; simpl. split_and!; auto.
    intros Hr. destruct (Hidle Hr) as [_ ?]. discriminate.
Qed.

Lemma run_oneSlot evs q q' : oneSlot q → run evs q = Some q' → oneSlot q'.
Proof.
  revert q. induction evs as [|ev evs IH]; intros q Hq Hrun; simpl in Hrun.
  - by injection Hrun as <-.
  - destruct (step ev q) as [q1|] eqn:Hstep; [|discriminate].
    eapply IH; [|exact Hrun]. eapply step_oneSlot; eauto.
Qed.

Lemma initialQueue_oneSlot : oneSlot initialQueue.
Proof. repeat split; simpl; auto. Qed.

Lemma step_started ev q q' task :
  oneSlot q → step ev q = Some q' → started q' = started q ++ [task] →
  compiling q' = [task].
Proof.
  intros Hq Hstep Hst. pose proof (step_oneSlot _ _ _ Hq Hstep) as (_ & Hc' & _).
  destruct Hq as (Ht & Hc & Hidle).
  assert (∀ q0, compiling q0 = [] → started (executeTaskIfAvailable q0) = started q0 ++ [task] →
               compiling (executeTaskIfAvailable q0) = [task]) as Hexec.
  { intros q0 Hc0. unfold executeTaskIfAvailable.
    destruct (rev (tasks q0)) as [|t before]; simpl.
    - intros Heq. apply (f_equal length) in Heq. rewrite length_app in Heq. simpl in Heq. lia.
    - intros Heq. apply app_inv_head in Heq. injection Heq as ->. by rewrite Hc0. }
  destruct ev as [data| |]; simpl in Hstep.
  - injection Hstep as <-. unfold queueTask in *; simpl in *.
    destruct (runningTask q) eqn:Hr.
    + simpl in Hst. apply (f_equal length) in Hst. rewrite length_app in Hst. simpl in Hst. lia.
    + apply Hexec; [|exact Hst]. simpl. by destruct (Hidle eq_refl).
  - destruct (compiling q) as [|c others] eqn:Hcq; [discriminate|].
    injection Hstep as <-. apply Hexec; [|exact Hst]. simpl.
    destruct others; [reflexivity | simpl in Hc; lia].
  - destruct (compiling q) as [|c others] eqn:Hcq; [discriminate|].
    injection Hstep as <-. simpl in Hst.
    apply (f_equal length) in Hst. rewrite length_app in Hst. simpl in Hst. lia.
Qed.

End QueueFacts.

(** C9. The compile-request queue holds one slot. In every state that a
    sequence of requests and settlements can lead to: the list of pending tasks
    has at most one element; at most one call of [compile] has been started
    and has not settled; a request that arrives while [runningTask] is set
    becomes the one pending task, whatever was pending before, and starts
    nothing; and whenever a step starts a task, that task is the only one
    being compiled after the step. *)
Theorem queue_holds_one_slot (evs : list Event) (q : Queue) :
  run evs initialQueue = Some q →
  length (tasks q) ≤ 1
  ∧ length (compiling q) ≤ 1
  ∧ (∀ data, runningTask q = true →
       tasks (queueTask data q) = [data]
       ∧ compiling (queueTask data q) = compiling q
       ∧ started (queueTask data q) = started q)
  ∧ (∀ ev q' task, step ev q = Some q' → started q' = started q ++ [task] →
       compiling q' = [task]).
Proof.
  intros Hrun.
  pose proof (run_oneSlot _ _ _ initialQueue_oneSlot Hrun) as Hq.
  destruct Hq as (Ht & Hc & Hidle).
  split; [exact Ht|]. split; [exact Hc|]. split.
  - intros data Hr. unfold queueTask; simpl. rewrite Hr.
    simpl. by rewrite assignFirst_short.
  - intros ev q' task. apply step_started. unfold oneSlot. auto.
Qed.

(** Two requests arrive while the first is being compiled; the first compile
    then resolves. *)
Lemma queue_holds_one_slot_witness :
  run [Queued (request "/a.js"); Queued (request "/b.js"); Queued (request "/c.js");
       CompileResolved] initialQueue
  = Some {| tasks := []; runningTask := true; compiling := [request "/c.js"];
            started := [request "/a.js"; request "/c.js"] |}
  ∧ length (compiling {| tasks := []; runningTask := true; compiling := [request "/c.js"];
            started := [request "/a.js"; request "/c.js"] |}) ≤ 1.
Proof.
  split; [reflexivity|].
  exact (proj1 (proj2 (queue_holds_one_slot
    [Queued (request "/a.js"); Queued (request "/b.js"); Queued (request "/c.js");
     CompileResolved] _ eq_refl))).
Defined.

(** * More on the compile-request queue *)

Section QueueMore.

Implicit Types (q : Queue) (data : Arguments).

Lemma run_app evs1 evs2 q :
  run (evs1 ++ evs2) q = match run evs1 q with Some q1 => run evs2 q1 | None => None end.
Proof.
  revert q. induction evs1 as [|ev evs1 IH]; intros q; simpl; [done|].
  destruct (step ev q); [apply IH | done].
Qed.

(** Requests that arrive while a compile runs only replace the pending task. *)
Lemma run_queued_while_running ds q :
  runningTask q = true → length (tasks q) ≤ 1 →
  run (Queued <$> ds) q
  = Some {| tasks := match reverse ds with [] => tasks q | d :: _ => [d] end;
            runningTask := true; compiling := compiling q; started := started q |}.
Proof.
  revert q. induction ds as [|d ds IH]; intros q Hr Hlen; simpl.
  - destruct q; simpl in *. by rewrite Hr.
  - unfold queueTask; simpl. rewrite Hr. rewrite IH; simpl; [|done|].
    + rewrite reverse_cons. rewrite assignFirst_short by done.
      destruct (reverse ds) as [|d' rest]; simpl; reflexivity.
    + rewrite assignFirst_short by done. simpl. lia.
Qed.

End QueueMore.

(** X1. The latest request wins. While a compile is running, any number of
    requests may arrive; when the compile resolves, the task that is started
    is the last request that arrived, and the requests before it are never
    started. *)
Theorem queue_latest_request_wins (evs : list Event) (q : Queue) (ds : list Arguments)
  (d : Arguments) :
  run evs initialQueue = Some q →
  compiling q ≠ [] →
  run ((Queued <$> ds) ++ [Queued d; CompileResolved]) q
  = Some {| tasks := []; runningTask := true; compiling := [d];
            started := started q ++ [d] |}.
Proof.
  intros Hrun Hc.
  destruct (run_oneSlot _ _ _ initialQueue_oneSlot Hrun) as (Ht & Hlen & Hidle).
  assert (runningTask q = true) as Hr.
  { destruct (runningTask q); [done|]. by destruct Hidle. }
  destruct (compiling q) as [|c [|c' cs]] eqn:Hcq; [done| |simpl in Hlen; lia].
  rewrite run_app, run_queued_while_running by done. simpl.
  unfold queueTask; simpl.
  assert (∀ ts, length ts ≤ 1 → assignFirst d ts = [d]) as Ha
    by (intros; by apply assignFirst_short).
  rewrite Ha; [|destruct (reverse ds); simpl; [exact Ht | lia]].
  rewrite Hcq. reflexivity.
Qed.

(** Three requests during the first compile: the third is the next to run. *)
Lemma queue_latest_request_wins_witness :
  run ((Queued <$> [request "/b.js"; request "/c.js"])
       ++ [Queued (request "/d.js"); CompileResolved])
    {| tasks := []; runningTask := true; compiling := [request "/a.js"];
       started := [request "/a.js"] |}
  = Some {| tasks := []; runningTask := true; compiling := [request "/d.js"];
            started := [request "/a.js"] ++ [request "/d.js"] |}.
Proof.
  apply (queue_latest_request_wins [Queued (request "/a.js")]
           {| tasks := []; runningTask := true; compiling := [request "/a.js"];
              started := [request "/a.js"] |}
           [request "/b.js"; request "/c.js"] (request "/d.js")).
  - reflexivity.
  - discriminate.
Defined.

(** X2. A rejected compile blocks the queue. When the awaited [compile]
    rejects, [runningTask] is left set: from then on no request is ever handed
    to [compile], whatever arrives. *)
Theorem queue_rejected_compile_blocks (evs evs' : list Event) (q q1 q2 : Queue) :
  run evs initialQueue = Some q →
  step CompileRejected q = Some q1 →
  run evs' q1 = Some q2 →
  started q2 = started q1 ∧ compiling q2 = [] ∧ runningTask q2 = true.
Proof.
  intros Hrun Hrej Hrest.
  destruct (run_oneSlot _ _ _ initialQueue_oneSlot Hrun) as (Ht & Hlen & Hidle).
  simpl in Hrej. destruct (compiling q) as [|c cs] eqn:Hcq; [discriminate|].
  injection Hrej as <-.
  assert (runningTask q = true) as Hr.
  { destruct (runningTask q); [done|]. by destruct Hidle. }
  assert (cs = []) as -> by (destruct cs; [done | simpl in Hlen; lia]).
  assert (∀ evs0 qa qb,
            compiling qa = [] → runningTask qa = true → run evs0 qa = Some qb →
            started qb = started qa ∧ compiling qb = [] ∧ runningTask qb = true) as Hstuck.
  { induction evs0 as [|ev evs0 IH]; intros qa qb Hca Hra; simpl.
    - by intros [= <-].
    - destruct ev as [data| |]; simpl.
      + unfold queueTask; simpl. rewrite Hra. intros Hq.
        apply IH in Hq; simpl in *; auto.
      + by rewrite Hca.
      + by rewrite Hca. }
  apply (Hstuck evs' _ q2) in Hrest; simpl in *; auto.
Qed.

(** The first compile rejects; two more requests arrive and nothing is
    started. *)
Lemma queue_rejected_compile_blocks_witness :
  started {| tasks := [request "/c.js"]; runningTask := true; compiling := [];
             started := [request "/a.js"] |}
  = started {| tasks := []; runningTask := true; compiling := [];
               started := [request "/a.js"] |}
  ∧ @nil Arguments = [] ∧ true = true.
Proof.
  apply (queue_rejected_compile_blocks [Queued (request "/a.js")]
           [Queued (request "/b.js"); Queued (request "/c.js")]
           {| tasks := []; runningTask := true; compiling := [request "/a.js"];
              started := [request "/a.js"] |}
           {| tasks := []; runningTask := true; compiling := [];
              started := [request "/a.js"] |}
           {| tasks := [request "/c.js"]; runningTask := true; compiling := [];
              started := [request "/a.js"] |}); reflexivity.
Defined.

Section QueueOrder.

Implicit Types (q : Queue) (data : Arguments).

Lemma step_sublist ev q q' reqs :
  oneSlot q → step ev q = Some q' →
  sublist (started q ++ tasks q) reqs →
  sublist (started q' ++ tasks q') (reqs ++ requestsOf [ev]).
Proof.
  intros (Ht & Hc & Hidle) Hstep Hsub.
  assert (sublist (started q) reqs) as Hsub0.
  { etrans; [|exact Hsub]. apply sublist_inserts_r. done. }
  assert (∀ q0, started q0 = started q → length (tasks q0) ≤ 1 →
            started (executeTaskIfAvailable q0) ++ tasks (executeTaskIfAvailable q0)
            = started q ++ tasks q0) as Hexec.
  { intros q0 Hs0 Hl0. unfold executeTaskIfAvailable.
    destruct (tasks q0) as [|t [|t' ts]] eqn:Ht0; simpl in *; try lia.
    - by rewrite Ht0, Hs0.
    - by rewrite Hs0, app_nil_r. }
  destruct ev as [data| |]; simpl in Hstep.
  - injection Hstep as <-. unfold queueTask. cbn [runningTask].
    assert (sublist (started q ++ [data]) (reqs ++ [data])) as Hgoal
      by (by apply sublist_app).
    rewrite assignFirst_short by done.
    destruct (runningTask q); [exact Hgoal|].
    rewrite Hexec; [exact Hgoal | done | simpl; lia].
  - destruct (compiling q) as [|c others]; [discriminate|]. injection Hstep as <-.
    rewrite Hexec; [|done|done]. simpl. by rewrite app_nil_r.
  - destruct (compiling q) as [|c others]; [discriminate|]. injection Hstep as <-.
    simpl. by rewrite app_nil_r.
Qed.

Lemma run_sublist evs q q' reqs :
  oneSlot q → run evs q = Some q' →
  sublist (started q ++ tasks q) reqs →
  sublist (started q' ++ tasks q') (reqs ++ requestsOf evs).
Proof.
  revert q reqs. induction evs as [|ev evs IH]; intros q reqs Hq Hrun Hsub; simpl in Hrun.
  - injection Hrun as <-. by rewrite app_nil_r.
  - destruct (step ev q) as [q1|] eqn:Hstep; [|discriminate].
    change (ev :: evs) with ([ev] ++ evs). unfold requestsOf. rewrite omap_app, app_assoc.
    eapply IH; [by eapply step_oneSlot|exact Hrun|].
    by eapply step_sublist.
Qed.

End QueueOrder.

(** X3. [compile] is only handed requests that were made, in the order in
    which they arrived, and each request at most once: the tasks started so
    far, followed by the pending one, are a subsequence of the requests. *)
Theorem queue_starts_requests_in_order (evs : list Event) (q : Queue) :
  run evs initialQueue = Some q →
  sublist (started q ++ tasks q) (requestsOf evs).
Proof.
  intros Hrun.
  apply (run_sublist evs initialQueue q [] initialQueue_oneSlot Hrun). simpl. constructor.
Qed.

(** Four requests of which the first and the last are started. *)
Lemma queue_starts_requests_in_order_witness :
  sublist
    (started {| tasks := []; runningTask := true; compiling := [request "/d.js"];
                started := [request "/a.js"; request "/d.js"] |}
     ++ tasks {| tasks := []; runningTask := true; compiling := [request "/d.js"];
                 started := [request "/a.js"; request "/d.js"] |})
    (requestsOf [Queued (request "/a.js"); Queued (request "/b.js"); Queued (request "/c.js");
                 Queued (request "/d.js"); CompileResolved]).
Proof.
  apply (queue_starts_requests_in_order
           [Queued (request "/a.js"); Queued (request "/b.js"); Queued (request "/c.js");
            Queued (request "/d.js"); CompileResolved]).
  reflexivity.
Defined.

(** * More on [resetTranspilation] *)

Section ResetTranspilationMore.

Implicit Types (w : World) (n r x y : ref).

(** The nodes of a store of two cells. *)
Lemma node_worldOf2 (a b : TranspiledModule) r :
  node (worldOf [(0, a); (1, b)]) r
  = match r with 0 => a | 1 => b | _ => newTranspiledModule blankModule "" end.
Proof.
  unfold node, worldOf. cbn [heap list_to_map foldr fst snd curry fmap list_fmap].
  rewrite lookup_total_alt.
  destruct r as [|[|r]].
  - by rewrite lookup_insert_eq.
  - by rewrite lookup_insert_ne, lookup_insert_eq.
  - by rewrite !lookup_insert_ne, lookup_empty.
Qed.

(** The source of every node after [resetTranspilation], from the graph that
    the calls on the transpilation initiators have left. *)
Lemma resetTranspilation_source f n w w' :
  resetTranspilation (S f) n w = Some w' →
  ∃ w1,
    (if hmrOff (hmrEnabled (node w n))
     then forEachM (resetTranspilation f)
            (keep (hasSource w) (transpilationInitiators (node w n))) w
     else Some w) = Some w1
    ∧ ∀ r, source (node w' r) = if decide (r = n) then None else source (node w1 r).
Proof.
  intros Hrun. simpl in Hrun.
  destruct (if hmrOff (hmrEnabled (node w n))
            then forEachM (resetTranspilation f)
                   (keep (hasSource w) (transpilationInitiators (node w n))) w
            else Some w) as [w1|] eqn:Hrec; [|discriminate].
  injection Hrun as <-. exists w1. split; [done|]. intros r.
  set (w2 := upd n (λ t, setWarnings [] (setErrors [] (setSource None t))) w1).
  rewrite (keeps_upd source n (λ t, setAsyncDependencies [] (setDependencies [] t)) _
             (λ _, eq_refl)).
  assert (source (node w2 r) = if decide (r = n) then None else source (node w1 r)) as H2.
  { unfold w2. rewrite node_upd. repeat case_decide; (done || congruence). }
  destruct (hmrOff (hmrEnabled (node w2 n))); [|exact H2].
  by rewrite (unlinkAll_keeps source n _ w2 (λ _ _, eq_refl)).
Qed.

Lemma forEachM_resetTranspilation_no_new_source f l w w' r :
  forEachM (resetTranspilation f) l w = Some w' →
  source (node w r) = None → source (node w' r) = None.
Proof.
  intros Hl Hr.
  eapply (forEachM_invariant (λ wa, source (node wa r) = None)); [|exact Hr|exact Hl].
  intros x wa wb Ha Hb. by eapply resetTranspilation_no_new_source.
Qed.

Lemma initiatorCycle_loops (S : ref → Prop) fuel n w :
  initiatorCycle S w →
  (S n → resetTranspilation fuel n w = None)
  ∧ (∀ w', resetTranspilation fuel n w = Some w' → initiatorCycle S w').
Proof.
  revert n w. induction fuel as [|f IH]; intros n w Hcyc; [split; [done|discriminate]|].
  assert (∀ l wa, initiatorCycle S wa →
            (∀ wb, forEachM (resetTranspilation f) l wa = Some wb → initiatorCycle S wb)
            ∧ ((∃ s, S s ∧ s ∈ l) → forEachM (resetTranspilation f) l wa = None)) as Hloop.
  { induction l as [|x l IHl]; intros wa Ha; simpl.
    - split; [by intros wb [= <-]|]. intros (s & _ & Hs). by apply elem_of_nil in Hs.
    - destruct (IH x wa Ha) as [Hx1 Hx2].
      destruct (resetTranspilation f x wa) as [wx|] eqn:Hx; [|done].
      destruct (IHl wx (Hx2 wx eq_refl)) as [Hl1 Hl2]. split; [exact Hl1|].
      intros (s & HS & Hs). apply elem_of_cons in Hs as [->|Hs].
      + by specialize (Hx1 HS).
      + apply Hl2. eauto. }
  assert (S n → resetTranspilation (Datatypes.S f) n w = None) as Hnone.
  { intros Hn. destruct (Hcyc n Hn) as (Hoff & _ & s' & HS' & Hin).
    simpl. rewrite Hoff. simpl.
    destruct (Hloop (keep (hasSource w) (transpilationInitiators (node w n))) w Hcyc)
      as [_ ->]; [done|].
    exists s'. split; [done|]. unfold keep. apply list_elem_of_filter. split; [|done].
    apply hasSource_true. by destruct (Hcyc s' HS') as (_ & ? & _). }
  split; [exact Hnone|].
  intros w' Hrun.
  assert (¬ S n) as Hn by (intros Hn; by rewrite (Hnone Hn) in Hrun).
  destruct (resetTranspilation_source f n w w' Hrun) as (w1 & Hrec & Hsrc).
  assert (initiatorCycle S w1) as Hcyc1.
  { destruct (hmrOff (hmrEnabled (node w n))).
    - destruct (Hloop (keep (hasSource w) (transpilationInitiators (node w n))) w Hcyc)
        as [H1 _]. by apply H1.
    - by injection Hrec as <-. }
  assert (initiatorCycle S w) as Hcyc0 by done.
  intros s Hs. destruct (Hcyc s Hs) as (Hoff & _ & s' & HS' & Hin).
  rewrite (resetTranspilation_keeps hmrEnabled (Datatypes.S f) n w w');
    [|by split_and!|done].
  rewrite (resetTranspilation_keeps transpilationInitiators (Datatypes.S f) n w w');
    [|by split_and!|done].
  split_and!; [done| |eauto].
  rewrite Hsrc. case_decide; [by subst s|]. by destruct (Hcyc1 s Hs) as (_ & ? & _).
Qed.

(** What the calls on the transpiled transpilation initiators leave. *)
Lemma resetTranspilation_reaches fuel n w w' :
  hmrFree w → resetTranspilation fuel n w = Some w' →
  (∀ y, y ∈ transpilationInitiators (node w n) → source (node w' y) = None)
  ∧ (∀ x y, source (node w x) ≠ None → source (node w' x) = None →
            y ∈ transpilationInitiators (node w x) → source (node w' y) = None).
Proof.
  revert n w w'. induction fuel as [|f IH]; intros n w w' Hfree Hrun; [discriminate|].
  assert (∀ l wa wb, hmrFree wa → forEachM (resetTranspilation f) l wa = Some wb →
            (∀ y, y ∈ l → source (node wb y) = None)
            ∧ (∀ x y, source (node wa x) ≠ None → source (node wb x) = None →
                      y ∈ transpilationInitiators (node wa x) → source (node wb y) = None))
    as Hloop.
  { induction l as [|x0 l IHl]; intros wa wb Ha Hl; simpl in Hl.
    - injection Hl as <-. split; [intros y Hy; by apply elem_of_nil in Hy|].
      intros x y Hx Hx'. by destruct Hx.
    - destruct (resetTranspilation f x0 wa) as [wm|] eqn:Hx0; [|discriminate].
      assert (hmrFree wm) as Hm.
      { eapply hmrFree_keeps; [|exact Ha].
        eapply resetTranspilation_keeps; [|exact Hx0]. by split_and!. }
      destruct (IH _ _ _ Ha Hx0) as [_ Hb0].
      destruct (IHl _ _ Hm Hl) as [Hc1 Hb1]. split.
      + intros y Hy. apply elem_of_cons in Hy as [->|Hy]; [|by apply Hc1].
        eapply forEachM_resetTranspilation_no_new_source; [exact Hl|].
        by destruct (resetTranspilation_cleared _ _ _ _ Hx0) as (? & _).
      + intros x y Hx Hx' Hy.
        destruct (source (node wm x)) as [s|] eqn:Hmx.
        * apply (Hb1 x y); [by rewrite Hmx|done|].
          rewrite (resetTranspilation_keeps transpilationInitiators f x0 wa wm);
            [done|by split_and!|done].
        * eapply forEachM_resetTranspilation_no_new_source; [exact Hl|].
          by apply (Hb0 x y). }
  destruct (resetTranspilation_source f n w w' Hrun) as (w1 & Hrec & Hsrc).
  rewrite Hfree in Hrec. simpl in Hrec.
  destruct (Hloop _ _ _ Hfree Hrec) as [Hc Hb].
  assert (∀ y, y ∈ transpilationInitiators (node w n) → source (node w' y) = None) as Hn.
  { intros y Hy. rewrite Hsrc. case_decide; [done|].
    destruct (source (node w y)) as [s|] eqn:Hwy.
    - apply Hc. unfold keep. apply list_elem_of_filter. split; [|done].
      apply hasSource_true. by rewrite Hwy.
    - by eapply forEachM_resetTranspilation_no_new_source. }
  split; [exact Hn|].
  intros x y Hx Hx' Hy. rewrite Hsrc in Hx'. case_decide as Hxn; [subst x; by apply Hn|].
  rewrite Hsrc. case_decide; [done|]. by apply (Hb x y).
Qed.

Lemma includingGraph_hmrFree : hmrFree includingGraph.
Proof. intros r. unfold includingGraph. rewrite node_worldOf2. by destruct r as [|[|r]]. Qed.

Lemma includingGraph_ranked : rankedInitiators (λ r, r) includingGraph.
Proof.
  intros a b. unfold includingGraph. rewrite !node_worldOf2.
  destruct a as [|[|a]]; cbn; intros Hb; try by apply elem_of_nil in Hb.
  apply list_elem_of_singleton in Hb as ->. lia.
Qed.

End ResetTranspilationMore.

(** X4. [resetTranspilation] returns when the transpiled transpilation
    initiators are ranked: if every transpiled transpilation initiator of a
    node ranks below it (no cycle of inclusions), the call returns with a
    recursion depth of at most the rank of the node, has removed the node's
    source, and leaves the graph ranked. *)
Theorem resetTranspilation_returns_when_ranked (rank : ref → nat) (fuel : nat) (n : ref)
  (w : World) :
  rankedInitiators rank w → rank n < fuel →
  ∃ w', resetTranspilation fuel n w = Some w'
        ∧ source (node w' n) = None ∧ rankedInitiators rank w'.
Proof.
  intros Hrank Hlt.
  destruct (resetTranspilation_total rank fuel n w Hrank Hlt) as [w' Hrun].
  exists w'. split_and!; [done| |by eapply resetTranspilation_ranked].
  by destruct (resetTranspilation_cleared _ _ _ _ Hrun) as (? & _).
Qed.

(** [/a.js] includes [/b.js]: the reset of [/b.js] returns. *)
Lemma resetTranspilation_returns_when_ranked_witness :
  ∃ w', resetTranspilation 2 1 includingGraph = Some w'
        ∧ source (node w' 1) = None ∧ rankedInitiators (λ r, r) w'.
Proof.
  apply (resetTranspilation_returns_when_ranked (λ r, r) 2 1 includingGraph).
  - exact includingGraph_ranked.
  - lia.
Defined.

(** X5. [resetTranspilation] does not return on a cycle of inclusions. The
    calls on the transpilation initiators come before [this.source = null], so
    on a node that lies on (or leads to) a cycle of transpiled nodes that do
    not accept hot updates the recursion never reaches its end, whatever
    depth it is given. *)
Theorem resetTranspilation_diverges_on_cycle (S : ref → Prop) (fuel : nat) (n : ref)
  (w : World) :
  initiatorCycle S w → S n → resetTranspilation fuel n w = None.
Proof. intros Hcyc Hn. by destruct (initiatorCycle_loops S fuel n w Hcyc) as [H _]; apply H. Qed.

(** [/a.js] and [/b.js] include each other. *)
Lemma resetTranspilation_diverges_on_cycle_witness :
  resetTranspilation 1000 0 mutualGraph = None.
Proof.
  apply (resetTranspilation_diverges_on_cycle (λ s, s = 0 ∨ s = 1)); [|by left].
  intros s Hs. unfold mutualGraph. rewrite !node_worldOf2.
  destruct Hs as [-> | ->]; (split_and!; [reflexivity|discriminate|]).
  - exists 1. split; [by right|]. apply list_elem_of_singleton. reflexivity.
  - exists 0. split; [by left|]. apply list_elem_of_singleton. reflexivity.
Defined.

(** X6. [resetTranspilation] reaches every node made from the node it is
    called on. In a graph without HMR-accepting nodes, after
    [resetTranspilation()] of [n] has returned, no node that was transpiled
    from the content of [n], directly or through other transpiled nodes,
    still has a source. *)
Theorem resetTranspilation_reaches_includers (fuel : nat) (n : ref) (w w' : World) (y : ref) :
  hmrFree w → resetTranspilation fuel n w = Some w' →
  transpiledFrom w n y → source (node w' y) = None.
Proof.
  intros Hfree Hrun Hy.
  destruct (resetTranspilation_reaches fuel n w w' Hfree Hrun) as [Hn Hb].
  induction Hy as [|x y Hx IH Hsrc Hin].
  - by destruct (resetTranspilation_cleared _ _ _ _ Hrun) as (? & _).
  - destruct Hsrc as [->|Hsrc]; [by apply Hn | by apply (Hb x y)].
Qed.

(** [/a.js] includes [/b.js]: the reset of [/b.js] removes the source of
    [/a.js]. *)
Lemma resetTranspilation_reaches_includers_witness :
  source (node afterIncludedReset 0) = None.
Proof.
  apply (resetTranspilation_reaches_includers 2 1 includingGraph afterIncludedReset 0).
  - exact includingGraph_hmrFree.
  - vm_compute. reflexivity.
  - apply (transpiledFrom_step _ 1 1 0); [constructor | by left |].
    unfold includingGraph. rewrite node_worldOf2. apply list_elem_of_singleton. reflexivity.
Defined.

(** * The [catch] block of [transpile] *)

Section CatchBlock.

Variable C : Collaborators.

Implicit Types (w : World) (n r : ref).


Lemma forEachM_resetTranspilation_cycle (S : ref → Prop) f (l : list ref) w :
  initiatorCycle S w → (∃ s, S s ∧ s ∈ l) → forEachM (resetTranspilation f) l w = None.
Proof.
  revert w. induction l as [|x l IH]; intros w Hcyc (s & HS & Hs).
  - by apply elem_of_nil in Hs.
  - simpl. destruct (initiatorCycle_loops S f x w Hcyc) as [Hx1 Hx2].
    destruct (resetTranspilation f x w) as [wx|] eqn:Hx; [|done].
    apply IH; [by apply Hx2|]. apply elem_of_cons in Hs as [->|Hs]; [|eauto].
    by specialize (Hx1 HS).
Qed.

(** [resetTranspilation] does not return either on a node that is not
    transpiled itself and has a transpilation initiator on a cycle. *)
Lemma resetTranspilation_enters_cycle (S : ref → Prop) fuel n w :
  initiatorCycle S w → hmrEnabled (node w n) = HmrUnset →
  (∃ s, S s ∧ s ∈ transpilationInitiators (node w n)) →
  resetTranspilation fuel n w = None.
Proof.
  intros Hcyc Hoff (s & HS & Hs). destruct fuel as [|f]; [done|].
  simpl. rewrite Hoff. simpl.
  rewrite (forEachM_resetTranspilation_cycle S); [done|done|].
  exists s. split; [done|]. unfold keep. apply list_elem_of_filter. split; [|done].
  apply hasSource_true. by destruct (Hcyc s HS) as (_ & ? & _).
Qed.

(** When the first transformer of a node throws and the node has a
    transpilation initiator on a cycle, the [catch] block does not get past
    [this.resetTranspilation()]: [transpile] neither returns nor throws. *)
Lemma transpile_error_enters_cycle (S : ref → Prop) fuel n w cfg post e wf :
  source (node w n) = None →
  requires (module (node w n)) = None →
  getLoaders C (module (node w n)) (query (node w n)) = cfg :: post →
  tryTranspiler C n cfg (code (module (node w n))) (clearForTranspile n w) = (Threw e, wf) →
  initiatorCycle S wf → hmrEnabled (node wf n) = HmrUnset →
  (∃ s, S s ∧ s ∈ transpilationInitiators (node wf n)) →
  transpile C fuel n w = None.
Proof.
  intros Hsrc Hreq Hchain Htry Hcyc Hoff Hin. destruct fuel as [|f]; [done|].
  simpl. rewrite Hsrc.
  rewrite (clearForTranspile_keeps module n w) by done.
  rewrite (clearForTranspile_keeps query n w) by done.
  rewrite Hreq, Hchain. simpl. rewrite Htry.
  by rewrite (resetTranspilation_enters_cycle S f n wf).
Qed.

Lemma failedImport_cycle : initiatorCycle (λ s, s = 0 ∨ s = 1) failedImport.
Proof.
  intros s [-> | ->].
  - split; [vm_compute; reflexivity|]. split; [intros H; vm_compute in H; discriminate|].
    exists 1. split; [right; reflexivity|]. vm_compute. apply list_elem_of_here.
  - split; [vm_compute; reflexivity|]. split; [intros H; vm_compute in H; discriminate|].
    exists 0. split; [left; reflexivity|]. vm_compute. apply list_elem_of_here.
Qed.

End CatchBlock.

(** C6, at the failing input. [/a.scss] imports [/b.scss] and
    [/broken.scss], [/b.scss] imports [/a.scss]; [transpile] of [/a.scss] and
    then of [/b.scss] both return. In [transpile] of [/broken.scss] the
    transformer rejects, the [catch] block is entered, and
    [this.resetTranspilation()] recurses from [/broken.scss] into [/a.scss],
    [/b.scss], [/a.scss], ... without end, whatever depth it is given: the
    error is not thrown again and the transpilation of the node is not
    reset. *)
Lemma transpile_error_overflows_on_import_cycle :
  transpile includeDemo 2 0 importGraph = Some (Returned tt, afterFirstImport)
  ∧ transpile includeDemo 2 1 afterFirstImport = Some (Returned tt, cyclicImportGraph)
  ∧ tryTranspiler includeDemo 2 includeTranspiler (code styleBroken)
      (clearForTranspile 2 cyclicImportGraph) = (Threw syntaxError, failedImport)
  ∧ (∀ fuel, resetTranspilation fuel 2 failedImport = None)
  ∧ (∀ fuel, transpile includeDemo fuel 2 cyclicImportGraph = None).
Proof.
  assert (hmrEnabled (node failedImport 2) = HmrUnset) as Hoff by (vm_compute; reflexivity).
  assert (∃ s, (s = 0 ∨ s = 1) ∧ s ∈ transpilationInitiators (node failedImport 2)) as Hin.
  { exists 0. split; [left; reflexivity|]. vm_compute. apply list_elem_of_here. }
  split; [vm_compute; reflexivity|].
  split; [vm_compute; reflexivity|].
  split; [vm_compute; reflexivity|].
  split.
  - intros fuel.
    exact (resetTranspilation_enters_cycle (λ s, s = 0 ∨ s = 1) fuel 2 failedImport
             failedImport_cycle Hoff Hin).
  - intros fuel.
    apply (transpile_error_enters_cycle includeDemo (λ s, s = 0 ∨ s = 1) fuel 2
             cyclicImportGraph includeTranspiler [] syntaxError failedImport).
    + vm_compute. reflexivity.
    + vm_compute. reflexivity.
    + vm_compute. reflexivity.
    + vm_compute. reflexivity.
    + exact failedImport_cycle.
    + exact Hoff.
    + exact Hin.
Qed.



(** * More on [resetCompilation] *)

Section ResetCompilationMore.

Implicit Types (w : World) (n r x y : ref) (l : list ref).

Lemma hasCompilation_true w r : hasCompilation w r = true ↔ compilation (node w r) ≠ None.
Proof. unfold hasCompilation. by destruct (compilation (node w r)). Qed.

Lemma forEachM_resetCompilation_no_new f l w w' r :
  forEachM (resetCompilation f) l w = Some w' →
  compilation (node w r) = None → compilation (node w' r) = None.
Proof.
  intros Hl Hr.
  eapply (forEachM_invariant (λ wa, compilation (node wa r) = None)); [|exact Hr|exact Hl].
  intros x wa wb Ha Hb. by eapply resetCompilation_no_new.
Qed.

Lemma forEachM_resetCompilation_keeps {A} (π : TranspiledModule → A) f l w w' :
  notCompilationState π → forEachM (resetCompilation f) l w = Some w' → keeps π w w'.
Proof.
  intros Hπ Hl. eapply keeps_forEachM; [|exact Hl].
  intros b wa wb. by apply resetCompilation_keeps.
Qed.

Lemma compiledAmong_le l w w' :
  (∀ r, hasCompilation w' r = true → hasCompilation w r = true) →
  compiledAmong l w' ≤ compiledAmong l w.
Proof. intros H. unfold compiledAmong. by apply length_filter_le. Qed.

Lemma compiledAmong_lt l w w' y :
  (∀ r, hasCompilation w' r = true → hasCompilation w r = true) →
  y ∈ l → hasCompilation w y = true → hasCompilation w' y = false →
  compiledAmong l w' < compiledAmong l w.
Proof.
  intros H Hin Hy Hy'. unfold compiledAmong.
  apply (length_filter_lt _ _ l y); [done..|]. by rewrite Hy'.
Qed.

(** The depth of the recursion of [resetCompilation] is bounded by the number
    of nodes that hold a cached evaluation: every call but the first is on a
    node that held one when the walk began and that no call above it is on. *)
Lemma resetCompilation_bounded L f n w :
  (∀ r, hasCompilation w r = true → r ∈ L) →
  compiledAmong L w + (if hasCompilation w n then 0 else 1) ≤ f →
  ∃ w', resetCompilation f n w = Some w'.
Proof.
  revert n w. induction f as [|f IH]; intros n w Hcover Hle.
  { exfalso. destruct (hasCompilation w n) eqn:Hn; [|lia].
    pose proof (compiledAmong_lt L w (upd n (setCompilation None) w) n) as Hlt.
    assert (compiledAmong L (upd n (setCompilation None) w) < compiledAmong L w); [|lia].
    apply Hlt; [|by apply Hcover|done|].
    - intros r. rewrite !hasCompilation_true, node_upd. by case_decide.
    - apply hasCompilation_false. by rewrite node_upd_eq. }
  assert (∀ l wb wa,
            (∀ r, hasCompilation wb r = true → r ∈ L) → compiledAmong L wb ≤ f →
            (∀ y, y ∈ l → hasCompilation wb y = true) →
            (∀ r, hasCompilation wa r = true → hasCompilation wb r = true) →
            ∃ wc, forEachM (resetCompilation f) l wa = Some wc
                  ∧ ∀ r, hasCompilation wc r = true → hasCompilation wb r = true) as Hloop.
  { induction l as [|y l IHl]; intros wb wa Hc Hm Hl Hsub; simpl; [eauto|].
    destruct (IH y wa) as [wy Hy].
    - intros r Hr. by apply Hc, Hsub.
    - destruct (hasCompilation wa y) eqn:Hay.
      + pose proof (compiledAmong_le L wb wa Hsub). lia.
      + assert (compiledAmong L wa < compiledAmong L wb); [|lia].
        apply (compiledAmong_lt L wb wa y); [done| |by apply Hl; left|done].
        apply Hc, Hl. by left.
    - rewrite Hy. apply (IHl wb wy); [done|done|intros; apply Hl; by right|].
      intros r Hr. apply Hsub. apply hasCompilation_true. intros Hnone.
      apply hasCompilation_true in Hr. apply Hr. by eapply resetCompilation_no_new. }
  simpl.
  destruct (compilation (node w n)) as [c|] eqn:Hcn.
  - assert (hasCompilation w n = true) as Hn by (apply hasCompilation_true; by rewrite Hcn).
    rewrite Hn in Hle.
    destruct (hmrOff (hmrEnabled (node w n))) eqn:Hoff.
    + set (wa := upd n (setCompilation None) w).
      assert (∀ r, hasCompilation wa r = true → hasCompilation w r = true) as Hsub.
      { intros r. unfold wa. rewrite !hasCompilation_true, node_upd. by case_decide. }
      assert (compiledAmong L wa < compiledAmong L w) as Hlt.
      { apply (compiledAmong_lt L w wa n); [done|by apply Hcover|done|].
        apply hasCompilation_false. unfold wa. by rewrite node_upd_eq. }
      destruct (Hloop (keep (hasCompilation wa) (initiators (node wa n))) wa wa)
        as (w1 & -> & Hsub1); [by auto|lia| |done|].
      { intros y Hy. unfold keep in Hy. by apply list_elem_of_filter in Hy as [? _]. }
      destruct (hmrOff (hmrEnabled (node w1 n))); [|eauto].
      destruct (Hloop (keep (hasCompilation w1) (transpilationInitiators (node w1 n))) w1 w1)
        as (w2 & -> & _); [by auto| | |done|eauto].
      * pose proof (compiledAmong_le L wa w1 Hsub1). lia.
      * intros y Hy. unfold keep in Hy. by apply list_elem_of_filter in Hy as [? _].
    + rewrite node_upd_eq. simpl. rewrite Hoff. eauto.
  - assert (hasCompilation w n = false) as Hn by (apply hasCompilation_false; by rewrite Hcn).
    rewrite Hn in Hle.
    destruct (hmrOff (hmrEnabled (node w n))); [|eauto].
    destruct (Hloop (keep (hasCompilation w) (transpilationInitiators (node w n))) w w)
      as (w2 & -> & _); [done|lia| |done|eauto].
    intros y Hy. unfold keep in Hy. by apply list_elem_of_filter in Hy as [? _].
Qed.

Lemma compiled_in_store w r :
  hasCompilation w r = true → r ∈ (map_to_list (heap w)).*1.
Proof.
  intros Hs. destruct (heap w !! r) as [t|] eqn:Hr.
  - apply list_elem_of_fmap. exists (r, t). split; [done|]. by apply elem_of_map_to_list.
  - exfalso. unfold hasCompilation, node in Hs. by rewrite lookup_total_alt, Hr in Hs.
Qed.

(** What the calls on the evaluated initiators leave. *)
Lemma resetCompilation_reaches fuel n w w' :
  hmrFree w → resetCompilation fuel n w = Some w' →
  (∀ y, y ∈ transpilationInitiators (node w n) → compilation (node w' y) = None)
  ∧ (∀ x y, compilation (node w x) ≠ None → compilation (node w' x) = None →
            y ∈ initiators (node w x) ∨ y ∈ transpilationInitiators (node w x) →
            compilation (node w' y) = None).
Proof.
  revert n w w'. induction fuel as [|f IH]; intros n w w' Hfree Hrun; [discriminate|].
  assert (∀ l wa wb, hmrFree wa → forEachM (resetCompilation f) l wa = Some wb →
            (∀ y, y ∈ l → compilation (node wb y) = None)
            ∧ (∀ x y, compilation (node wa x) ≠ None → compilation (node wb x) = None →
                      y ∈ initiators (node wa x) ∨ y ∈ transpilationInitiators (node wa x) →
                      compilation (node wb y) = None)) as Hloop.
  { induction l as [|x0 l IHl]; intros wa wb Ha Hl; simpl in Hl.
    - injection Hl as <-. split; [intros y Hy; by apply elem_of_nil in Hy|].
      intros x y Hx Hx'. by destruct Hx.
    - destruct (resetCompilation f x0 wa) as [wm|] eqn:Hx0; [|discriminate].
      assert (hmrFree wm) as Hm.
      { eapply hmrFree_keeps; [|exact Ha].
        eapply resetCompilation_keeps; [|exact Hx0]. by split_and!. }
      destruct (IH _ _ _ Ha Hx0) as [_ Hb0].
      destruct (IHl _ _ Hm Hl) as [Hc1 Hb1]. split.
      + intros y Hy. apply elem_of_cons in Hy as [->|Hy]; [|by apply Hc1].
        eapply forEachM_resetCompilation_no_new; [exact Hl|].
        by apply (resetCompilation_cleared f x0 wa wm).
      + intros x y Hx Hx' Hy.
        destruct (compilation (node wm x)) as [s|] eqn:Hmx.
        * apply (Hb1 x y); [by rewrite Hmx|done|].
          rewrite (resetCompilation_keeps initiators f x0 wa wm),
                  (resetCompilation_keeps transpilationInitiators f x0 wa wm);
            [done|by split_and!|done|by split_and!|done].
        * eapply forEachM_resetCompilation_no_new; [exact Hl|].
          by apply (Hb0 x y). }
  assert (∀ w1, hmrFree w1 → keeps initiators w w1 → keeps transpilationInitiators w w1 →
            forEachM (resetCompilation f)
              (keep (hasCompilation w1) (transpilationInitiators (node w1 n))) w1 = Some w' →
            (∀ y, y ∈ transpilationInitiators (node w n) → compilation (node w' y) = None)
            ∧ (∀ x y, compilation (node w1 x) ≠ None → compilation (node w' x) = None →
                      y ∈ initiators (node w x) ∨ y ∈ transpilationInitiators (node w x) →
                      compilation (node w' y) = None)) as Hsecond.
  { intros w1 Hfree1 Ki Kt Hl2. destruct (Hloop _ _ _ Hfree1 Hl2) as [Hc Hb]. split.
    - intros y Hy. destruct (compilation (node w1 y)) as [s|] eqn:H1y.
      + apply Hc. unfold keep. apply list_elem_of_filter. split; [|by rewrite Kt].
        apply hasCompilation_true. by rewrite H1y.
      + by eapply forEachM_resetCompilation_no_new.
    - intros x y Hx Hx' Hy. apply (Hb x y); [done|done|]. by rewrite Ki, Kt. }
  simpl in Hrun. rewrite Hfree in Hrun. simpl in Hrun.
  destruct (compilation (node w n)) as [c|] eqn:Hcn.
  - set (wa := upd n (setCompilation None) w) in *.
    destruct (forEachM (resetCompilation f) (keep (hasCompilation wa) (initiators (node wa n)))
                wa) as [w1|] eqn:Hl1; [|discriminate].
    assert (hmrFree wa) as Hfreea.
    { eapply hmrFree_keeps; [|exact Hfree]. by apply keeps_upd. }
    assert (hmrFree w1) as Hfree1.
    { eapply hmrFree_keeps; [|exact Hfreea].
      eapply forEachM_resetCompilation_keeps; [|exact Hl1]. by split_and!. }
    rewrite Hfree1 in Hrun. simpl in Hrun.
    assert (keeps initiators w w1) as Ki.
    { eapply keeps_trans; [by apply (keeps_upd initiators n (setCompilation None))|].
      eapply forEachM_resetCompilation_keeps; [|exact Hl1]. by split_and!. }
    assert (keeps transpilationInitiators w w1) as Kt.
    { eapply keeps_trans;
        [by apply (keeps_upd transpilationInitiators n (setCompilation None))|].
      eapply forEachM_resetCompilation_keeps; [|exact Hl1]. by split_and!. }
    destruct (Hsecond w1 Hfree1 Ki Kt Hrun) as [Hn Hb2].
    destruct (Hloop _ _ _ Hfreea Hl1) as [Hc1 Hb1].
    split; [exact Hn|].
    intros x y Hx Hx' Hy.
    destruct (decide (x = n)) as [->|Hxn].
    + destruct Hy as [Hy|Hy]; [|by apply Hn].
      eapply forEachM_resetCompilation_no_new; [exact Hrun|].
      destruct (compilation (node wa y)) as [s|] eqn:Hay.
      * apply Hc1. unfold keep. apply list_elem_of_filter. split.
        -- apply hasCompilation_true. by rewrite Hay.
        -- unfold wa. by rewrite node_upd_eq.
      * by eapply forEachM_resetCompilation_no_new.
    + destruct (compilation (node w1 x)) as [s|] eqn:H1x.
      * apply (Hb2 x y); [by rewrite H1x|done|done].
      * eapply forEachM_resetCompilation_no_new; [exact Hrun|].
        apply (Hb1 x y); [|done|].
        -- unfold wa. by rewrite node_upd_ne.
        -- unfold wa. by rewrite !node_upd_ne.
  - rewrite Hfree in Hrun. simpl in Hrun.
    destruct (Hsecond w Hfree) as [Hn Hb2]; [done|done|exact Hrun|].
    split; [exact Hn|]. intros x y Hx Hx' Hy. by apply (Hb2 x y).
Qed.

Lemma node_two w r :
  heap w = list_to_map [(0, node w 0); (1, node w 1)] →
  node w r
  = match r with 0 => node w 0 | 1 => node w 1 | _ => newTranspiledModule blankModule "" end.
Proof.
  intros Hh. destruct r as [|[|r]]; [done|done|].
  unfold node at 1. rewrite Hh. cbn [list_to_map foldr fst snd curry].
  by rewrite lookup_total_alt, !lookup_insert_ne, lookup_empty.
Qed.

Lemma evaluatedGraph_heap :
  heap evaluatedGraph = list_to_map [(0, node evaluatedGraph 0); (1, node evaluatedGraph 1)].
Proof. vm_compute. reflexivity. Qed.

Lemma evaluatedGraph_hmrFree : hmrFree evaluatedGraph.
Proof.
  intros r. rewrite (node_two _ r evaluatedGraph_heap).
  destruct r as [|[|r]]; [vm_compute; reflexivity..|reflexivity].
Qed.

End ResetCompilationMore.

(** X7. [resetCompilation] always returns. Whatever the graph, cyclic or not,
    with or without HMR-accepting nodes, the walk of [resetCompilation] ends:
    its recursion goes no deeper than the number of cells of the store plus
    one, since every call below the first is on a node that held a cached
    evaluation and that no call above it is on. *)
Theorem resetCompilation_returns (n : ref) (w : World) (k : nat) :
  ∃ w', resetCompilation (size (heap w) + 2 + k) n w = Some w'.
Proof.
  apply (resetCompilation_bounded (map_to_list (heap w)).*1).
  - apply compiled_in_store.
  - assert (compiledAmong (map_to_list (heap w)).*1 w ≤ size (heap w)) as Hle.
    { unfold compiledAmong. etrans; [apply length_filter|].
      by rewrite length_fmap, length_map_to_list. }
    destruct (hasCompilation w n); lia.
Qed.

(** X8. [resetCompilation] reaches every node evaluated with the node it is
    called on. In a graph without HMR-accepting nodes, after
    [resetCompilation()] of [n] has returned, no node whose cached evaluation
    was made with the exports of [n], directly or through other evaluated
    nodes, still holds a cached evaluation. *)
Theorem resetCompilation_reaches_initiators (fuel : nat) (n : ref) (w w' : World) (y : ref) :
  hmrFree w → resetCompilation fuel n w = Some w' →
  evaluatedFrom w n y → compilation (node w' y) = None.
Proof.
  intros Hfree Hrun Hy.
  destruct (resetCompilation_reaches fuel n w w' Hfree Hrun) as [Hn Hb].
  induction Hy as [|y Hin|x y Hx IH Hc Hin].
  - by apply (resetCompilation_cleared fuel n w w').
  - by apply Hn.
  - by apply (Hb x y).
Qed.

(** The two files that require each other, evaluated: [resetCompilation()] of
    [/b.js] drops the cached evaluation of [/a.js]. *)
Lemma resetCompilation_reaches_initiators_witness :
  compilation (node afterCacheReset 0) = None.
Proof.
  apply (resetCompilation_reaches_initiators 4 1 evaluatedGraph afterCacheReset 0).
  - exact evaluatedGraph_hmrFree.
  - vm_compute. reflexivity.
  - apply (evaluatedFrom_step _ 1 1 0); [constructor | |left].
    + intros H. vm_compute in H. discriminate.
    + vm_compute. apply list_elem_of_here.
Defined.

(** * More on [reset] *)

Section ResetMore.

Implicit Types (w : World) (n r x y : ref) (t : TranspiledModule).

Lemma towardsReset_refl t : towardsReset t t.
Proof. unfold towardsReset. by split_and!; auto. Qed.

Lemma towardsReset_trans t1 t2 t3 :
  towardsReset t1 t2 → towardsReset t2 t3 → towardsReset t1 t3.
Proof.
  intros (Hs & Hc & He & Hi & Hk & Hh) (Hs' & Hc' & He' & Hi' & Hk' & Hh').
  unfold towardsReset. split_and!; auto.
  - destruct Hc' as [->| ->]; auto.
  - by rewrite Hh', Hh.
Qed.

Lemma resetState_towardsReset t t' : resetState t → towardsReset t t' → resetState t'.
Proof.
  intros (Hs & Hc & He & Hi & Hk) (Hs' & Hc' & He' & Hi' & Hk' & Hh').
  unfold resetState. split_and!; auto.
  - destruct Hc' as [->| ->]; auto.
  - rewrite Hh'. auto.
Qed.

(** Every call of the walk of [reset] moves every node towards its reset
    state, leaves the node it is called on in that state, and has reset the
    children of every node whose children it has removed. *)
Lemma reset_walk fuel n w w' :
  reset fuel n w = Some w' →
  (∀ r, towardsReset (node w r) (node w' r))
  ∧ resetState (node w' n)
  ∧ (∀ x y, childModules (node w' x) = [] → y ∈ childModules (node w x) →
            resetState (node w' y)).
Proof.
  revert n w w'. induction fuel as [|f IH]; intros n w w' Hrun; [discriminate|].
  assert (∀ l wa wb, forEachM (reset f) l wa = Some wb →
            (∀ r, towardsReset (node wa r) (node wb r))
            ∧ (∀ y, y ∈ l → resetState (node wb y))
            ∧ (∀ x y, childModules (node wb x) = [] → y ∈ childModules (node wa x) →
                      resetState (node wb y))) as Hloop.
  { induction l as [|y0 l IHl]; intros wa wb Hl; simpl in Hl.
    - injection Hl as <-. split_and!.
      + intros r. apply towardsReset_refl.
      + intros y Hy. by apply elem_of_nil in Hy.
      + intros x y Hx Hy. rewrite Hx in Hy. by apply elem_of_nil in Hy.
    - destruct (reset f y0 wa) as [wm|] eqn:Hy0; [|discriminate].
      destruct (IH _ _ _ Hy0) as (Ha0 & Hb0 & Hc0).
      destruct (IHl _ _ Hl) as (Ha1 & Hb1 & Hc1). split_and!.
      + intros r. eapply towardsReset_trans; [apply Ha0 | apply Ha1].
      + intros y Hy. apply elem_of_cons in Hy as [->|Hy]; [|by apply Hb1].
        eapply resetState_towardsReset; [exact Hb0 | apply Ha1].
      + intros x y Hx Hy. destruct (Ha0 x) as (_ & [Hsame|Hnil] & _).
        * apply (Hc1 x y); [done | by rewrite Hsame].
        * eapply resetState_towardsReset; [by apply (Hc0 x y) | apply Ha1]. }
  simpl in Hrun.
  destruct (forEachM (reset f) (childModules (node w n)) w) as [w1|] eqn:Hkids;
    [|discriminate].
  destruct (Hloop _ _ _ Hkids) as (Ha1 & Hb1 & Hc1).
  set (w3 := upd n (setEmittedAssets (Some [])) (upd n (setChildModules []) w1)) in *.
  destruct (resetCompilation f n w3) as [w4|] eqn:Hrc; [|discriminate].
  destruct (resetTranspilation f n w4) as [w5|] eqn:Hrt; [|discriminate].
  injection Hrun as <-.
  assert (∀ r, towardsReset (node w1 r) (node w3 r)) as H13.
  { intros r. unfold w3. destruct (decide (r = n)) as [->|Hr];
      [rewrite !node_upd_eq | rewrite !node_upd_ne by done; apply towardsReset_refl].
    unfold towardsReset. cbn. split_and!; auto. }
  assert (∀ r, towardsReset (node w3 r) (node w4 r)) as H34.
  { intros r. unfold towardsReset.
    rewrite (resetCompilation_keeps source f n w3 w4),
            (resetCompilation_keeps childModules f n w3 w4),
            (resetCompilation_keeps emittedAssets f n w3 w4),
            (resetCompilation_keeps isEntry f n w3 w4),
            (resetCompilation_keeps hmrEnabled f n w3 w4) by (done || by split).
    split_and!; auto. intros. by eapply resetCompilation_no_new. }
  assert (∀ r, towardsReset (node w4 r) (node w5 r)) as H45.
  { intros r. unfold towardsReset.
    rewrite (resetTranspilation_keeps compilation f n w4 w5),
            (resetTranspilation_keeps childModules f n w4 w5),
            (resetTranspilation_keeps emittedAssets f n w4 w5),
            (resetTranspilation_keeps isEntry f n w4 w5),
            (resetTranspilation_keeps hmrEnabled f n w4 w5) by (done || by split_and!).
    split_and!; auto. intros. by eapply resetTranspilation_no_new_source. }
  assert (∀ r, towardsReset (node w5 r) (node (upd n (setIsEntry false) w5) r)) as H56.
  { intros r. destruct (decide (r = n)) as [->|Hr];
      [rewrite !node_upd_eq | rewrite !node_upd_ne by done; apply towardsReset_refl].
    unfold towardsReset. cbn. split_and!; auto. }
  assert (∀ r, towardsReset (node w1 r) (node (upd n (setIsEntry false) w5) r)) as H16.
  { intros r. eapply towardsReset_trans; [apply H13|].
    eapply towardsReset_trans; [apply H34|].
    eapply towardsReset_trans; [apply H45|apply H56]. }
  assert (resetState (node (upd n (setIsEntry false) w5) n)) as Hn.
  { unfold resetState. rewrite node_upd_eq. cbn.
    destruct (resetTranspilation_cleared f n w4 w5 Hrt) as (-> & _).
    assert (childModules (node w3 n) = [] ∧ emittedAssets (node w3 n) = Some []) as [Hc3 He3].
    { unfold w3. by rewrite !node_upd_eq. }
    destruct (H34 n) as (_ & Hc4 & He4 & _ & _ & Hh4).
    destruct (H45 n) as (_ & Hc5 & He5 & _ & Hk5 & Hh5).
    split_and!; auto.
    - destruct Hc5 as [->| ->]; [|done]. destruct Hc4 as [->| ->]; done.
    - intros Hoff. apply Hk5. apply (resetCompilation_cleared f n w3 w4); [|done].
      by rewrite <-Hh4, <-Hh5. }
  split_and!; [|exact Hn|].
  - intros r. eapply towardsReset_trans; [apply Ha1 | apply H16].
  - intros x y Hx Hy. destruct (decide (x = n)) as [->|Hxn].
    + eapply resetState_towardsReset; [by apply Hb1 | apply H16].
    + eapply resetState_towardsReset; [|apply H16]. apply (Hc1 x y); [|done].
      rewrite node_upd_ne in Hx by done.
      rewrite (resetTranspilation_keeps childModules f n w4 w5),
              (resetCompilation_keeps childModules f n w3 w4) in Hx
        by (done || by split_and!).
      unfold w3 in Hx. by rewrite !node_upd_ne in Hx.
Qed.

End ResetMore.

(** X9. [reset] reaches every emitted node. After [reset()] of [n] has
    returned, [n] and every node that the loaders of [n] emitted, directly or
    through the loaders of emitted nodes, are in the state that [reset]
    leaves: no source, no children, no emitted assets, not an entry, and no
    cached evaluation unless the node accepts hot updates. *)
Theorem reset_reaches_emitted (fuel : nat) (n : ref) (w w' : World) (y : ref) :
  reset fuel n w = Some w' → emittedFrom w n y → resetState (node w' y).
Proof.
  intros Hrun Hy. destruct (reset_walk fuel n w w' Hrun) as (_ & Hn & Hc).
  induction Hy as [|x y Hx IH Hin]; [exact Hn|].
  apply (Hc x y); [|done]. by destruct IH as (_ & ? & _).
Qed.

(** [/a.js] has emitted a style sheet: [reset()] of [/a.js] resets the style
    sheet (node 2). *)
Lemma reset_reaches_emitted_witness : resetState (node afterEmitterReset 2).
Proof.
  apply (reset_reaches_emitted 3 0 emittingGraph afterEmitterReset 2).
  - vm_compute. reflexivity.
  - apply (emittedFrom_step _ 0 0 2); [constructor|].
    vm_compute. apply list_elem_of_here.
Defined.

Section ResetTermination2.

Implicit Types (w : World) (n r x y : ref) (L : list ref).

(** What the walk of [reset] keeps of the conditions under which it ends. *)
Lemma towardsReset_ranked rank rankC L w w' :
  (∀ r, towardsReset (node w r) (node w' r)) → keeps transpilationInitiators w w' →
  rankedInitiators rank w ∧ rankedChildren rankC w ∧ (∀ r, hasCompilation w r = true → r ∈ L) →
  rankedInitiators rank w' ∧ rankedChildren rankC w'
  ∧ (∀ r, hasCompilation w' r = true → r ∈ L).
Proof.
  intros Hto Kt (Hrank & Hkids & Hcover). split_and!.
  - intros a b Hb Hs. rewrite Kt in Hb. apply (Hrank a b Hb).
    intros Hnone. apply Hs. by destruct (Hto b) as (H & _); apply H.
  - intros x y Hy. destruct (Hto x) as (_ & [Hsame|Hnil] & _).
    + apply Hkids. by rewrite <-Hsame.
    + rewrite Hnil in Hy. by apply elem_of_nil in Hy.
  - intros r Hr. apply Hcover. apply hasCompilation_true. intros Hnone.
    apply hasCompilation_true in Hr. apply Hr.
    by destruct (Hto r) as (_ & _ & _ & _ & H & _); apply H.
Qed.

Lemma reset_bounded rank rankC L B fuel n w :
  (∀ r, rank r < B) → length L + 1 ≤ B →
  rankedInitiators rank w ∧ rankedChildren rankC w ∧ (∀ r, hasCompilation w r = true → r ∈ L) →
  rankC n + B < fuel →
  ∃ w', reset fuel n w = Some w'.
Proof.
  intros HB HL. revert n w. induction fuel as [|f IH]; intros n w Hinv Hlt; [lia|].
  assert (∀ l wa,
            rankedInitiators rank wa ∧ rankedChildren rankC wa
            ∧ (∀ r, hasCompilation wa r = true → r ∈ L) →
            (∀ y, y ∈ l → rankC y + B < f) →
            ∃ wb, forEachM (reset f) l wa = Some wb
                  ∧ rankedInitiators rank wb ∧ rankedChildren rankC wb
                  ∧ (∀ r, hasCompilation wb r = true → r ∈ L)) as Hloop.
  { induction l as [|y0 l IHl]; intros wa Ha Hl; simpl; [eauto|].
    destruct (IH y0 wa Ha) as [wm Hm]; [apply Hl; by left|]. rewrite Hm.
    apply IHl; [|intros; apply Hl; by right].
    destruct (reset_walk f y0 wa wm Hm) as (Hto & _).
    eapply towardsReset_ranked; [exact Hto| |exact Ha].
    eapply reset_keeps; [|exact Hm]. by split_and!. }
  simpl.
  destruct (Hloop (childModules (node w n)) w Hinv) as (w1 & -> & Hinv1).
  { intros y Hy. destruct Hinv as (_ & Hkids & _). specialize (Hkids n y Hy). lia. }
  set (w3 := upd n (setEmittedAssets (Some [])) (upd n (setChildModules []) w1)).
  assert (rankedInitiators rank w3 ∧ rankedChildren rankC w3
          ∧ (∀ r, hasCompilation w3 r = true → r ∈ L)) as (Hrank3 & _ & Hcover3).
  { eapply towardsReset_ranked; [| |exact Hinv1].
    - intros r. unfold w3. destruct (decide (r = n)) as [->|Hr];
        [rewrite !node_upd_eq | rewrite !node_upd_ne by done; apply towardsReset_refl].
      unfold towardsReset. cbn. split_and!; auto.
    - eapply keeps_trans; by apply keeps_upd. }
  destruct (resetCompilation_bounded L f n w3 Hcover3) as [w4 Hrc].
  { assert (compiledAmong L w3 ≤ length L) by apply length_filter.
    destruct (hasCompilation w3 n); lia. }
  rewrite Hrc.
  destruct (resetTranspilation_total rank f n w4) as [w5 ->]; [|specialize (HB n); lia|eauto].
  intros a b Hb Hs.
  rewrite (resetCompilation_keeps transpilationInitiators f n w3 w4) in Hb by (done || by split).
  rewrite (resetCompilation_keeps source f n w3 w4) in Hs by (done || by split).
  by apply (Hrank3 a b).
Qed.

Lemma includingGraph_ranked01 : rankedInitiators (λ r, r `min` 1) includingGraph.
Proof.
  intros a b. unfold includingGraph. rewrite !node_worldOf2.
  destruct a as [|[|a]]; cbn; intros Hb; try by apply elem_of_nil in Hb.
  apply list_elem_of_singleton in Hb as ->. cbn. lia.
Qed.

Lemma includingGraph_no_children rankC : rankedChildren rankC includingGraph.
Proof.
  intros x y. unfold includingGraph. rewrite !node_worldOf2.
  destruct x as [|[|x]]; cbn; intros Hy; by apply elem_of_nil in Hy.
Qed.

End ResetTermination2.

(** X10. [reset] (and with it [dispose]) returns when neither the emitted
    nodes nor the transpiled transpilation initiators form a cycle: with a
    ranking of the nodes along [childModules], a ranking along the transpiled
    transpilation initiators that stays below [B], and a store of fewer than
    [B] cells, a recursion depth of the rank of the node plus [B] is
    enough. *)
Theorem reset_returns_when_ranked (rank rankC : ref → nat) (B fuel : nat) (n : ref)
  (w : World) :
  rankedInitiators rank w → (∀ r, rank r < B) →
  rankedChildren rankC w →
  size (heap w) + 1 ≤ B →
  rankC n + B < fuel →
  ∃ w', dispose fuel n w = Some w'.
Proof.
  intros Hrank HB Hkids Hsize Hlt. unfold dispose.
  apply (reset_bounded rank rankC (map_to_list (heap w)).*1 B); [done| |split_and!|done].
  - by rewrite length_fmap, length_map_to_list.
  - done.
  - done.
  - apply compiled_in_store.
Qed.

(** [/a.js] includes [/b.js]; nothing was emitted. *)
Lemma reset_returns_when_ranked_witness : ∃ w', dispose 4 1 includingGraph = Some w'.
Proof.
  apply (reset_returns_when_ranked (λ r, r `min` 1) (λ _, 0) 3 4 1 includingGraph).
  - exact includingGraph_ranked01.
  - intros r. lia.
  - apply includingGraph_no_children.
  - vm_compute. lia.
  - lia.
Defined.

(** * The [changed] mark *)

Section ChangedMark.

Variable C : Collaborators.

Implicit Types (w : World) (n r : ref).

Lemma resetCompilation_changed fuel n w w' r :
  resetCompilation fuel n w = Some w' →
  changed (node w r) = true → changed (node w' r) = true.
Proof.
  revert n w w'. induction fuel as [|f IH]; intros n w w' Hrun Hr; [discriminate|].
  simpl in Hrun.
  assert (∀ l wa wb, changed (node wa r) = true →
            forEachM (resetCompilation f) l wa = Some wb → changed (node wb r) = true)
    as Hloop.
  { intros l wa wb Ha Hl.
    eapply (forEachM_invariant (λ wx, changed (node wx r) = true)); [|exact Ha|exact Hl].
    intros b w1 w2 H1 H2. eapply IH; eauto. }
  destruct (match compilation (node w n) with Some _ => _ | None => _ end)
    as [w1|] eqn:Hfirst; [|discriminate].
  assert (changed (node w1 r) = true) as H1.
  { destruct (compilation (node w n)); [|by injection Hfirst as <-].
    destruct (hmrOff (hmrEnabled (node w n))).
    - eapply Hloop; [|exact Hfirst].
      by rewrite (keeps_upd changed n (setCompilation None) w (λ _, eq_refl)).
    - injection Hfirst as <-. rewrite node_upd. by case_decide. }
  destruct (hmrOff (hmrEnabled (node w1 n))).
  - eapply Hloop; eauto.
  - by injection Hrun as <-.
Qed.

Lemma reset_changed fuel n w w' r :
  reset fuel n w = Some w' → changed (node w r) = true → changed (node w' r) = true.
Proof.
  revert n w w'. induction fuel as [|f IH]; intros n w w' Hrun Hr; [discriminate|].
  simpl in Hrun.
  destruct (forEachM (reset f) (childModules (node w n)) w) as [w1|] eqn:Hkids;
    [|discriminate].
  destruct (resetCompilation f n _) as [w4|] eqn:Hrc; [|discriminate].
  destruct (resetTranspilation f n w4) as [w5|] eqn:Hrt; [|discriminate].
  injection Hrun as <-.
  rewrite (keeps_upd changed n (setIsEntry false) w5 (λ _, eq_refl)).
  rewrite (resetTranspilation_keeps changed f n w4 w5) by (done || by split_and!).
  eapply resetCompilation_changed; [exact Hrc|].
  rewrite (keeps_upd changed n (setEmittedAssets (Some [])) _ (λ _, eq_refl)).
  rewrite (keeps_upd changed n (setChildModules []) _ (λ _, eq_refl)).
  eapply (forEachM_invariant (λ wx, changed (node wx r) = true)); [|exact Hr|exact Hkids].
  intros b wa wb Ha Hb. eapply IH; eauto.
Qed.



End ChangedMark.

(** X11. No operation clears [changed]. A node that [resetCompilation] has
    marked as changed stays marked through every operation of the graph:
    [transpile] (however it ends), [evaluate], [reset], [resetTranspilation],
    [resetCompilation], [update] and the linking operations of the loader
    context. *)
Theorem changed_is_never_cleared (C : Collaborators) (fuel : nat) (op : Operation)
  (w : World) (o : Outcome unit) (w' : World) (r : ref) :
  perform C fuel op w = Some (o, w') →
  changed (node w r) = true → changed (node w' r) = true.
Proof.
  intros Hrun Hr. destruct op; simpl in Hrun.
  - apply transpile_trace in Hrun. destruct o as [u|e]; simpl in Hrun.
    + rewrite (rtc_transpileStep_keeps changed C w w'); [done|by split_and!|done].
    + destruct Hrun as (w1 & f & m & Hsteps & Hreset).
      rewrite (resetTranspilation_keeps changed f m w1 w') by (done || by split_and!).
      rewrite (rtc_transpileStep_keeps changed C w w1); [done|by split_and!|done].
  - destruct (evaluate C fuel n parentModules w) as [[[v|e] w1]|] eqn:Hev; simpl in Hrun;
      [| |discriminate]; injection Hrun as _ <-; apply evaluate_steps in Hev;
      (rewrite (rtc_evaluateStep_keeps C changed w w1); [done|by split_and!|done]).
  - destruct (reset fuel n w) as [w1|] eqn:Hreset; [|discriminate].
    injection Hrun as _ <-. by eapply reset_changed.
  - destruct (resetTranspilation fuel n w) as [w1|] eqn:Hreset; [|discriminate].
    injection Hrun as _ <-.
    by rewrite (resetTranspilation_keeps changed fuel n w w1) by (done || by split_and!).
  - destruct (resetCompilation fuel n w) as [w1|] eqn:Hreset; [|discriminate].
    injection Hrun as _ <-. by eapply resetCompilation_changed.
  - unfold update in Hrun.
    destruct (reset fuel n (upd n (setModule m) w)) as [w1|] eqn:Hreset; [|discriminate].
    injection Hrun as _ <-. eapply reset_changed; [exact Hreset|].
    by rewrite (keeps_upd changed n (setModule m) w (λ _, eq_refl)).
  - injection Hrun as _ <-.
    rewrite (transpileStep_keeps changed C w _); [done|by split_and!|apply step_emitModule].
  - injection Hrun as _ <-.
    rewrite (transpileStep_keeps changed C w _); [done|by split_and!|apply step_addDependency].
  - pose proof (step_addTranspilationDependency C n depPath isAbsolute w) as Hstep.
    destruct (addTranspilationDependency C n depPath isAbsolute w) as [[t|e] w1];
      simpl in *; injection Hrun as _ <-;
      (rewrite (transpileStep_keeps changed C w w1); [done|by split_and!|done]).
  - injection Hrun as _ <-.
    rewrite (transpileStep_keeps changed C w _);
      [done|by split_and!|apply step_addDependenciesInDirectory].
Qed.

(** The accepting node [/a.js], marked as changed, is evaluated again: it is
    still marked. *)
Lemma changed_is_never_cleared_witness : changed (node reevaluatedGraph 0) = true.
Proof.
  apply (changed_is_never_cleared demo 3 (OpEvaluate 0 []) changedGraph (Returned tt)
           reevaluatedGraph 0).
  - vm_compute. reflexivity.
  - vm_compute. reflexivity.
Defined.



(** * More on [serialize] and [load] *)

Section LoadFacts.

Implicit Types (w : World) (n r : ref) (l : list ref).

Lemma lookupAll_idsOf w (state : gmap string ref) (ρ : ref → ref) l :
  (∀ t, t ∈ l → state !! getId (node w t) = Some (ρ t)) →
  lookupAll state (idsOf w l) = Some (ρ <$> l).
Proof.
  unfold lookupAll, idsOf. induction l as [|x l IH]; intros Hl; [done|].
  cbn [fmap list_fmap mapM]. rewrite (Hl x) by (by left). cbn.
  rewrite IH by (intros; apply Hl; by right). done.
Qed.

Lemma foldl_set_add (acc l : list ref) :
  NoDup (acc ++ l) → foldl (λ s x, set_add x s) acc l = acc ++ l.
Proof.
  revert acc. induction l as [|x l IH]; intros acc Hnd; simpl; [by rewrite app_nil_r|].
  assert (x ∉ acc) as Hx.
  { apply NoDup_app in Hnd as (_ & Hnd & _). intros Hin. apply (Hnd x Hin). by left. }
  unfold set_add at 2. rewrite decide_False by done.
  rewrite IH; [by rewrite <-app_assoc|]. by rewrite <-app_assoc.
Qed.

Lemma drainMicrotasks_fields w jobs o :
  s_module (drainMicrotasks w jobs o) = s_module o
  ∧ s_query (drainMicrotasks w jobs o) = s_query o
  ∧ s_source (drainMicrotasks w jobs o) = s_source o
  ∧ s_assets (drainMicrotasks w jobs o) = s_assets o
  ∧ s_isEntry (drainMicrotasks w jobs o) = s_isEntry o
  ∧ s_childModules (drainMicrotasks w jobs o) = s_childModules o
  ∧ s_emittedAssets (drainMicrotasks w jobs o) = s_emittedAssets o
  ∧ s_initiators (drainMicrotasks w jobs o) = s_initiators o
  ∧ s_dependencies (drainMicrotasks w jobs o) = s_dependencies o
  ∧ s_transpilationDependencies (drainMicrotasks w jobs o) = s_transpilationDependencies o
  ∧ s_transpilationInitiators (drainMicrotasks w jobs o) = s_transpilationInitiators o.
Proof.
  revert o. unfold drainMicrotasks.
  induction jobs as [|[x] jobs IH]; intros o; cbn [foldl]; [by split_and!|].
  destruct (IH (runMicrotask w (PushIdOf x) o))
    as (-> & -> & -> & -> & -> & -> & -> & -> & -> & -> & ->).
  by split_and!.
Qed.

Lemma thenReactions_ids w ps :
  (λ job, match job with PushIdOf x => getId (node w x) end) <$> thenReactions ps
  = idsOf w (settledTargets ps).
Proof.
  unfold thenReactions, settledTargets, idsOf.
  induction ps as [|[t|e|] ps IH]; [done|cbn; by f_equal|exact IH|exact IH].
Qed.

End LoadFacts.

(** X13. [load] restores what [serialize] saved, the transpilation
    initiators apart. Let the record of a node be read after the job queue
    has run, and let [state] resolve the id of every node that the record
    names (to the node [ρ t] for the node [t]). Then [load] on a new node
    returns, and the node it leaves has the module, query, source, assets,
    emitted assets and entry mark of the serialized node, its children, its
    dependencies, initiators and transpilation dependencies (as sets: without
    repetition), one fulfilled promise for each fulfilled download, and no
    transpilation initiator. *)
Theorem load_restores_saved_record (w : World) (n : ref) (ρ : ref → ref)
  (state : gmap string ref) (wl : World) (n' : ref) (m : ModuleRec) (q : string) :
  (∀ t, t ∈ namedBy (node w n) → state !! getId (node w t) = Some (ρ t)) →
  NoDup (ρ <$> dependencies (node w n)) →
  NoDup (ρ <$> initiators (node w n)) →
  NoDup (ρ <$> transpilationDependencies (node w n)) →
  node wl n' = newTranspiledModule m q →
  ∃ wl', load n' (savedRecord w n) state wl = Some wl'
    ∧ module (node wl' n') = module (node w n)
    ∧ query (node wl' n') = query (node w n)
    ∧ source (node wl' n') = source (node w n)
    ∧ assets (node wl' n') = assets (node w n)
    ∧ emittedAssets (node wl' n') = emittedAssets (node w n)
    ∧ isEntry (node wl' n') = isEntry (node w n)
    ∧ childModules (node wl' n') = ρ <$> childModules (node w n)
    ∧ dependencies (node wl' n') = ρ <$> dependencies (node w n)
    ∧ initiators (node wl' n') = ρ <$> initiators (node w n)
    ∧ transpilationDependencies (node wl' n') = ρ <$> transpilationDependencies (node w n)
    ∧ asyncDependencies (node wl' n')
      = Fulfilled <$> (ρ <$> settledTargets (asyncDependencies (node w n)))
    ∧ transpilationInitiators (node wl' n') = [].
Proof.
  intros Hstate Hd Hi Ht Hnew. unfold load, savedRecord.
  destruct (drainMicrotasks_fields w (serialize w n).2 (serialize w n).1)
    as (-> & -> & -> & -> & -> & -> & -> & -> & -> & -> & _).
  rewrite drainMicrotasks_asyncDependencies. cbn [serialize fst snd s_module s_query
    s_source s_assets s_isEntry s_childModules s_emittedAssets s_initiators s_dependencies
    s_asyncDependencies s_transpilationDependencies app].
  rewrite thenReactions_ids.
  unfold namedBy in Hstate.
  rewrite (lookupAll_idsOf w state ρ (dependencies (node w n)))
    by (intros; apply Hstate; rewrite !elem_of_app; auto).
  rewrite (lookupAll_idsOf w state ρ (childModules (node w n)))
    by (intros; apply Hstate; rewrite !elem_of_app; auto).
  rewrite (lookupAll_idsOf w state ρ (initiators (node w n)))
    by (intros; apply Hstate; rewrite !elem_of_app; auto).
  rewrite (lookupAll_idsOf w state ρ (transpilationDependencies (node w n)))
    by (intros; apply Hstate; rewrite !elem_of_app; auto).
  rewrite (lookupAll_idsOf w state ρ (settledTargets (asyncDependencies (node w n))))
    by (intros; apply Hstate; rewrite !elem_of_app; auto 10).
  eexists. split; [reflexivity|].
  rewrite !node_upd_eq, Hnew. cbn.
  rewrite !foldl_set_add by done. by split_and!.
Qed.

(** [/a.js] of the downloading graph, restored on a new node by a table that
    resolves every id to the node it names. *)
Lemma load_restores_saved_record_witness :
  ∃ wl', load 5 (savedRecord downloadingGraph 0) (transpiledModules downloadingGraph)
           downloadingGraph = Some wl'
    ∧ module (node wl' 5) = module (node downloadingGraph 0)
    ∧ query (node wl' 5) = query (node downloadingGraph 0)
    ∧ source (node wl' 5) = source (node downloadingGraph 0)
    ∧ assets (node wl' 5) = assets (node downloadingGraph 0)
    ∧ emittedAssets (node wl' 5) = emittedAssets (node downloadingGraph 0)
    ∧ isEntry (node wl' 5) = isEntry (node downloadingGraph 0)
    ∧ childModules (node wl' 5) = id <$> childModules (node downloadingGraph 0)
    ∧ dependencies (node wl' 5) = id <$> dependencies (node downloadingGraph 0)
    ∧ initiators (node wl' 5) = id <$> initiators (node downloadingGraph 0)
    ∧ transpilationDependencies (node wl' 5)
      = id <$> transpilationDependencies (node downloadingGraph 0)
    ∧ asyncDependencies (node wl' 5)
      = Fulfilled <$> (id <$> settledTargets (asyncDependencies (node downloadingGraph 0)))
    ∧ transpilationInitiators (node wl' 5) = [].
Proof.
  apply (load_restores_saved_record downloadingGraph 0 id
           (transpiledModules downloadingGraph) downloadingGraph 5 blankModule "").
  - intros t Ht. vm_compute in Ht.
    repeat (apply elem_of_cons in Ht as [->|Ht]); try (vm_compute; reflexivity).
    by apply elem_of_nil in Ht.
  - vm_compute. repeat constructor; set_solver.
  - vm_compute. repeat constructor; set_solver.
  - vm_compute. repeat constructor; set_solver.
  - vm_compute. reflexivity.
Defined.
